(** * Metro ridership impact calculator (ridership.py)

    A shallow embedding of the arithmetic core of [ridership.py]: the
    elasticity table, [calculate_ridership_impact] and the loop that fills
    [scenario_results].

    Python [int] is [Z]; Python [float] is IEEE-754 binary64, here the
    primitive type [float] with the kernel's own operations, so every
    rounding of the script is the rounding of the model.  Exceptions are an
    explicit error value.

    The file has four parts: the program; the definitions the statements
    use; binary64 arithmetic read as rounding to nearest over the reals
    (from [SpecFloat] and [FloatAxioms]); the properties of the program,
    the last of which rest on the true division of integers being correctly
    rounded.

    - C1  [raw_impacts_use_magnitudes]
    - C2  [percentages_track_unclamped_total], [percentages_sum_is_not_exact]
    - C3  [diminishing_returns_knee]
    - C4  [increase_is_difference], [increase_differs_when_shrinking],
          [increase_differs_just_beyond], [increase_differs_when_inexact]
    - C5  [idle_sliders_change_nothing], [idle_fails_beyond_2p53]
    - C6  [total_percentage_monotone]
    - C7  [scenario_presets_use_simplified_formula]
    - C8  [current_row_ignores_sliders], [current_row_needs_the_live_run]
    - C9  [baseline_inputs_are_dead]
    - C10 [in_range_results_nonnegative], [nonnegativity_fails_beyond_2p53]

    Further properties, read off the code:

    - X1  [only_overflow_and_value_errors]
    - X2  [in_range_never_raises]
    - X3  [huge_ridership_overflows]
    - X4  [diminishing_returns_dampens]
    - X5  [total_percentage_bounded]
    - X6  [projection_monotone_in_sliders]
    - X7  [new_ridership_monotone_in_ridership]
    - X8  [scenario_table_is_ordered]
    - X9  [increase_matches_percentage]
    - X10 [negative_ridership_mirrors]
    - X11 [total_percentage_strictly_monotone]
    - X12 [scenario_rows_are_consistent]
    - X13 [factor_percentages_capped]
    - X14 [projection_at_most_quadruples] *)

From Stdlib Require Import ZArith List String Bool Lia Uint63 Floats Reals Lra.
Import ListNotations.

Set Warnings "-inexact-float".

Local Open Scope Z_scope.

(** ** Python exceptions as an error monad *)

Inductive py_exn : Set :=
| OverflowError
| ValueError
| ZeroDivisionError
| KeyError.

Inductive result (A : Type) : Type :=
| Ok (a : A)
| Raise (e : py_exn).

Arguments Ok {A} a.
Arguments Raise {A} e.

Definition bind {A B : Type} (c : result A) (k : A -> result B) : result B :=
  match c with
  | Ok a => k a
  | Raise e => Raise e
  end.

Notation "x <- c ;; k" := (bind c (fun x => k))
  (at level 61, c at next level, right associativity).

Fixpoint mapM {A B : Type} (f : A -> result B) (l : list A) : result (list B) :=
  match l with
  | [] => Ok []
  | a :: l' => b <- f a ;; bs <- mapM f l' ;; Ok (b :: bs)
  end.

(** ** Python numbers *)

Module Py.

(** [float(z)]: the nearest binary64 value, ties to even;
    [OverflowError] when [z] is too large. *)
Definition float_of_int (z : Z) : result float :=
  match binary_normalize prec emax z 0 false with
  | S754_infinity _ => Raise OverflowError
  | sf => Ok (SF2Prim sf)
  end.

(** [a / b] on two ints: the correctly rounded quotient. *)
Definition int_truediv (a b : Z) : result float :=
  if b =? 0 then Raise ZeroDivisionError
  else
    let s := xorb (a <? 0) (b <? 0) in
    if a =? 0 then Ok (SF2Prim (S754_zero s))
    else
      let '(q, e, l) := SFdiv_core_binary prec emax (Z.abs a) 0 (Z.abs b) 0 in
      match binary_round_aux prec emax s q e l with
      | S754_infinity _ => Raise OverflowError
      | sf => Ok (SF2Prim sf)
      end.

(** [int(x)] on a float: truncation toward zero. *)
Definition int_of_float (x : float) : result Z :=
  match Prim2SF x with
  | S754_nan => Raise ValueError
  | S754_infinity _ => Raise OverflowError
  | S754_zero _ => Ok 0
  | S754_finite s m e => Ok (cond_Zopp s (Z.shiftl (Zpos m) e))
  end.

(** Mixed arithmetic converts the int operand first. *)
Definition int_mul_float (a : Z) (y : float) : result float :=
  x <- float_of_int a ;; Ok (x * y)%float.

Definition float_mul_int (x : float) (b : Z) : result float :=
  y <- float_of_int b ;; Ok (x * y)%float.

Definition int_add_float (a : Z) (y : float) : result float :=
  x <- float_of_int a ;; Ok (x + y)%float.

Definition float_sub_int (x : float) (b : Z) : result float :=
  y <- float_of_int b ;; Ok (x - y)%float.

(** [x > y] on floats. *)
Definition float_gt (x y : float) : bool := (y <? x)%float.

(** A value that is an int on one path and a float on another. *)
Inductive num : Set :=
| Int (z : Z)
| Float (x : float).

(** [d[k]] on a dict kept in insertion order. *)
Fixpoint dict_get {V : Type} (d : list (string * V)) (k : string) : result V :=
  match d with
  | [] => Raise KeyError
  | (k', v) :: d' => if String.eqb k k' then Ok v else dict_get d' k
  end.

End Py.

Import Py.

Local Open Scope string_scope.

(** ** The elasticity table *)

Definition ELASTICITIES : list (string * float) :=
  [ ("feeder_frequency", 0.5%float);
    ("last_mile_wait_time", (-0.8)%float);
    ("service_availability", 0.3%float);
    ("feeder_cost", (-0.4)%float);
    ("integration_quality", 0.6%float) ].

(** ** The sidebar inputs

    The script reads them as module-level globals. *)

Record Inputs : Set := {
  current_ridership : Z;
  baseline_frequency : Z;
  baseline_wait : Z;
  freq_improvement : Z;
  wait_reduction : Z;
  coverage_improvement : Z;
  cost_reduction : Z;
  integration_improvement : Z
}.

(** The ranges the sliders enforce. *)
Definition sliders_in_range (g : Inputs) : Prop :=
  0 <= freq_improvement g <= 200 /\
  0 <= wait_reduction g <= 80 /\
  0 <= coverage_improvement g <= 100 /\
  0 <= cost_reduction g <= 50 /\
  0 <= integration_improvement g <= 100.

(** ** [calculate_ridership_impact] *)

Record Impacts : Set := {
  raw_freq : float;
  raw_wait : float;
  raw_coverage : float;
  raw_cost : float;
  raw_integration : float
}.

(** Lines 86-90. *)
Definition raw_impacts (g : Inputs) : result Impacts :=
  q1 <- int_truediv (freq_improvement g) 100 ;;
  e1 <- dict_get ELASTICITIES "feeder_frequency" ;;
  let freq_impact := (q1 * e1)%float in
  q2 <- int_truediv (wait_reduction g) 100 ;;
  e2 <- dict_get ELASTICITIES "last_mile_wait_time" ;;
  let wait_impact := (q2 * abs e2)%float in
  q3 <- int_truediv (coverage_improvement g) 100 ;;
  e3 <- dict_get ELASTICITIES "service_availability" ;;
  let coverage_impact := (q3 * e3)%float in
  q4 <- int_truediv (cost_reduction g) 100 ;;
  e4 <- dict_get ELASTICITIES "feeder_cost" ;;
  let cost_impact := (q4 * abs e4)%float in
  q5 <- int_truediv (integration_improvement g) 100 ;;
  e5 <- dict_get ELASTICITIES "integration_quality" ;;
  let integration_impact := (q5 * e5)%float in
  Ok {| raw_freq := freq_impact;
        raw_wait := wait_impact;
        raw_coverage := coverage_impact;
        raw_cost := cost_impact;
        raw_integration := integration_impact |}.

(** Line 93. *)
Definition sum_impacts (r : Impacts) : float :=
  (raw_freq r + raw_wait r + raw_coverage r + raw_cost r + raw_integration r)%float.

(** Lines 96-97. *)
Definition diminishing_returns (total_impact : float) : float :=
  if float_gt total_impact 0.5
  then (0.5 + (total_impact - 0.5) * 0.7)%float
  else total_impact.

Record Results : Set := {
  freq_impact : float;
  wait_impact : float;
  coverage_impact : float;
  cost_impact : float;
  integration_impact : float;
  total_percentage : float;
  new_ridership : Z;
  absolute_increase : Z
}.

Definition calculate_ridership_impact (g : Inputs) : result Results :=
  r <- raw_impacts g ;;
  let total_impact := diminishing_returns (sum_impacts r) in
  growth <- int_add_float 1 total_impact ;;
  new_ridership_f <- int_mul_float (current_ridership g) growth ;;
  absolute_increase_f <- float_sub_int new_ridership_f (current_ridership g) ;;
  percentage_increase <- float_mul_int total_impact 100 ;;
  p1 <- float_mul_int (raw_freq r) 100 ;;
  p2 <- float_mul_int (raw_wait r) 100 ;;
  p3 <- float_mul_int (raw_coverage r) 100 ;;
  p4 <- float_mul_int (raw_cost r) 100 ;;
  p5 <- float_mul_int (raw_integration r) 100 ;;
  n <- int_of_float new_ridership_f ;;
  a <- int_of_float absolute_increase_f ;;
  Ok {| freq_impact := p1;
        wait_impact := p2;
        coverage_impact := p3;
        cost_impact := p4;
        integration_impact := p5;
        total_percentage := percentage_increase;
        new_ridership := n;
        absolute_increase := a |}.

(** ** The scenario comparison (lines 190-208) *)

Definition scenarios : list (string * Z) :=
  [ ("Current", 0);
    ("Basic Improvement", 15);
    ("Moderate Improvement", 35);
    ("Comprehensive Improvement", 60) ].

Record Row : Set := {
  Scenario : string;
  Ridership : Z;
  Pct_Increase : num
}.

(** The two keys of [temp_results] the loop reads. *)
Definition temp_results (g : Inputs) (scenario : string) (improvement : Z)
  : result (float * Z) :=
  if String.eqb scenario "Current"
  then r <- calculate_ridership_impact g ;;
       Ok (total_percentage r, new_ridership r)
  else tp <- int_mul_float improvement 0.4 ;;
       k <- int_mul_float improvement 0.004 ;;
       growth <- int_add_float 1 k ;;
       nr <- int_mul_float (current_ridership g) growth ;;
       n <- int_of_float nr ;;
       Ok (tp, n).

Definition scenario_row (g : Inputs) (entry : string * Z) : result Row :=
  let '(scenario, improvement) := entry in
  t <- temp_results g scenario improvement ;;
  Ok {| Scenario := scenario;
        Ridership := if negb (String.eqb scenario "Current")
                     then snd t else current_ridership g;
        Pct_Increase := if negb (String.eqb scenario "Current")
                        then Float (fst t) else Int 0 |}.

Definition scenario_results (g : Inputs) : result (list Row) :=
  mapM (scenario_row g) scenarios.

Local Close Scope string_scope.

(** The script's default slider positions. *)
Definition defaults : Inputs :=
  {| current_ridership := 100000;
     baseline_frequency := 4;
     baseline_wait := 12;
     freq_improvement := 50;
     wait_reduction := 30;
     coverage_improvement := 25;
     cost_reduction := 15;
     integration_improvement := 40 |}.

(** * Definitions for the statements

    The primitive operations are specified by [SpecFloat]; the definitions
    below read a float as a real number and say what it is to be a nearest
    float, then name the inputs and intermediate values the properties of
    the program are about. *)

(** The record [shr] reaches after dropping the [k] low bits of [N]. *)
Definition dropped (N k : Z) : shr_record :=
  let rem := N mod 2 ^ k in
  {| shr_m := N / 2 ^ k;
     shr_r := 2 ^ k <=? 2 * rem;
     shr_s := negb ((rem =? 0) || (2 * rem =? 2 ^ k)) |}.

(** Round to nearest, ties to even, after dropping [k] bits. *)
Definition rne (N k : Z) : Z :=
  round_nearest_even (shr_m (dropped N k)) (loc_of_shr_record (dropped N k)).

Abbreviation fexp64 := (fexp prec emax).

(** What [binary_round_aux] builds from the rounded mantissa [c]. *)
Definition pack (s : bool) (c e : Z) : spec_float :=
  match c with
  | Zpos p =>
      if (p =? 2 ^ 53)%positive
      then (if e + 1 <=? 971 then S754_finite s (2 ^ 52) (e + 1) else S754_infinity s)
      else (if e <=? 971 then S754_finite s p e else S754_infinity s)
  | _ => S754_zero s
  end.

Definition bpow (e : Z) : R := powerRZ 2 e.

Definition F2R (m e : Z) : R := (IZR m * bpow e)%R.

Definition SF2R (x : spec_float) : R :=
  match x with
  | S754_finite s m e => F2R (cond_Zopp s (Zpos m)) e
  | _ => 0%R
  end.

Definition is_finite (x : spec_float) : bool :=
  match x with
  | S754_finite _ _ _ | S754_zero _ => true
  | _ => false
  end.

Definition nearest (v : R) (r : spec_float) : Prop :=
  forall f, valid_binary f = true -> is_finite f = true ->
            (Rabs (SF2R r - v) <= Rabs (SF2R f - v))%R.

Definition fin (x : spec_float) : Prop :=
  valid_binary x = true /\ is_finite x = true.

Definition cmp_holds (c : option comparison) (a b : R) : Prop :=
  match c with
  | Some Lt => (a < b)%R
  | Some Eq => a = b
  | Some Gt => (b < a)%R
  | None => False
  end.

Definition B2R (x : float) : R := SF2R (Prim2SF x).

Definition finite (x : float) : Prop := is_finite (Prim2SF x) = true.

(** [x] is a float nearest to the real [v]. *)
Definition rounds (v : R) (x : float) : Prop :=
  finite x /\
  forall y, finite y -> (Rabs (B2R x - v) <= Rabs (B2R y - v))%R.

(** [n] is the real [v] truncated toward zero. *)
Definition trunc_of (v : R) (n : Z) : Prop :=
  ((0 <= v -> IZR n <= v < IZR n + 1) /\
   (v <= 0 -> IZR n - 1 < v <= IZR n))%R.

(** ** Checking a slider's whole range by computation *)

Fixpoint Zseq (lo : Z) (n : nat) : list Z :=
  match n with
  | O => []
  | S n' => lo :: Zseq (lo + 1) n'
  end.

(** The raw impact of one lever: [(p / 100) * c]. *)
Definition lever (p : Z) (c : float) : float :=
  match int_truediv p 100 with
  | Ok q => (q * c)%float
  | Raise _ => nan
  end.

Definition lever_point_ok (c : float) (p : Z) : bool :=
  match int_truediv p 100 with
  | Ok q => is_finite (Prim2SF (q * c)) && (0 <=? q * c)%float && (q * c <=? 1)%float
  | Raise _ => false
  end.

Definition lever_table_ok (c : float) (hi : Z) : bool :=
  let ps := Zseq 0 (Z.to_nat (hi + 1)) in
  forallb (lever_point_ok c) ps &&
  forallb (fun p => (lever p c <? lever (p + 1) c)%float) (Zseq 0 (Z.to_nat hi)).

(** The five raw impacts written with the magnitudes of the coefficients. *)
Definition raw_impacts_magnitudes (g : Inputs) : result Impacts :=
  q1 <- int_truediv (freq_improvement g) 100 ;;
  q2 <- int_truediv (wait_reduction g) 100 ;;
  q3 <- int_truediv (coverage_improvement g) 100 ;;
  q4 <- int_truediv (cost_reduction g) 100 ;;
  q5 <- int_truediv (integration_improvement g) 100 ;;
  Ok {| raw_freq := (q1 * 0.5)%float;
        raw_wait := (q2 * 0.8)%float;
        raw_coverage := (q3 * 0.3)%float;
        raw_cost := (q4 * 0.4)%float;
        raw_integration := (q5 * 0.6)%float |}.

(** [x] is finite and lies between two integers. *)
Definition within (lo hi : Z) (x : float) : Prop :=
  finite x /\ (IZR lo <= B2R x <= IZR hi)%R.

(** The raw impacts and the clamped total when every slider is in range. *)
Definition slider_impacts (g : Inputs) : Impacts :=
  {| raw_freq := lever (freq_improvement g) 0.5;
     raw_wait := lever (wait_reduction g) 0.8;
     raw_coverage := lever (coverage_improvement g) 0.3;
     raw_cost := lever (cost_reduction g) 0.4;
     raw_integration := lever (integration_improvement g) 0.6 |}.

Definition total_impact (g : Inputs) : float :=
  diminishing_returns (sum_impacts (slider_impacts g)).

(** What [calculate_ridership_impact] returns once the conversions of
    [current_ridership] and of the two float results have succeeded. *)
Definition results_of (r : Impacts) (n a : Z) : Results :=
  {| freq_impact := (raw_freq r * 100)%float;
     wait_impact := (raw_wait r * 100)%float;
     coverage_impact := (raw_coverage r * 100)%float;
     cost_impact := (raw_cost r * 100)%float;
     integration_impact := (raw_integration r * 100)%float;
     total_percentage := (diminishing_returns (sum_impacts r) * 100)%float;
     new_ridership := n;
     absolute_increase := a |}.

(** An idle scenario with a ridership just above [2^53]. *)
Definition idle_beyond_2p53 : Inputs :=
  {| current_ridership := 2 ^ 53 + 1;
     baseline_frequency := 4;
     baseline_wait := 12;
     freq_improvement := 0;
     wait_reduction := 0;
     coverage_improvement := 0;
     cost_reduction := 0;
     integration_improvement := 0 |}.

(** [g'] is [g] with some improvement percentages raised. *)
Definition raised (g g' : Inputs) : Prop :=
  current_ridership g' = current_ridership g /\
  freq_improvement g <= freq_improvement g' /\
  wait_reduction g <= wait_reduction g' /\
  coverage_improvement g <= coverage_improvement g' /\
  cost_reduction g <= cost_reduction g' /\
  integration_improvement g <= integration_improvement g'.

Definition no_impacts : Impacts :=
  {| raw_freq := 0; raw_wait := 0; raw_coverage := 0; raw_cost := 0;
     raw_integration := 0 |}.

(** An out-of-range scenario: the frequency slider at -10. *)
Definition shrinking : Inputs :=
  {| current_ridership := 10;
     baseline_frequency := 4;
     baseline_wait := 12;
     freq_improvement := -10;
     wait_reduction := 0;
     coverage_improvement := 0;
     cost_reduction := 0;
     integration_improvement := 0 |}.

(** Two in-range scenarios that put the unclamped total at the knee and at 1. *)
Definition at_knee : Inputs :=
  {| current_ridership := 100000;
     baseline_frequency := 4;
     baseline_wait := 12;
     freq_improvement := 100;
     wait_reduction := 0;
     coverage_improvement := 0;
     cost_reduction := 0;
     integration_improvement := 0 |}.

Definition at_one : Inputs :=
  {| current_ridership := 100000;
     baseline_frequency := 4;
     baseline_wait := 12;
     freq_improvement := 200;
     wait_reduction := 0;
     coverage_improvement := 0;
     cost_reduction := 0;
     integration_improvement := 0 |}.

(** A non-Current row as the simplified formula gives it, [P] being the
    preset's uniform percentage as a float. *)
Definition simplified_row (cr : Z) (name : string) (P : float) : result Row :=
  c <- float_of_int cr ;;
  n <- int_of_float (c * (1 + P * 0.004))%float ;;
  Ok {| Scenario := name; Ridership := n; Pct_Increase := Float (P * 0.4)%float |}.

Definition current_row (cr : Z) : Row :=
  {| Scenario := "Current"; Ridership := cr; Pct_Increase := Int 0 |}.

(** The inputs agree on everything the formulas read. *)
Definition same_live_inputs (g1 g2 : Inputs) : Prop :=
  current_ridership g1 = current_ridership g2 /\
  freq_improvement g1 = freq_improvement g2 /\
  wait_reduction g1 = wait_reduction g2 /\
  coverage_improvement g1 = coverage_improvement g2 /\
  cost_reduction g1 = cost_reduction g2 /\
  integration_improvement g1 = integration_improvement g2.

(** The five returned percentages added left to right, as a chart legend
    or a test would add them. *)
Definition percentages_sum (r : Results) : float :=
  (freq_impact r + wait_impact r + coverage_impact r + cost_impact r
   + integration_impact r)%float.

(** Two small in-range steps: frequency +1%, wait -3%. *)
Definition tiny_steps : Inputs :=
  {| current_ridership := 100000;
     baseline_frequency := 4;
     baseline_wait := 12;
     freq_improvement := 1;
     wait_reduction := 3;
     coverage_improvement := 0;
     cost_reduction := 0;
     integration_improvement := 0 |}.

(** Every slider at its maximum, with a ridership just below [2^52]. *)
Definition crowded : Inputs :=
  {| current_ridership := 2 ^ 52 - 1;
     baseline_frequency := 4;
     baseline_wait := 12;
     freq_improvement := 200;
     wait_reduction := 80;
     coverage_improvement := 100;
     cost_reduction := 50;
     integration_improvement := 100 |}.

(** The quotient [p / 100] agrees with the primitive division of the two
    converted operands. *)
Definition truediv_is_primitive (p : Z) : bool :=
  match int_truediv p 100 with
  | Ok q => Leibniz.eqb q (of_uint63 (Uint63.of_Z p) / 100)%float
  | Raise _ => false
  end.

(** The defaults with the wait and cost sliders one step further. *)
Definition one_step_further : Inputs :=
  {| current_ridership := 100000;
     baseline_frequency := 4;
     baseline_wait := 12;
     freq_improvement := 50;
     wait_reduction := 31;
     coverage_improvement := 25;
     cost_reduction := 16;
     integration_improvement := 40 |}.

(** The table of the scenario comparison at a ridership of 100000. *)
Definition table_100000 : list Row :=
  [ {| Scenario := "Current"; Ridership := 100000; Pct_Increase := Int 0 |};
    {| Scenario := "Basic Improvement"; Ridership := 106000;
       Pct_Increase := Float 6 |};
    {| Scenario := "Moderate Improvement"; Ridership := 114000;
       Pct_Increase := Float 14 |};
    {| Scenario := "Comprehensive Improvement"; Ridership := 124000;
       Pct_Increase := Float 24 |} ].

(** Two absurd scenarios: a ridership of [2^1024], and sliders so large
    that the sum of the impacts overflows while the ridership is 0. *)
Definition unconvertible : Inputs :=
  {| current_ridership := 2 ^ 1024;
     baseline_frequency := 4;
     baseline_wait := 12;
     freq_improvement := 0;
     wait_reduction := 0;
     coverage_improvement := 0;
     cost_reduction := 0;
     integration_improvement := 0 |}.

Definition overflowing_sum : Inputs :=
  {| current_ridership := 0;
     baseline_frequency := 4;
     baseline_wait := 12;
     freq_improvement := 17 * 10 ^ 309;
     wait_reduction := 17 * 10 ^ 309;
     coverage_improvement := 0;
     cost_reduction := 0;
     integration_improvement := 0 |}.

(** The inputs [g] with every slider moved to its maximum. *)
Definition flat_out (g : Inputs) : Inputs :=
  {| current_ridership := current_ridership g;
     baseline_frequency := baseline_frequency g;
     baseline_wait := baseline_wait g;
     freq_improvement := 200;
     wait_reduction := 80;
     coverage_improvement := 100;
     cost_reduction := 50;
     integration_improvement := 100 |}.

(** [g'] has the sliders of [g]; the ridership may differ. *)
Definition same_sliders (g g' : Inputs) : Prop :=
  freq_improvement g' = freq_improvement g /\
  wait_reduction g' = wait_reduction g /\
  coverage_improvement g' = coverage_improvement g /\
  cost_reduction g' = cost_reduction g /\
  integration_improvement g' = integration_improvement g.

(** Mirror images: the inputs with the ridership negated, and the results
    with the two head counts negated. *)
Definition mirrored_inputs (g : Inputs) : Inputs :=
  {| current_ridership := - current_ridership g;
     baseline_frequency := baseline_frequency g;
     baseline_wait := baseline_wait g;
     freq_improvement := freq_improvement g;
     wait_reduction := wait_reduction g;
     coverage_improvement := coverage_improvement g;
     cost_reduction := cost_reduction g;
     integration_improvement := integration_improvement g |}.

Definition mirrored_results (r : Results) : Results :=
  {| freq_impact := freq_impact r;
     wait_impact := wait_impact r;
     coverage_impact := coverage_impact r;
     cost_impact := cost_impact r;
     integration_impact := integration_impact r;
     total_percentage := total_percentage r;
     new_ridership := - new_ridership r;
     absolute_increase := - absolute_increase r |}.

Definition mirrored_row (w : Row) : Row :=
  {| Scenario := Scenario w;
     Ridership := - Ridership w;
     Pct_Increase := Pct_Increase w |}.

(** [y] is the opposite of [x], the sign of a zero being free. *)
Definition opposite (x y : spec_float) : Prop :=
  y = SFopp x \/ exists s s', x = S754_zero s /\ y = S754_zero s'.

(** One more step of a slider adds at least [2^-9] to its raw impact. *)
Definition lever_steps_ok (c : float) (hi : Z) : bool :=
  forallb (fun p => (lever p c + 0.001953125 <=? lever (p + 1) c)%float)
          (Zseq 0 (Z.to_nat hi)).

(** [g'] is [g] with sliders raised, one of them at least by a step. *)
Definition strictly_raised (g g' : Inputs) : Prop :=
  raised g g' /\
  (freq_improvement g < freq_improvement g' \/
   wait_reduction g < wait_reduction g' \/
   coverage_improvement g < coverage_improvement g' \/
   cost_reduction g < cost_reduction g' \/
   integration_improvement g < integration_improvement g').

(** The number in the [Pct_Increase] column, as a real. *)
Definition pct_value (x : num) : R :=
  match x with
  | Int z => IZR z
  | Float f => B2R f
  end.

(** The quotient digits [q] followed by the two bits that say where the
    remainder lies: nothing left, below half, half, above half. *)
Definition with_sticky (q : positive) (l : location) : positive :=
  match l with
  | loc_Exact => q~0~0
  | loc_Inexact Lt => q~0~1
  | loc_Inexact Eq => q~1~0
  | loc_Inexact Gt => q~1~1
  end%positive.

(** The real [X] lies where [l] says, between [q] and [q + 1] units of
    exponent [e]. *)
Definition located (q : positive) (e : Z) (l : location) (X : R) : Prop :=
  match l with
  | loc_Exact => X = F2R (Zpos q) e
  | loc_Inexact Lt => (F2R (Zpos q) e < X < F2R (Zpos q) e + bpow e / 2)%R
  | loc_Inexact Eq => X = (F2R (Zpos q) e + bpow e / 2)%R
  | loc_Inexact Gt => (F2R (Zpos q) e + bpow e / 2 < X < F2R (Zpos q + 1) e)%R
  end.

(** Every slider at its maximum and a ridership for which the projected
    increase is [2^53 + 1]. *)
Definition just_beyond : Inputs :=
  {| current_ridership := 4355512212157153;
     baseline_frequency := 4;
     baseline_wait := 12;
     freq_improvement := 200;
     wait_reduction := 80;
     coverage_improvement := 100;
     cost_reduction := 50;
     integration_improvement := 100 |}.

(** The default sliders and a ridership that is not a binary64 number. *)
Definition inexact_ridership : Inputs :=
  {| current_ridership := 2 ^ 53 + 1;
     baseline_frequency := 4;
     baseline_wait := 12;
     freq_improvement := 50;
     wait_reduction := 30;
     coverage_improvement := 25;
     cost_reduction := 15;
     integration_improvement := 40 |}.

(** Two runs with the same ridership, [2^1023], and sliders in range: all
    at 0, and all at their maxima. *)
Definition idle_at_2p1023 : Inputs :=
  {| current_ridership := 2 ^ 1023;
     baseline_frequency := 4;
     baseline_wait := 12;
     freq_improvement := 0;
     wait_reduction := 0;
     coverage_improvement := 0;
     cost_reduction := 0;
     integration_improvement := 0 |}.

Definition flat_out_at_2p1023 : Inputs :=
  {| current_ridership := 2 ^ 1023;
     baseline_frequency := 4;
     baseline_wait := 12;
     freq_improvement := 200;
     wait_reduction := 80;
     coverage_improvement := 100;
     cost_reduction := 50;
     integration_improvement := 100 |}.

(** The integer [z] is a binary64 number. *)
Definition binary64 (z : Z) : Prop := exists y, finite y /\ B2R y = IZR z.

(** * Binary64 arithmetic over the reals *)

(** ** Dropping low bits *)

Lemma dropped_0 (N : Z) : dropped N 0 = Build_shr_record N false false.
Proof.
  unfold dropped. simpl. rewrite Z.mod_1_r, Z.div_1_r. reflexivity.
Qed.

Lemma shr_1_nonneg (m : Z) (r s : bool) :
  0 <= m ->
  shr_1 (Build_shr_record m r s) =
  Build_shr_record (m / 2) (Z.odd m) (r || s).
Proof.
  intros Hm. destruct m as [|p|p]; [reflexivity| |lia].
  destruct p as [p|p|]; simpl shr_1.
  - replace (Z.pos p~1 / 2) with (Z.pos p); [reflexivity|].
    change (Z.pos p~1) with (2 * Z.pos p + 1).
    apply Z.div_unique with 1; lia.
  - replace (Z.pos p~0 / 2) with (Z.pos p); [reflexivity|].
    change (Z.pos p~0) with (2 * Z.pos p).
    apply Z.div_unique with 0; lia.
  - reflexivity.
Qed.

Lemma shr_1_dropped (N k : Z) :
  0 <= N -> 0 <= k -> shr_1 (dropped N k) = dropped N (k + 1).
Proof.
  intros HN Hk. unfold dropped.
  assert (HP : 0 < 2 ^ k) by (apply Z.pow_pos_nonneg; lia).
  rewrite Z.pow_add_r by lia. change (2 ^ 1) with 2.
  set (P := 2 ^ k) in *.
  pose proof (Z.div_mod N P ltac:(lia)) as HD.
  pose proof (Z.mod_pos_bound N P HP) as HB.
  set (m := N / P) in *. set (rem := N mod P) in *.
  assert (Hm : 0 <= m) by (apply Z.div_pos; lia).
  rewrite shr_1_nonneg by assumption.
  pose proof (Z.div_mod m 2 ltac:(lia)) as HD2.
  pose proof (Z.mod_pos_bound m 2 ltac:(lia)) as HB2.
  assert (Hq : N / (P * 2) = m / 2).
  { symmetry. apply Z.div_unique with (P * (m mod 2) + rem); nia. }
  assert (Hr : N mod (P * 2) = P * (m mod 2) + rem).
  { symmetry. apply Z.mod_unique with (m / 2); nia. }
  rewrite Hq, Hr.
  rewrite Zodd_mod.
  assert (Hb : m mod 2 = 0 \/ m mod 2 = 1) by lia.
  destruct Hb as [Hb|Hb]; rewrite Hb; simpl (_ =? 1);
    replace (P * 0 + rem) with rem by ring;
    replace (P * 1 + rem) with (P + rem) by ring;
    f_equal;
    repeat match goal with
           | |- context [?a <=? ?b] => destruct (Z.leb_spec a b)
           | |- context [?a =? ?b] => destruct (Z.eqb_spec a b)
           end; simpl; try reflexivity; lia.
Qed.

Lemma iter_pos_shr_1_dropped (p : positive) (N k : Z) :
  0 <= N -> 0 <= k ->
  SpecFloat.iter_pos shr_1 p (dropped N k) = dropped N (k + Zpos p).
Proof.
  intros HN. revert k.
  induction p as [p IH|p IH|]; intros k Hk; cbn [SpecFloat.iter_pos].
  - rewrite shr_1_dropped, !IH by lia. f_equal. lia.
  - rewrite !IH by lia. f_equal. lia.
  - apply shr_1_dropped; assumption.
Qed.

Lemma digits2_pos_bounds (m : positive) :
  2 ^ (Zpos (digits2_pos m) - 1) <= Zpos m < 2 ^ Zpos (digits2_pos m).
Proof.
  induction m as [m IH|m IH|]; cbn [digits2_pos].
  - rewrite Pos2Z.inj_succ.
    replace (Z.succ (Zpos (digits2_pos m)) - 1) with (Zpos (digits2_pos m) - 1 + 1) by lia.
    rewrite Z.pow_succ_r, Z.pow_add_r by lia. lia.
  - rewrite Pos2Z.inj_succ.
    replace (Z.succ (Zpos (digits2_pos m)) - 1) with (Zpos (digits2_pos m) - 1 + 1) by lia.
    rewrite Z.pow_succ_r, Z.pow_add_r by lia. lia.
  - simpl. lia.
Qed.

Lemma rne_spec (N k : Z) :
  0 <= N -> 0 <= k ->
  N / 2 ^ k <= rne N k <= N / 2 ^ k + 1 /\
  2 * Z.abs (rne N k * 2 ^ k - N) <= 2 ^ k /\
  (N mod 2 ^ k = 0 -> rne N k = N / 2 ^ k).
Proof.
  intros HN Hk. unfold rne, dropped.
  assert (HP : 0 < 2 ^ k) by (apply Z.pow_pos_nonneg; lia).
  set (P := 2 ^ k) in *.
  pose proof (Z.div_mod N P ltac:(lia)) as HD.
  pose proof (Z.mod_pos_bound N P HP) as HB.
  set (q := N / P) in *. set (rem := N mod P) in *.
  cbn [shr_m loc_of_shr_record].
  destruct (Z.leb_spec P (2 * rem)); destruct (Z.eqb_spec rem 0);
    destruct (Z.eqb_spec (2 * rem) P); cbn [orb negb round_nearest_even];
    try destruct (Z.even q); lia.
Qed.

Lemma fexp64_eq (x : Z) : fexp64 x = Z.max (x - 53) (-1074).
Proof. reflexivity. Qed.

Lemma shr_dropped (N e n : Z) :
  0 <= N -> 0 <= n ->
  shr (Build_shr_record N false false) e n = (dropped N n, e + n).
Proof.
  intros HN Hn. destruct n as [|p|p]; [| |lia].
  - rewrite dropped_0, Z.add_0_r. reflexivity.
  - cbn [shr]. rewrite <- (dropped_0 N), iter_pos_shr_1_dropped by lia.
    reflexivity.
Qed.

Lemma shr_noop (mrs : shr_record) (e n : Z) :
  n <= 0 -> shr mrs e n = (mrs, e).
Proof. destruct n; [reflexivity|lia|reflexivity]. Qed.

Lemma binary_round_aux_rne (s : bool) (m : positive) (e : Z) :
  let n := fexp64 (Zpos (digits2_pos m) + e) - e in
  0 <= n ->
  binary_round_aux prec emax s (Zpos m) e loc_Exact =
  pack s (rne (Zpos m) n) (e + n).
Proof.
  intros n Hn.
  pose proof (digits2_pos_bounds m) as Hd.
  set (d := Zpos (digits2_pos m)) in *.
  assert (He1 : -1074 <= e + n) by (unfold n; rewrite fexp64_eq; lia).
  destruct (rne_spec (Zpos m) n ltac:(lia) Hn) as (Hc & _ & _).
  assert (Hq : Zpos m / 2 ^ n < 2 ^ 53).
  { apply Z.div_lt_upper_bound; [apply Z.pow_pos_nonneg; lia|].
    rewrite <- Z.pow_add_r by lia.
    apply Z.lt_le_trans with (2 ^ d); [lia|].
    apply Z.pow_le_mono_r; [lia|]. unfold n. rewrite fexp64_eq. lia. }
  assert (Hq0 : 0 <= Zpos m / 2 ^ n) by (apply Z.div_pos; [lia|apply Z.pow_pos_nonneg; lia]).
  unfold binary_round_aux, shr_fexp.
  cbn [Zdigits2 shr_record_of_loc]. fold d. fold n.
  rewrite shr_dropped by lia.
  fold (rne (Zpos m) n).
  set (c := rne (Zpos m) n) in *.
  destruct c as [|p|p] eqn:Ec; [| |lia].
  - cbn [Zdigits2 shr_record_of_loc]. rewrite shr_noop by (rewrite fexp64_eq; lia).
    reflexivity.
  - cbn [Zdigits2 shr_record_of_loc pack].
    pose proof (digits2_pos_bounds p) as Hp.
    set (dp := Zpos (digits2_pos p)) in *.
    destruct (Pos.eqb_spec p (2 ^ 53)) as [E|E].
    + subst p. change dp with 54.
      replace (fexp64 (54 + (e + n)) - (e + n)) with 1 by (rewrite fexp64_eq; lia).
      reflexivity.
    + assert (Zpos p < 2 ^ 53).
      { assert (Zpos p <> 2 ^ 53) by (intros E'; apply E; apply Pos2Z.inj; exact E').
        lia. }
      assert (dp <= 53).
      { destruct (Z.le_gt_cases dp 53); [assumption|].
        assert (2 ^ 53 <= 2 ^ (dp - 1)) by (apply Z.pow_le_mono_r; lia). lia. }
      rewrite shr_noop by (rewrite fexp64_eq; lia).
      reflexivity.
Qed.

(** ** Real values of floats *)

Lemma bpow_pos (e : Z) : (0 < bpow e)%R.
Proof. apply powerRZ_lt. lra. Qed.

Lemma bpow_add (a b : Z) : bpow (a + b) = (bpow a * bpow b)%R.
Proof. apply powerRZ_add. lra. Qed.

Lemma bpow_IZR (e : Z) : 0 <= e -> bpow e = IZR (2 ^ e).
Proof.
  intros He. unfold bpow.
  rewrite <- (Z2Nat.id e) by assumption.
  rewrite <- pow_powerRZ, pow_IZR. reflexivity.
Qed.

Lemma bpow_le (a b : Z) : a <= b -> (bpow a <= bpow b)%R.
Proof.
  intros H. replace b with (a + (b - a)) by ring.
  rewrite bpow_add, (bpow_IZR (b - a)) by lia.
  assert (1 <= IZR (2 ^ (b - a)))%R.
  { apply IZR_le. assert (0 < 2 ^ (b - a)) by (apply Z.pow_pos_nonneg; lia). lia. }
  pose proof (bpow_pos a). nra.
Qed.

Lemma bpow_lt (a b : Z) : a < b -> (bpow a < bpow b)%R.
Proof.
  intros H. replace b with (a + (b - a)) by ring.
  rewrite bpow_add, (bpow_IZR (b - a)) by lia.
  assert (2 <= IZR (2 ^ (b - a)))%R.
  { apply IZR_le. replace (b - a) with (1 + (b - a - 1)) by ring.
    rewrite Z.pow_add_r by lia.
    assert (0 < 2 ^ (b - a - 1)) by (apply Z.pow_pos_nonneg; lia). lia. }
  pose proof (bpow_pos a). nra.
Qed.

Lemma F2R_shift (m e k : Z) : 0 <= k -> F2R (m * 2 ^ k) e = F2R m (e + k).
Proof.
  intros Hk. unfold F2R. rewrite bpow_add, (bpow_IZR k), mult_IZR by assumption.
  ring.
Qed.

Lemma F2R_le (m1 m2 e : Z) : m1 <= m2 -> (F2R m1 e <= F2R m2 e)%R.
Proof.
  intros H. unfold F2R. apply IZR_le in H. pose proof (bpow_pos e). nra.
Qed.

Lemma F2R_lt (m1 m2 e : Z) : m1 < m2 -> (F2R m1 e < F2R m2 e)%R.
Proof.
  intros H. unfold F2R. apply IZR_lt in H. pose proof (bpow_pos e). nra.
Qed.

Lemma F2R_lt_inv (m1 m2 e : Z) : (F2R m1 e < F2R m2 e)%R -> m1 < m2.
Proof.
  intros H. destruct (Z.lt_ge_cases m1 m2) as [L|L]; [assumption|].
  apply F2R_le with (e := e) in L. lra.
Qed.

Lemma F2R_le_inv (m1 m2 e : Z) : (F2R m1 e <= F2R m2 e)%R -> m1 <= m2.
Proof.
  intros H. destruct (Z.le_gt_cases m1 m2) as [L|L]; [assumption|].
  apply F2R_lt with (e := e) in L. lra.
Qed.

Lemma F2R_opp (m e : Z) : F2R (- m) e = (- F2R m e)%R.
Proof. unfold F2R. rewrite opp_IZR. ring. Qed.

Lemma F2R_0 (e : Z) : F2R 0 e = 0%R.
Proof. unfold F2R. ring. Qed.

(** ** Rounding to nearest *)

Lemma canonical_inv (m : positive) (e : Z) :
  canonical_mantissa prec emax m e = true ->
  Zpos (digits2_pos m) <= 53 /\ -1074 <= e /\
  (-1074 < e -> Zpos (digits2_pos m) = 53).
Proof.
  unfold canonical_mantissa. intros H. apply Z.eqb_eq in H.
  rewrite fexp64_eq in H. lia.
Qed.

(** No canonical float lies strictly between the two neighbours of the
    value being rounded. *)
Lemma canonical_not_between (m : positive) (e : Z) :
  let n := fexp64 (Zpos (digits2_pos m) + e) - e in
  0 <= n ->
  forall (mf : positive) (ef : Z),
    canonical_mantissa prec emax mf ef = true ->
    (F2R (Zpos mf) ef <= F2R (Zpos m / 2 ^ n) (e + n))%R \/
    (F2R (Zpos m / 2 ^ n + 1) (e + n) <= F2R (Zpos mf) ef)%R.
Proof.
  intros n Hn mf ef Hc.
  destruct (canonical_inv _ _ Hc) as (Hdf & Hef & _).
  pose proof (digits2_pos_bounds m) as Hd.
  pose proof (digits2_pos_bounds mf) as Hmf.
  set (d := Zpos (digits2_pos m)) in *.
  set (df := Zpos (digits2_pos mf)) in *.
  set (q := Zpos m / 2 ^ n).
  destruct (Z.le_gt_cases (e + n) ef) as [Hge|Hlt].
  - replace ef with (e + n + (ef - (e + n))) by ring.
    rewrite <- F2R_shift by lia.
    set (K := Zpos mf * 2 ^ (ef - (e + n))).
    destruct (Z.le_gt_cases K q); [left|right]; apply F2R_le; lia.
  - left.
    assert (Hn' : n = d - 53) by (unfold n in *; rewrite fexp64_eq in *; lia).
    assert (Hq : 2 ^ 52 <= q).
    { apply Z.div_le_lower_bound; [apply Z.pow_pos_nonneg; lia|].
      rewrite Z.mul_comm, <- Z.pow_add_r by lia.
      replace (52 + n) with (d - 1) by lia. lia. }
    apply Rle_trans with (F2R (2 ^ 52) (e + n)); [|apply F2R_le; exact Hq].
    replace (e + n) with (ef + (e + n - ef)) by ring.
    rewrite <- F2R_shift by lia.
    apply F2R_le.
    assert (Zpos mf < 2 ^ 53).
    { apply Z.lt_le_trans with (2 ^ df); [lia|]. apply Z.pow_le_mono_r; lia. }
    assert (2 ^ 1 <= 2 ^ (e + n - ef)) by (apply Z.pow_le_mono_r; lia).
    change (2 ^ 53) with (2 ^ 52 * 2 ^ 1) in *. nia.
Qed.

(** The rounded value is as close to the exact one as any float. *)
Lemma rne_nearest (m : positive) (e : Z) :
  let n := fexp64 (Zpos (digits2_pos m) + e) - e in
  0 <= n ->
  forall F : R,
    (F <= 0 \/ exists mf ef, canonical_mantissa prec emax mf ef = true /\
                             F = F2R (Zpos mf) ef)%R ->
    (Rabs (F2R (rne (Zpos m) n) (e + n) - F2R (Zpos m) e) <=
     Rabs (F - F2R (Zpos m) e))%R.
Proof.
  intros n Hn F HF.
  destruct (rne_spec (Zpos m) n ltac:(lia) Hn) as (Hc & Hhalf & _).
  assert (HP : 0 < 2 ^ n) by (apply Z.pow_pos_nonneg; lia).
  pose proof (Z.div_mod (Zpos m) (2 ^ n) ltac:(lia)) as HD.
  pose proof (Z.mod_pos_bound (Zpos m) (2 ^ n) HP) as HB.
  set (q := Zpos m / 2 ^ n) in *.
  set (c := rne (Zpos m) n) in *.
  assert (Hq0 : 0 <= q) by (apply Z.div_pos; lia).
  (* everything on the grid of exponent [e] *)
  rewrite <- (F2R_shift c e n) by assumption.
  assert (Hlo : (F2R (q * 2 ^ n) e <= F2R (Zpos m) e)%R) by (apply F2R_le; lia).
  assert (Hhi : (F2R (Zpos m) e < F2R ((q + 1) * 2 ^ n) e)%R) by (apply F2R_lt; lia).
  assert (Hlo0 : (0 <= F2R (q * 2 ^ n) e)%R).
  { rewrite <- (F2R_0 e). apply F2R_le. lia. }
  assert (Hside : (F <= F2R (q * 2 ^ n) e \/ F2R ((q + 1) * 2 ^ n) e <= F)%R).
  { destruct HF as [HF|(mf & ef & Hcan & ->)]; [left; lra|].
    rewrite !F2R_shift by assumption.
    apply canonical_not_between; assumption. }
  assert (Hmid : (2 * Rabs (F2R (c * 2 ^ n) e - F2R (Zpos m) e)
                  <= F2R ((q + 1) * 2 ^ n) e - F2R (q * 2 ^ n) e)%R).
  { unfold F2R. rewrite <- !Rmult_minus_distr_r, <- !minus_IZR.
    rewrite Rabs_mult, (Rabs_pos_eq (bpow e)) by (left; apply bpow_pos).
    rewrite <- abs_IZR.
    pose proof (bpow_pos e).
    assert (2 * IZR (Z.abs (c * 2 ^ n - Zpos m)) <= IZR ((q + 1) * 2 ^ n - q * 2 ^ n))%R.
    { rewrite <- mult_IZR. apply IZR_le. lia. }
    nra. }
  assert (Hcq : c = q \/ c = q + 1) by lia.
  revert Hmid. unfold Rabs.
  destruct Hcq as [E|E]; rewrite E in *; clear E;
    repeat destruct Rcase_abs; intros Hmid; destruct Hside; lra.
Qed.

Lemma nearest_exact (r : spec_float) : nearest (SF2R r) r.
Proof.
  intros f _ _. replace (SF2R r - SF2R r)%R with 0%R by ring.
  rewrite Rabs_R0. apply Rabs_pos.
Qed.

Lemma valid_grid (f : spec_float) :
  valid_binary f = true ->
  (SF2R f <= 0 \/ exists mf ef, canonical_mantissa prec emax mf ef = true /\
                                SF2R f = F2R (Zpos mf) ef)%R.
Proof.
  intros Hv. destruct f as [s|s| |s m e]; cbn [SF2R]; try (left; lra).
  destruct s; cbn [cond_Zopp].
  - left. rewrite <- (F2R_0 e). apply F2R_le. lia.
  - right. exists m, e. split; [|reflexivity].
    cbn [valid_binary] in Hv. unfold bounded in Hv.
    apply andb_true_iff in Hv. tauto.
Qed.

Lemma valid_opp (f : spec_float) :
  valid_binary f = true -> valid_binary (SFopp f) = true.
Proof. destruct f; auto. Qed.

Lemma SF2R_opp (f : spec_float) : SF2R (SFopp f) = (- SF2R f)%R.
Proof.
  destruct f as [s|s| |s m e]; cbn [SFopp SF2R]; try lra.
  destruct s; cbn [negb cond_Zopp]; rewrite ?F2R_opp;
    change (Z.neg m) with (- Zpos m); rewrite ?F2R_opp; lra.
Qed.

Lemma pack_finite (s : bool) (c e : Z) :
  e <= 970 -> is_finite (pack s c e) = true.
Proof.
  intros He. unfold pack. destruct c as [|p|p]; try reflexivity.
  destruct (p =? 2 ^ 53)%positive.
  - destruct (Z.leb_spec (e + 1) 971); [reflexivity|lia].
  - destruct (Z.leb_spec e 971); [reflexivity|lia].
Qed.

Lemma pack_value (s : bool) (c e : Z) :
  0 <= c -> is_finite (pack s c e) = true ->
  SF2R (pack s c e) = F2R (cond_Zopp s c) e.
Proof.
  intros Hc. unfold pack. destruct c as [|p|p]; [| |lia].
  - intros _. cbn [SF2R]. destruct s; cbn [cond_Zopp]; rewrite F2R_0; reflexivity.
  - destruct (Pos.eqb_spec p (2 ^ 53)) as [->|_].
    + destruct (e + 1 <=? 971); [|discriminate]. intros _. cbn [SF2R].
      rewrite <- F2R_shift by lia. f_equal. destruct s; reflexivity.
    + destruct (e <=? 971); [|discriminate]. reflexivity.
Qed.

Section RoundAux.
Variables (s : bool) (m : positive) (e : Z).
Let n := fexp64 (Zpos (digits2_pos m) + e) - e.
Hypothesis Hn : 0 <= n.
Let r := binary_round_aux prec emax s (Zpos m) e loc_Exact.

Lemma binary_round_aux_value :
  is_finite r = true -> SF2R r = F2R (cond_Zopp s (rne (Zpos m) n)) (e + n).
Proof.
  unfold r. rewrite binary_round_aux_rne by exact Hn. fold n.
  apply pack_value.
  destruct (rne_spec (Zpos m) n ltac:(lia) Hn) as (Hc & _).
  assert (0 <= Zpos m / 2 ^ n); [|lia].
  apply Z.div_pos; [lia|apply Z.pow_pos_nonneg; lia].
Qed.

Lemma binary_round_aux_nearest :
  is_finite r = true -> nearest (F2R (cond_Zopp s (Zpos m)) e) r.
Proof.
  intros Hfin f Hv _. rewrite binary_round_aux_value by assumption.
  destruct s; cbn [cond_Zopp].
  - rewrite !F2R_opp.
    replace (- F2R (rne (Zpos m) n) (e + n) - - F2R (Zpos m) e)%R
      with (- (F2R (rne (Zpos m) n) (e + n) - F2R (Zpos m) e))%R by ring.
    replace (SF2R f - - F2R (Zpos m) e)%R
      with (- (SF2R (SFopp f) - F2R (Zpos m) e))%R by (rewrite SF2R_opp; ring).
    rewrite !Rabs_Ropp.
    apply rne_nearest; [exact Hn|]. apply valid_grid, valid_opp, Hv.
  - apply rne_nearest; [exact Hn|]. apply valid_grid, Hv.
Qed.

Lemma binary_round_aux_finite :
  (F2R (Zpos m) e < bpow 1023)%R -> is_finite r = true.
Proof.
  intros Hlt. unfold r. rewrite binary_round_aux_rne by exact Hn. fold n.
  apply pack_finite.
  pose proof (digits2_pos_bounds m) as Hd.
  set (d := Zpos (digits2_pos m)) in *.
  assert (d + e <= 1023).
  { destruct (Z.le_gt_cases (d + e) 1023) as [L|L]; [exact L|exfalso].
    assert (bpow 1023 <= F2R (Zpos m) e)%R; [|lra].
    apply Rle_trans with (F2R (2 ^ (d - 1)) e); [|apply F2R_le; lia].
    unfold F2R. rewrite <- bpow_IZR, <- bpow_add by lia.
    apply bpow_le. lia. }
  unfold n. rewrite fexp64_eq. lia.
Qed.
End RoundAux.

Lemma iter_xO_value (k m : positive) : Zpos (Pos.iter xO m k) = Zpos m * 2 ^ Zpos k.
Proof.
  induction k as [|k IH] using Pos.peano_ind.
  - simpl. lia.
  - rewrite Pos.iter_succ, Pos2Z.inj_succ, Z.pow_succ_r by lia.
    rewrite Pos2Z.inj_xO, IH. ring.
Qed.

Lemma iter_xO_digits (k m : positive) :
  digits2_pos (Pos.iter xO m k) = (digits2_pos m + k)%positive.
Proof.
  induction k as [|k IH] using Pos.peano_ind.
  - simpl. lia.
  - rewrite Pos.iter_succ. cbn [digits2_pos]. rewrite IH. lia.
Qed.

Lemma shl_align_low (m : positive) (e e' : Z) :
  e' <= e ->
  exists m', shl_align m e e' = (m', e') /\
             Zpos m' = Zpos m * 2 ^ (e - e') /\
             Zpos (digits2_pos m') = Zpos (digits2_pos m) + (e - e').
Proof.
  intros H. unfold shl_align.
  destruct (e' - e) as [|p|p] eqn:E; [| lia |].
  - exists m. replace e' with e by lia. rewrite Z.sub_diag. simpl. split; [reflexivity|lia].
  - exists (Pos.iter xO m p). replace (e - e') with (Zpos p) by lia.
    rewrite iter_xO_value, iter_xO_digits. split; [reflexivity|]. split; lia.
Qed.

Lemma shl_align_high (m : positive) (e e' : Z) :
  e <= e' -> shl_align m e e' = (m, e).
Proof.
  intros H. unfold shl_align. destruct (e' - e) eqn:E; try reflexivity. lia.
Qed.

Section Round.
Variables (s : bool) (m : positive) (e : Z).
Let r := binary_round prec emax s m e.

Lemma binary_round_aligned :
  exists m' e', r = binary_round_aux prec emax s (Zpos m') e' loc_Exact /\
                0 <= fexp64 (Zpos (digits2_pos m') + e') - e' /\
                F2R (Zpos m') e' = F2R (Zpos m) e.
Proof.
  unfold r, binary_round.
  set (t := fexp64 (Zpos (digits2_pos m) + e)).
  destruct (Z.le_gt_cases e t) as [L|L].
  - rewrite shl_align_high by exact L. exists m, e. fold t.
    split; [reflexivity|]. split; [lia|reflexivity].
  - destruct (shl_align_low m e t ltac:(lia)) as (m' & -> & Hm' & Hd').
    exists m', t. split; [reflexivity|]. split.
    + rewrite Hd'. replace (Zpos (digits2_pos m) + (e - t) + t)
        with (Zpos (digits2_pos m) + e) by ring. fold t. lia.
    + rewrite Hm', F2R_shift by lia. f_equal. ring.
Qed.

Lemma binary_round_nearest :
  is_finite r = true -> nearest (F2R (cond_Zopp s (Zpos m)) e) r.
Proof.
  destruct binary_round_aligned as (m' & e' & -> & Hn & Hv). intros Hfin.
  replace (F2R (cond_Zopp s (Zpos m)) e) with (F2R (cond_Zopp s (Zpos m')) e').
  - apply binary_round_aux_nearest; assumption.
  - destruct s; cbn [cond_Zopp]; rewrite ?F2R_opp; rewrite Hv; reflexivity.
Qed.

Lemma binary_round_finite :
  (F2R (Zpos m) e < bpow 1023)%R -> is_finite r = true.
Proof.
  destruct binary_round_aligned as (m' & e' & -> & Hn & Hv). intros Hlt.
  apply binary_round_aux_finite; [exact Hn|]. rewrite Hv. exact Hlt.
Qed.
End Round.

(** The two lemmas for a signed integer mantissa. *)
Lemma binary_normalize_nearest (S e : Z) :
  let r := binary_normalize prec emax S e false in
  is_finite r = true -> nearest (F2R S e) r.
Proof.
  destruct S as [|p|p]; cbn [binary_normalize]; intros Hfin.
  - rewrite F2R_0. apply (nearest_exact (S754_zero false)).
  - apply (binary_round_nearest false p e Hfin).
  - apply (binary_round_nearest true p e Hfin).
Qed.

Lemma binary_normalize_finite (S e : Z) :
  (Rabs (F2R S e) < bpow 1023)%R ->
  is_finite (binary_normalize prec emax S e false) = true.
Proof.
  destruct S as [|p|p]; cbn [binary_normalize]; intros Hlt.
  - reflexivity.
  - apply binary_round_finite. rewrite Rabs_pos_eq in Hlt; [exact Hlt|].
    rewrite <- (F2R_0 e). apply F2R_le. lia.
  - apply binary_round_finite. change (Z.neg p) with (- Zpos p) in Hlt.
    rewrite F2R_opp, Rabs_Ropp, Rabs_pos_eq in Hlt; [exact Hlt|].
    rewrite <- (F2R_0 e). apply F2R_le. lia.
Qed.

(** ** The operations on valid finite floats *)

Lemma fin_canonical (s : bool) (m : positive) (e : Z) :
  fin (S754_finite s m e) -> canonical_mantissa prec emax m e = true /\ e <= 971.
Proof.
  intros (Hv & _). cbn [valid_binary] in Hv. unfold bounded in Hv.
  apply andb_true_iff in Hv. destruct Hv as (Hc & He).
  apply Z.leb_le in He. split; [exact Hc|exact He].
Qed.

Lemma F2R_cond_Zopp (s : bool) (m e : Z) :
  F2R (cond_Zopp s m) e = (if s then - F2R m e else F2R m e)%R.
Proof. destruct s; cbn [cond_Zopp]; [apply F2R_opp|reflexivity]. Qed.

Lemma Rabs_F2R_cond_Zopp (s : bool) (m : positive) (e : Z) :
  Rabs (F2R (cond_Zopp s (Zpos m)) e) = F2R (Zpos m) e.
Proof.
  assert (0 <= F2R (Zpos m) e)%R by (rewrite <- (F2R_0 e); apply F2R_le; lia).
  rewrite F2R_cond_Zopp. destruct s; rewrite ?Rabs_Ropp; apply Rabs_pos_eq; assumption.
Qed.

Lemma mul_value (sx sy : bool) (mx my : positive) (ex ey : Z) :
  F2R (cond_Zopp (xorb sx sy) (Zpos (mx * my))) (ex + ey) =
  (F2R (cond_Zopp sx (Zpos mx)) ex * F2R (cond_Zopp sy (Zpos my)) ey)%R.
Proof.
  rewrite !F2R_cond_Zopp. unfold F2R.
  rewrite Pos2Z.inj_mul, mult_IZR, bpow_add.
  destruct sx, sy; cbn [xorb]; ring.
Qed.

Lemma mul_shift_nonneg (mx my : positive) (ex ey : Z) :
  canonical_mantissa prec emax mx ex = true ->
  canonical_mantissa prec emax my ey = true ->
  0 <= fexp64 (Zpos (digits2_pos (mx * my)) + (ex + ey)) - (ex + ey).
Proof.
  intros Hx Hy.
  destruct (canonical_inv _ _ Hx) as (Hdx & Hex & Hnx).
  destruct (canonical_inv _ _ Hy) as (Hdy & Hey & Hny).
  pose proof (digits2_pos_bounds mx) as Bx.
  pose proof (digits2_pos_bounds my) as By.
  pose proof (digits2_pos_bounds (mx * my)) as Bz.
  set (dx := Zpos (digits2_pos mx)) in *.
  set (dy := Zpos (digits2_pos my)) in *.
  set (d := Zpos (digits2_pos (mx * my))) in *.
  assert (Hd : dx + dy - 2 < d).
  { apply (Z.pow_lt_mono_r_iff 2); [lia|lia|].
    replace (dx + dy - 2) with ((dx - 1) + (dy - 1)) by ring.
    rewrite Z.pow_add_r by lia. rewrite Pos2Z.inj_mul in Bz. nia. }
  rewrite fexp64_eq. lia.
Qed.

Theorem SFmul_nearest (x y : spec_float) :
  fin x -> fin y -> is_finite (SF64mul x y) = true ->
  nearest (SF2R x * SF2R y) (SF64mul x y).
Proof.
  intros Fx Fy.
  destruct x as [sx|sx| |sx mx ex], y as [sy|sy| |sy my ey];
    try (destruct Fx as (_ & Fx); discriminate Fx);
    try (destruct Fy as (_ & Fy); discriminate Fy);
    unfold SF64mul; cbn [SFmul SF2R]; intros Hfin;
    rewrite ?Rmult_0_l, ?Rmult_0_r;
    try apply (nearest_exact (S754_zero _)).
  rewrite <- mul_value.
  apply binary_round_aux_nearest; [|exact Hfin].
  apply mul_shift_nonneg; [apply (fin_canonical sx), Fx|apply (fin_canonical sy), Fy].
Qed.

Theorem SFmul_finite (x y : spec_float) :
  fin x -> fin y -> (Rabs (SF2R x * SF2R y) < bpow 1023)%R ->
  is_finite (SF64mul x y) = true.
Proof.
  intros Fx Fy.
  destruct x as [sx|sx| |sx mx ex], y as [sy|sy| |sy my ey];
    try (destruct Fx as (_ & Fx); discriminate Fx);
    try (destruct Fy as (_ & Fy); discriminate Fy);
    unfold SF64mul; cbn [SFmul SF2R]; intros Hlt; try reflexivity.
  apply binary_round_aux_finite.
  - apply mul_shift_nonneg; [apply (fin_canonical sx), Fx|apply (fin_canonical sy), Fy].
  - rewrite <- mul_value, Rabs_F2R_cond_Zopp in Hlt. exact Hlt.
Qed.

Lemma add_value (sx sy : bool) (mx my : positive) (ex ey : Z) :
  let ez := Z.min ex ey in
  F2R (cond_Zopp sx (Zpos (fst (shl_align mx ex ez))) +
       cond_Zopp sy (Zpos (fst (shl_align my ey ez)))) ez =
  (F2R (cond_Zopp sx (Zpos mx)) ex + F2R (cond_Zopp sy (Zpos my)) ey)%R.
Proof.
  intros ez.
  destruct (shl_align_low mx ex ez ltac:(lia)) as (mx' & -> & Hx & _).
  destruct (shl_align_low my ey ez ltac:(lia)) as (my' & -> & Hy & _).
  cbn [fst].
  assert (Ex : F2R (Zpos mx') ez = F2R (Zpos mx) ex).
  { rewrite Hx, F2R_shift by lia. f_equal. ring. }
  assert (Ey : F2R (Zpos my') ez = F2R (Zpos my) ey).
  { rewrite Hy, F2R_shift by lia. f_equal. ring. }
  rewrite !F2R_cond_Zopp, <- Ex, <- Ey. unfold F2R. rewrite plus_IZR.
  destruct sx, sy; cbn [cond_Zopp]; rewrite ?opp_IZR; ring.
Qed.

Lemma sub_value (sx sy : bool) (mx my : positive) (ex ey : Z) :
  let ez := Z.min ex ey in
  F2R (cond_Zopp sx (Zpos (fst (shl_align mx ex ez))) -
       cond_Zopp sy (Zpos (fst (shl_align my ey ez)))) ez =
  (F2R (cond_Zopp sx (Zpos mx)) ex - F2R (cond_Zopp sy (Zpos my)) ey)%R.
Proof.
  intros ez.
  destruct (shl_align_low mx ex ez ltac:(lia)) as (mx' & -> & Hx & _).
  destruct (shl_align_low my ey ez ltac:(lia)) as (my' & -> & Hy & _).
  cbn [fst].
  assert (Ex : F2R (Zpos mx') ez = F2R (Zpos mx) ex).
  { rewrite Hx, F2R_shift by lia. f_equal. ring. }
  assert (Ey : F2R (Zpos my') ez = F2R (Zpos my) ey).
  { rewrite Hy, F2R_shift by lia. f_equal. ring. }
  rewrite !F2R_cond_Zopp, <- Ex, <- Ey. unfold F2R. rewrite minus_IZR.
  destruct sx, sy; cbn [cond_Zopp]; rewrite ?opp_IZR; ring.
Qed.

Ltac finite_cases x y Fx Fy :=
  destruct x as [?sx|?sx| |?sx ?mx ?ex], y as [?sy|?sy| |?sy ?my ?ey];
  try (destruct Fx as (_ & Fx); discriminate Fx);
  try (destruct Fy as (_ & Fy); discriminate Fy).

Theorem SFadd_nearest (x y : spec_float) :
  fin x -> fin y -> is_finite (SF64add x y) = true ->
  nearest (SF2R x + SF2R y) (SF64add x y).
Proof.
  intros Fx Fy. finite_cases x y Fx Fy; unfold SF64add; cbn [SFadd]; intros Hfin.
  - replace (SF2R (S754_zero sx) + SF2R (S754_zero sy))%R with 0%R by (cbn [SF2R]; ring).
    destruct sx, sy; apply (nearest_exact (S754_zero _)).
  - replace (SF2R (S754_zero sx) + SF2R (S754_finite sy my ey))%R
      with (SF2R (S754_finite sy my ey)) by (cbn [SF2R]; ring).
    apply nearest_exact.
  - replace (SF2R (S754_finite sx mx ex) + SF2R (S754_zero sy))%R
      with (SF2R (S754_finite sx mx ex)) by (cbn [SF2R]; ring).
    apply nearest_exact.
  - cbn [SF2R]. rewrite <- add_value. apply binary_normalize_nearest. exact Hfin.
Qed.

Theorem SFadd_finite (x y : spec_float) :
  fin x -> fin y -> (Rabs (SF2R x + SF2R y) < bpow 1023)%R ->
  is_finite (SF64add x y) = true.
Proof.
  intros Fx Fy. finite_cases x y Fx Fy; unfold SF64add; cbn [SFadd]; intros Hlt;
    try reflexivity.
  - destruct sx, sy; reflexivity.
  - cbn [SF2R] in Hlt. rewrite <- add_value in Hlt.
    apply binary_normalize_finite. exact Hlt.
Qed.

Theorem SFsub_nearest (x y : spec_float) :
  fin x -> fin y -> is_finite (SF64sub x y) = true ->
  nearest (SF2R x - SF2R y) (SF64sub x y).
Proof.
  intros Fx Fy. finite_cases x y Fx Fy; unfold SF64sub; cbn [SFsub]; intros Hfin.
  - replace (SF2R (S754_zero sx) - SF2R (S754_zero sy))%R with 0%R by (cbn [SF2R]; ring).
    destruct sx, sy; apply (nearest_exact (S754_zero _)).
  - replace (SF2R (S754_zero sx) - SF2R (S754_finite sy my ey))%R
      with (SF2R (S754_finite (negb sy) my ey)).
    + apply nearest_exact.
    + change (S754_finite (negb sy) my ey) with (SFopp (S754_finite sy my ey)).
      rewrite SF2R_opp. cbn [SF2R]. ring.
  - replace (SF2R (S754_finite sx mx ex) - SF2R (S754_zero sy))%R
      with (SF2R (S754_finite sx mx ex)) by (cbn [SF2R]; ring).
    apply nearest_exact.
  - cbn [SF2R]. rewrite <- sub_value. apply binary_normalize_nearest. exact Hfin.
Qed.

Theorem SFsub_finite (x y : spec_float) :
  fin x -> fin y -> (Rabs (SF2R x - SF2R y) < bpow 1023)%R ->
  is_finite (SF64sub x y) = true.
Proof.
  intros Fx Fy. finite_cases x y Fx Fy; unfold SF64sub; cbn [SFsub]; intros Hlt;
    try reflexivity.
  - destruct sx, sy; reflexivity.
  - cbn [SF2R] in Hlt. rewrite <- sub_value in Hlt.
    apply binary_normalize_finite. exact Hlt.
Qed.

(** ** Rounding yields valid floats, and is exact on representable values *)

Lemma digits_53 (p : positive) :
  2 ^ 52 <= Zpos p < 2 ^ 53 -> Zpos (digits2_pos p) = 53.
Proof.
  intros H. pose proof (digits2_pos_bounds p) as B.
  set (d := Zpos (digits2_pos p)) in *.
  destruct (Z.lt_trichotomy d 53) as [L|[E|G]]; [|exact E|].
  - assert (2 ^ d <= 2 ^ 52) by (apply Z.pow_le_mono_r; lia). lia.
  - assert (2 ^ 53 <= 2 ^ (d - 1)) by (apply Z.pow_le_mono_r; lia). lia.
Qed.

Lemma digits_le_53 (p : positive) :
  Zpos p < 2 ^ 53 -> Zpos (digits2_pos p) <= 53.
Proof.
  intros H. pose proof (digits2_pos_bounds p) as B.
  set (d := Zpos (digits2_pos p)) in *.
  destruct (Z.le_gt_cases d 53) as [L|G]; [exact L|].
  assert (2 ^ 53 <= 2 ^ (d - 1)) by (apply Z.pow_le_mono_r; lia). lia.
Qed.

Lemma pack_valid (s : bool) (c e : Z) :
  -1074 <= e -> 0 <= c <= 2 ^ 53 -> (-1074 < e -> 2 ^ 52 <= c) ->
  valid_binary (pack s c e) = true.
Proof.
  intros He Hc Hn. unfold pack. destruct c as [|p|p]; [reflexivity| |lia].
  destruct (Pos.eqb_spec p (2 ^ 53)) as [->|Hp].
  - destruct (Z.leb_spec (e + 1) 971); [|reflexivity].
    cbn [valid_binary]. unfold bounded, canonical_mantissa.
    apply andb_true_iff. split; [apply Z.eqb_eq|apply Z.leb_le; change (e + 1 <= 971); lia].
    change (Zpos (digits2_pos (2 ^ 52))) with 53. rewrite fexp64_eq. lia.
  - destruct (Z.leb_spec e 971); [|reflexivity].
    assert (Zpos p < 2 ^ 53).
    { assert (Zpos p <> 2 ^ 53) by (intros E'; apply Hp; apply Pos2Z.inj; exact E').
      lia. }
    cbn [valid_binary]. unfold bounded, canonical_mantissa.
    apply andb_true_iff. split; [apply Z.eqb_eq|apply Z.leb_le; change (e <= 971); lia].
    rewrite fexp64_eq. pose proof (digits_le_53 p ltac:(lia)).
    destruct (Z.eq_dec e (-1074)) as [->|Hne]; [lia|].
    rewrite (digits_53 p) by lia. lia.
Qed.

Lemma binary_round_aux_valid (s : bool) (m : positive) (e : Z) :
  0 <= fexp64 (Zpos (digits2_pos m) + e) - e ->
  valid_binary (binary_round_aux prec emax s (Zpos m) e loc_Exact) = true.
Proof.
  intros Hn. rewrite binary_round_aux_rne by exact Hn.
  set (n := fexp64 (Zpos (digits2_pos m) + e) - e) in *.
  pose proof (digits2_pos_bounds m) as Hd.
  set (d := Zpos (digits2_pos m)) in *.
  destruct (rne_spec (Zpos m) n ltac:(lia) Hn) as (Hc & _ & _).
  assert (HP : 0 < 2 ^ n) by (apply Z.pow_pos_nonneg; lia).
  assert (Hq0 : 0 <= Zpos m / 2 ^ n) by (apply Z.div_pos; lia).
  assert (Hq : Zpos m / 2 ^ n < 2 ^ 53).
  { apply Z.div_lt_upper_bound; [exact HP|].
    rewrite <- Z.pow_add_r by lia.
    apply Z.lt_le_trans with (2 ^ d); [lia|].
    apply Z.pow_le_mono_r; [lia|]. unfold n. rewrite fexp64_eq. lia. }
  apply pack_valid.
  - unfold n. rewrite fexp64_eq. lia.
  - lia.
  - intros Hnorm.
    assert (Hn' : n = d - 53) by (unfold n in *; rewrite fexp64_eq in *; lia).
    assert (2 ^ 52 <= Zpos m / 2 ^ n); [|lia].
    apply Z.div_le_lower_bound; [exact HP|].
    rewrite Z.mul_comm, <- Z.pow_add_r by lia.
    replace (52 + n) with (d - 1) by lia. lia.
Qed.

Lemma binary_round_valid (s : bool) (m : positive) (e : Z) :
  valid_binary (binary_round prec emax s m e) = true.
Proof.
  destruct (binary_round_aligned s m e) as (m' & e' & -> & Hn & _).
  apply binary_round_aux_valid. exact Hn.
Qed.

Lemma binary_normalize_valid (S e : Z) :
  valid_binary (binary_normalize prec emax S e false) = true.
Proof.
  destruct S; cbn [binary_normalize]; [reflexivity| |]; apply binary_round_valid.
Qed.

Lemma binary_round_exact (s : bool) (m : positive) (e : Z) :
  -1074 <= e -> Zpos m <= 2 ^ 53 ->
  is_finite (binary_round prec emax s m e) = true ->
  SF2R (binary_round prec emax s m e) = F2R (cond_Zopp s (Zpos m)) e.
Proof.
  intros He Hm.
  unfold binary_round.
  set (t := fexp64 (Zpos (digits2_pos m) + e)).
  pose proof (digits2_pos_bounds m) as Hd.
  assert (Ht : t = Z.max (Zpos (digits2_pos m) + e - 53) (-1074)) by reflexivity.
  destruct (Z.le_gt_cases e t) as [L|L].
  - (* only [m = 2^53] gets here with a shift *)
    rewrite shl_align_high by exact L. intros Hfin.
    rewrite binary_round_aux_value by (fold t; lia || exact Hfin).
    fold t.
    assert (Hdm : Zpos (digits2_pos m) <= 54).
    { destruct (Z.le_gt_cases (Zpos (digits2_pos m)) 54) as [A|A]; [exact A|].
      assert (2 ^ 54 <= 2 ^ (Zpos (digits2_pos m) - 1)) by (apply Z.pow_le_mono_r; lia).
      lia. }
    assert (Hcase : t - e = 0 \/ (t - e = 1 /\ Zpos m = 2 ^ 53)).
    { destruct (Z.eq_dec (Zpos (digits2_pos m)) 54) as [E|E].
      - right. rewrite E in Hd. change (54 - 1) with 53 in Hd. lia.
      - left. lia. }
    destruct Hcase as [E|(E & Em)]; rewrite E.
    + destruct (rne_spec (Zpos m) 0 ltac:(lia) ltac:(lia)) as (_ & _ & Hex).
      rewrite Hex by (simpl; apply Z.mod_1_r).
      simpl (2 ^ 0). rewrite Z.div_1_r, Z.add_0_r. reflexivity.
    + destruct (rne_spec (Zpos m) 1 ltac:(lia) ltac:(lia)) as (_ & _ & Hex).
      rewrite Hex by (rewrite Em; reflexivity).
      rewrite Em. change (2 ^ 53 / 2 ^ 1) with (2 ^ 52).
      rewrite !F2R_cond_Zopp, <- F2R_shift by lia. reflexivity.
  - destruct (shl_align_low m e t ltac:(lia)) as (m' & -> & Hm' & Hd').
    intros Hfin.
    assert (Hn : fexp64 (Zpos (digits2_pos m') + t) - t = 0).
    { rewrite Hd'. replace (Zpos (digits2_pos m) + (e - t) + t)
        with (Zpos (digits2_pos m) + e) by ring. fold t. lia. }
    rewrite binary_round_aux_value by (rewrite ?Hn; lia || exact Hfin).
    rewrite Hn.
    destruct (rne_spec (Zpos m') 0 ltac:(lia) ltac:(lia)) as (_ & _ & Hex).
    rewrite Hex by (simpl; apply Z.mod_1_r).
    simpl (2 ^ 0). rewrite Z.div_1_r, Z.add_0_r.
    rewrite !F2R_cond_Zopp, Hm', F2R_shift by lia.
    replace (t + (e - t)) with e by ring. reflexivity.
Qed.

Lemma binary_normalize_exact (S e : Z) :
  -1074 <= e -> Z.abs S <= 2 ^ 53 ->
  is_finite (binary_normalize prec emax S e false) = true ->
  SF2R (binary_normalize prec emax S e false) = F2R S e.
Proof.
  intros He HS. destruct S as [|p|p]; cbn [binary_normalize].
  - intros _. rewrite F2R_0. reflexivity.
  - apply (binary_round_exact false p e He). lia.
  - apply (binary_round_exact true p e He). lia.
Qed.

(** ** Comparison of valid floats is comparison of their values *)

Lemma canonical_exp_lt (m1 m2 : positive) (e1 e2 : Z) :
  canonical_mantissa prec emax m1 e1 = true ->
  canonical_mantissa prec emax m2 e2 = true ->
  e1 < e2 -> (F2R (Zpos m1) e1 < F2R (Zpos m2) e2)%R.
Proof.
  intros H1 H2 Hlt.
  destruct (canonical_inv _ _ H1) as (Hd1 & He1 & _).
  destruct (canonical_inv _ _ H2) as (Hd2 & He2 & Hn2).
  pose proof (digits2_pos_bounds m1) as B1.
  pose proof (digits2_pos_bounds m2) as B2.
  rewrite Hn2 in B2 by lia. change (53 - 1) with 52 in B2.
  apply Rlt_le_trans with (F2R (2 ^ 52) e2); [|apply F2R_le; lia].
  replace e2 with (e1 + (e2 - e1)) by ring.
  rewrite <- F2R_shift by lia. apply F2R_lt.
  assert (Zpos m1 < 2 ^ 53).
  { apply Z.lt_le_trans with (2 ^ Zpos (digits2_pos m1)); [lia|].
    apply Z.pow_le_mono_r; lia. }
  assert (2 ^ 1 <= 2 ^ (e2 - e1)) by (apply Z.pow_le_mono_r; lia).
  change (2 ^ 53) with (2 ^ 52 * 2 ^ 1) in *. nia.
Qed.

Lemma cmp_pos (m1 m2 : positive) (e1 e2 : Z) :
  canonical_mantissa prec emax m1 e1 = true ->
  canonical_mantissa prec emax m2 e2 = true ->
  cmp_holds (Some match e1 ?= e2 with
                  | Lt => Lt
                  | Gt => Gt
                  | Eq => Pos.compare_cont Eq m1 m2
                  end)
            (F2R (Zpos m1) e1) (F2R (Zpos m2) e2).
Proof.
  intros H1 H2. destruct (Z.compare_spec e1 e2) as [E|L|G]; cbn [cmp_holds].
  - subst e2. change (Pos.compare_cont Eq m1 m2) with (m1 ?= m2)%positive.
    destruct (Pos.compare_spec m1 m2) as [E|L|G]; cbn [cmp_holds].
    + subst; reflexivity.
    + apply F2R_lt. lia.
    + apply F2R_lt. lia.
  - apply canonical_exp_lt; assumption.
  - apply canonical_exp_lt; assumption.
Qed.

Lemma F2R_pos (m : positive) (e : Z) : (0 < F2R (Zpos m) e)%R.
Proof. rewrite <- (F2R_0 e). apply F2R_lt. lia. Qed.

Theorem SFcompare_holds (x y : spec_float) :
  fin x -> fin y -> cmp_holds (SFcompare x y) (SF2R x) (SF2R y).
Proof.
  intros Fx Fy. finite_cases x y Fx Fy; cbn [SFcompare SF2R].
  - reflexivity.
  - pose proof (F2R_pos my ey). rewrite F2R_cond_Zopp.
    destruct sy; cbn [cmp_holds]; lra.
  - pose proof (F2R_pos mx ex). rewrite F2R_cond_Zopp.
    destruct sx; cbn [cmp_holds]; lra.
  - destruct (fin_canonical _ _ _ Fx) as (Cx & _).
    destruct (fin_canonical _ _ _ Fy) as (Cy & _).
    pose proof (F2R_pos mx ex). pose proof (F2R_pos my ey).
    pose proof (cmp_pos mx my ex ey Cx Cy) as P.
    rewrite !F2R_cond_Zopp.
    destruct sx, sy; cbn [cmp_holds]; try lra.
    + destruct (ex ?= ey); [destruct (Pos.compare_cont Eq mx my)| |];
        cbn [cmp_holds CompOpp] in *; lra.
    + exact P.
Qed.

Lemma SFleb_le (x y : spec_float) :
  fin x -> fin y -> (SFleb x y = true <-> (SF2R x <= SF2R y)%R).
Proof.
  intros Fx Fy. pose proof (SFcompare_holds x y Fx Fy) as H.
  unfold SFleb. destruct (SFcompare x y) as [[| |]|]; cbn [cmp_holds] in H;
    split; intros; try reflexivity; try discriminate; try lra; contradiction.
Qed.

Lemma SFltb_lt (x y : spec_float) :
  fin x -> fin y -> (SFltb x y = true <-> (SF2R x < SF2R y)%R).
Proof.
  intros Fx Fy. pose proof (SFcompare_holds x y Fx Fy) as H.
  unfold SFltb. destruct (SFcompare x y) as [[| |]|]; cbn [cmp_holds] in H;
    split; intros; try reflexivity; try discriminate; try lra; contradiction.
Qed.

(** Two valid floats of the same nonzero value are the same float. *)
Lemma SF2R_inj (x y : spec_float) :
  fin x -> fin y -> SF2R x = SF2R y -> SF2R x <> 0%R -> x = y.
Proof.
  intros Fx Fy E Hnz. pose proof (SFcompare_holds x y Fx Fy) as H.
  finite_cases x y Fx Fy; cbn [SF2R] in *; try (exfalso; lra).
  cbn [SFcompare] in H.
  pose proof (F2R_pos mx ex). pose proof (F2R_pos my ey).
  rewrite !F2R_cond_Zopp in *.
  assert (Hs : sx = sy) by (destruct sx, sy; try reflexivity; exfalso; lra).
  subst sy.
  assert (Hc : match ex ?= ey with
               | Eq => Pos.compare_cont Eq mx my
               | Lt => Lt
               | Gt => Gt
               end = Eq).
  { destruct sx;
      destruct (ex ?= ey); try destruct (Pos.compare_cont Eq mx my);
      cbn [cmp_holds CompOpp] in H; try reflexivity; exfalso; lra. }
  destruct (Z.compare_spec ex ey) as [Ee|?|?]; try discriminate Hc.
  change (Pos.compare_cont Eq mx my) with (mx ?= my)%positive in Hc.
  apply Pos.compare_eq in Hc. subst; reflexivity.
Qed.

(** ** The primitive operations *)

Lemma finite_fin (x : float) : finite x -> fin (Prim2SF x).
Proof. intros H. split; [apply Prim2SF_valid|exact H]. Qed.

Lemma nearest_rounds (v : R) (x : float) :
  finite x -> nearest v (Prim2SF x) -> rounds v x.
Proof.
  intros Hx Hn. split; [exact Hx|]. intros y Hy.
  apply Hn; [apply Prim2SF_valid|exact Hy].
Qed.

Theorem add_rounds (x y : float) :
  finite x -> finite y -> (Rabs (B2R x + B2R y) < bpow 1023)%R ->
  rounds (B2R x + B2R y) (x + y).
Proof.
  intros Hx Hy Hb.
  assert (Hf : finite (x + y)).
  { unfold finite. rewrite add_spec. apply SFadd_finite; auto using finite_fin. }
  apply nearest_rounds; [exact Hf|].
  unfold finite in Hf. rewrite add_spec in *.
  apply SFadd_nearest; auto using finite_fin.
Qed.

Theorem sub_rounds (x y : float) :
  finite x -> finite y -> (Rabs (B2R x - B2R y) < bpow 1023)%R ->
  rounds (B2R x - B2R y) (x - y).
Proof.
  intros Hx Hy Hb.
  assert (Hf : finite (x - y)).
  { unfold finite. rewrite sub_spec. apply SFsub_finite; auto using finite_fin. }
  apply nearest_rounds; [exact Hf|].
  unfold finite in Hf. rewrite sub_spec in *.
  apply SFsub_nearest; auto using finite_fin.
Qed.

Theorem mul_rounds (x y : float) :
  finite x -> finite y -> (Rabs (B2R x * B2R y) < bpow 1023)%R ->
  rounds (B2R x * B2R y) (x * y).
Proof.
  intros Hx Hy Hb.
  assert (Hf : finite (x * y)).
  { unfold finite. rewrite mul_spec. apply SFmul_finite; auto using finite_fin. }
  apply nearest_rounds; [exact Hf|].
  unfold finite in Hf. rewrite mul_spec in *.
  apply SFmul_nearest; auto using finite_fin.
Qed.

Theorem leb_le (x y : float) :
  finite x -> finite y -> ((x <=? y)%float = true <-> (B2R x <= B2R y)%R).
Proof. intros Hx Hy. rewrite leb_spec. apply SFleb_le; auto using finite_fin. Qed.

Theorem ltb_lt (x y : float) :
  finite x -> finite y -> ((x <? y)%float = true <-> (B2R x < B2R y)%R).
Proof. intros Hx Hy. rewrite ltb_spec. apply SFltb_lt; auto using finite_fin. Qed.

Theorem B2R_inj (x y : float) :
  finite x -> finite y -> B2R x = B2R y -> B2R x <> 0%R -> x = y.
Proof.
  intros Hx Hy E Hnz. apply Prim2SF_inj.
  apply SF2R_inj; auto using finite_fin.
Qed.

(** Every integer multiple of a power of two within the format is a float. *)
Theorem representable (M e : Z) :
  Z.abs M <= 2 ^ 53 -> -1074 <= e -> (Rabs (F2R M e) < bpow 1023)%R ->
  exists y, finite y /\ B2R y = F2R M e.
Proof.
  intros HM He Hb.
  set (r := binary_normalize prec emax M e false).
  assert (Hfin : is_finite r = true) by (apply binary_normalize_finite; exact Hb).
  exists (SF2Prim r). unfold finite, B2R.
  rewrite Prim2SF_SF2Prim by apply binary_normalize_valid.
  split; [exact Hfin|]. apply binary_normalize_exact; assumption.
Qed.

(** ** What follows from being nearest *)

Lemma rounds_exact (v : R) (x y : float) :
  rounds v x -> finite y -> B2R y = v -> B2R x = v.
Proof.
  intros (_ & Hn) Hy E. specialize (Hn y Hy). rewrite E in Hn.
  replace (v - v)%R with 0%R in Hn by ring. rewrite Rabs_R0 in Hn.
  pose proof (Rabs_pos (B2R x - v)).
  assert (Rabs (B2R x - v) = 0%R) as Hz by lra.
  revert Hz. unfold Rabs. destruct Rcase_abs; lra.
Qed.

Lemma rounds_ge (v : R) (x y : float) :
  rounds v x -> finite y -> (B2R y <= v)%R -> (B2R y <= B2R x)%R.
Proof.
  intros (_ & Hn) Hy L. specialize (Hn y Hy). revert Hn.
  unfold Rabs. repeat destruct Rcase_abs; lra.
Qed.

Lemma rounds_le (v : R) (x y : float) :
  rounds v x -> finite y -> (v <= B2R y)%R -> (B2R x <= B2R y)%R.
Proof.
  intros (_ & Hn) Hy L. specialize (Hn y Hy). revert Hn.
  unfold Rabs. repeat destruct Rcase_abs; lra.
Qed.

Lemma rounds_lt_mono (v1 v2 : R) (x1 x2 : float) :
  rounds v1 x1 -> rounds v2 x2 -> (v1 < v2)%R -> (B2R x1 <= B2R x2)%R.
Proof.
  intros (F1 & N1) (F2 & N2) L.
  specialize (N1 x2 F2). specialize (N2 x1 F1). revert N1 N2.
  unfold Rabs. repeat destruct Rcase_abs; lra.
Qed.

(** ** Integer bounds and monotonicity *)

Lemma bpow_0 : bpow 0 = 1%R.
Proof. reflexivity. Qed.

Lemma F2R_int (K : Z) : F2R K 0 = IZR K.
Proof. unfold F2R. rewrite bpow_0. ring. Qed.

Lemma bpow_1023_big (K : Z) : Z.abs K <= 2 ^ 53 -> (Rabs (IZR K) < bpow 1023)%R.
Proof.
intros H. rewrite <- abs_IZR.
apply Rle_lt_trans with (IZR (2 ^ 53)); [apply IZR_le; exact H|].
rewrite <- bpow_IZR by lia. apply bpow_lt. lia.
Qed.

(** Integers up to [2^53] are floats. *)
Lemma int_representable (K : Z) :
Z.abs K <= 2 ^ 53 -> exists y, finite y /\ B2R y = IZR K.
Proof.
intros H. rewrite <- F2R_int. apply representable; [exact H|lia|].
rewrite F2R_int. apply bpow_1023_big. exact H.
Qed.

Lemma rounds_le_int (v : R) (x : float) (K : Z) :
rounds v x -> Z.abs K <= 2 ^ 53 -> (v <= IZR K)%R -> (B2R x <= IZR K)%R.
Proof.
intros Hr HK Hv. destruct (int_representable K HK) as (y & Fy & Ey).
rewrite <- Ey in *. eapply rounds_le; eassumption.
Qed.

Lemma rounds_ge_int (v : R) (x : float) (K : Z) :
rounds v x -> Z.abs K <= 2 ^ 53 -> (IZR K <= v)%R -> (IZR K <= B2R x)%R.
Proof.
intros Hr HK Hv. destruct (int_representable K HK) as (y & Fy & Ey).
rewrite <- Ey in *. eapply rounds_ge; eassumption.
Qed.

(** Monotonicity in one operand. *)
Lemma add_mono_l (x x' y : float) :
finite x -> finite x' -> finite y ->
(Rabs (B2R x + B2R y) < bpow 1023)%R -> (Rabs (B2R x' + B2R y) < bpow 1023)%R ->
(B2R x <= B2R x')%R -> (B2R (x + y) <= B2R (x' + y))%R.
Proof.
intros Fx Fx' Fy B B' L.
pose proof (add_rounds x y Fx Fy B) as R1.
pose proof (add_rounds x' y Fx' Fy B') as R2.
destruct (Rle_lt_or_eq_dec _ _ L) as [Lt|E].
- eapply rounds_lt_mono; [exact R1|exact R2|lra].
- destruct (Req_dec (B2R x) 0) as [Z|NZ].
  + rewrite (rounds_exact _ _ y R1 Fy) by lra.
    rewrite (rounds_exact _ _ y R2 Fy) by lra. lra.
  + rewrite (B2R_inj x x' Fx Fx' E NZ). lra.
Qed.

Lemma add_mono_r (x y y' : float) :
finite x -> finite y -> finite y' ->
(Rabs (B2R x + B2R y) < bpow 1023)%R -> (Rabs (B2R x + B2R y') < bpow 1023)%R ->
(B2R y <= B2R y')%R -> (B2R (x + y) <= B2R (x + y'))%R.
Proof.
intros Fx Fy Fy' B B' L.
pose proof (add_rounds x y Fx Fy B) as R1.
pose proof (add_rounds x y' Fx Fy' B') as R2.
destruct (Rle_lt_or_eq_dec _ _ L) as [Lt|E].
- eapply rounds_lt_mono; [exact R1|exact R2|lra].
- destruct (Req_dec (B2R y) 0) as [Z|NZ].
  + rewrite (rounds_exact _ _ x R1 Fx) by lra.
    rewrite (rounds_exact _ _ x R2 Fx) by lra. lra.
  + rewrite (B2R_inj y y' Fy Fy' E NZ). lra.
Qed.

Lemma sub_mono_l (x x' y : float) :
finite x -> finite x' -> finite y ->
(Rabs (B2R x - B2R y) < bpow 1023)%R -> (Rabs (B2R x' - B2R y) < bpow 1023)%R ->
(B2R x < B2R x')%R -> (B2R (x - y) <= B2R (x' - y))%R.
Proof.
intros Fx Fx' Fy B B' L.
pose proof (sub_rounds x y Fx Fy B) as R1.
pose proof (sub_rounds x' y Fx' Fy B') as R2.
eapply rounds_lt_mono; [exact R1|exact R2|lra].
Qed.

Lemma zero_finite : finite 0%float /\ B2R 0%float = 0%R.
Proof. split; reflexivity. Qed.

Lemma mul_mono_l (x x' c : float) :
finite x -> finite x' -> finite c ->
(Rabs (B2R x * B2R c) < bpow 1023)%R -> (Rabs (B2R x' * B2R c) < bpow 1023)%R ->
(0 <= B2R c)%R ->
(B2R x <= B2R x')%R -> (B2R (x * c) <= B2R (x' * c))%R.
Proof.
intros Fx Fx' Fc B B' Hc L.
pose proof (mul_rounds x c Fx Fc B) as R1.
pose proof (mul_rounds x' c Fx' Fc B') as R2.
destruct zero_finite as (F0 & E0).
destruct (Rle_lt_or_eq_dec _ _ L) as [Lt|E].
- destruct (Rle_lt_or_eq_dec _ _ Hc) as [Cp|Cz].
  + eapply rounds_lt_mono; [exact R1|exact R2|nra].
  + rewrite (rounds_exact _ _ 0%float R1 F0) by (rewrite E0, <- Cz; ring).
    rewrite (rounds_exact _ _ 0%float R2 F0) by (rewrite E0, <- Cz; ring).
    rewrite <- Cz. lra.
- destruct (Req_dec (B2R x) 0) as [Z|NZ].
  + rewrite (rounds_exact _ _ 0%float R1 F0) by (rewrite E0, Z; ring).
    rewrite (rounds_exact _ _ 0%float R2 F0) by (rewrite E0, <- E, Z; ring).
    rewrite <- E, Z. lra.
  + rewrite (B2R_inj x x' Fx Fx' E NZ). lra.
Qed.

(** Nonnegative floats below [2^53] have a nonpositive exponent. *)
Lemma small_repr (x : float) :
finite x -> (0 <= B2R x < IZR (2 ^ 53))%R ->
exists M E, B2R x = F2R M E /\ 0 <= M < 2 ^ 53 /\ -1074 <= E <= 0.
Proof.
intros Fx Hx. apply finite_fin in Fx. unfold B2R in *.
destruct (Prim2SF x) as [s|s| |s m e]; try (destruct Fx as (_ & Fx); discriminate Fx).
- exists 0, 0. cbn [SF2R]. rewrite F2R_0. split; [reflexivity|lia].
- destruct (fin_canonical _ _ _ Fx) as (Hc & _).
  destruct (canonical_inv _ _ Hc) as (Hd & He & Hn).
  pose proof (digits2_pos_bounds m) as B.
  pose proof (F2R_pos m e) as P.
  cbn [SF2R] in *. rewrite F2R_cond_Zopp in *.
  destruct s; [lra|].
  exists (Zpos m), e. split; [reflexivity|].
  assert (Zpos m < 2 ^ 53).
  { apply Z.lt_le_trans with (2 ^ Zpos (digits2_pos m)); [lia|].
    apply Z.pow_le_mono_r; lia. }
  split; [lia|]. split; [lia|].
  destruct (Z.le_gt_cases e 0) as [L|G]; [exact L|exfalso].
  rewrite Hn in B by lia. change (53 - 1) with 52 in B.
  assert (IZR (2 ^ 53) <= F2R (Zpos m) e)%R; [|lra].
  rewrite <- F2R_int.
  replace e with (0 + e) by ring. rewrite <- F2R_shift by lia.
  apply F2R_le.
  assert (2 ^ 1 <= 2 ^ e) by (apply Z.pow_le_mono_r; lia).
  change (2 ^ 53) with (2 ^ 52 * 2 ^ 1). nia.
Qed.

(** Rounding moves a value by at most half a unit in the last place. *)
Lemma rounds_error (v : R) (x : float) (k : Z) :
rounds v x -> (Rabs v <= bpow k)%R -> -1021 <= k <= 1022 ->
(Rabs (B2R x - v) <= bpow (k - 54))%R.
Proof.
intros Hr Hv Hk.
set (g := bpow (k - 53)).
assert (Hg : (0 < g)%R) by apply bpow_pos.
assert (Hgk : (bpow k = IZR (2 ^ 53) * g)%R).
{ unfold g. rewrite <- bpow_IZR, <- bpow_add by lia. f_equal. ring. }
assert (Hg2 : (g = 2 * bpow (k - 54))%R).
{ unfold g. replace (k - 53) with (1 + (k - 54)) by ring.
  rewrite bpow_add. unfold bpow at 1. simpl. ring. }
set (u := (v / g)%R).
assert (Hu : (v = u * g)%R) by (unfold u; field; lra).
set (j := (up u - 1)%Z).
destruct (archimed u) as (A1 & A2).
assert (Hj : (IZR j <= u < IZR j + 1)%R).
{ unfold j. rewrite minus_IZR. lra. }
assert (Hub : (- IZR (2 ^ 53) <= u <= IZR (2 ^ 53))%R).
{ rewrite Hgk in Hv. rewrite Hu in Hv at 1.
  assert (- (IZR (2 ^ 53) * g) <= u * g <= IZR (2 ^ 53) * g)%R as Hv'.
  { revert Hv. unfold Rabs. destruct Rcase_abs; lra. }
  split; nra. }
assert (Hjb : - 2 ^ 53 - 1 < j <= 2 ^ 53).
{ split.
  - apply lt_IZR. rewrite minus_IZR, opp_IZR. lra.
  - apply le_IZR. lra. }
assert (Hrep : forall J, Z.abs J <= 2 ^ 53 ->
                         exists y, finite y /\ B2R y = (IZR J * g)%R).
{ intros J HJ. apply (representable J (k - 53)); [exact HJ|lia|].
  unfold F2R. fold g. rewrite Rabs_mult, (Rabs_pos_eq g) by lra.
  rewrite <- abs_IZR.
  apply Rle_lt_trans with (bpow k); [|apply bpow_lt; lia].
  rewrite Hgk. apply IZR_le in HJ. nra. }
destruct Hr as (Fx & Hn).
destruct (Z.eq_dec j (2 ^ 53)) as [Ej|Nj].
- assert (u = IZR (2 ^ 53)) by (rewrite Ej in Hj; lra).
  destruct (Hrep (2 ^ 53) ltac:(lia)) as (y & Fy & Ey).
  specialize (Hn y Fy). rewrite Ey, Hu, H in Hn.
  replace (IZR (2 ^ 53) * g - IZR (2 ^ 53) * g)%R with 0%R in Hn by ring.
  rewrite Rabs_R0 in Hn. rewrite Hu, H.
  pose proof (bpow_pos (k - 54)). lra.
- destruct (Hrep j ltac:(lia)) as (y1 & F1 & E1).
  destruct (Hrep (j + 1) ltac:(lia)) as (y2 & F2 & E2).
  pose proof (Hn y1 F1) as N1. pose proof (Hn y2 F2) as N2.
  rewrite E1 in N1. rewrite E2, plus_IZR in N2.
  assert (L1 : (IZR j * g <= v)%R) by (rewrite Hu; nra).
  assert (L2 : (v < IZR j * g + g)%R) by (rewrite Hu; nra).
  replace ((IZR j + 1) * g)%R with (IZR j * g + g)%R in N2 by ring.
  revert L1 L2 N1 N2. generalize (IZR j * g)%R. rewrite Hg2.
  intros a L1 L2. unfold Rabs.
  repeat destruct Rcase_abs; intros; lra.
Qed.

(** * Properties of the program *)

(** ** Conversions between ints and floats *)

Lemma float_of_int_exact (z : Z) :
  Z.abs z <= 2 ^ 53 ->
  exists c, float_of_int z = Ok c /\ finite c /\ B2R c = IZR z.
Proof.
  intros Hz. unfold float_of_int.
  set (r := binary_normalize prec emax z 0 false).
  assert (Hb : (Rabs (F2R z 0) < bpow 1023)%R).
  { rewrite F2R_int. apply bpow_1023_big. exact Hz. }
  assert (Hfin : is_finite r = true) by (apply binary_normalize_finite; exact Hb).
  assert (Hval : SF2R r = IZR z).
  { rewrite <- F2R_int. apply binary_normalize_exact; [lia|exact Hz|exact Hfin]. }
  assert (Hv : valid_binary r = true) by apply binary_normalize_valid.
  exists (SF2Prim r). unfold finite, B2R. rewrite Prim2SF_SF2Prim by exact Hv.
  split; [|split; assumption].
  destruct r; try reflexivity; discriminate Hfin.
Qed.

(** Below [2^63] the conversion is the primitive one. *)
Lemma float_of_int_primitive (z : Z) :
  0 <= z < 2 ^ 63 -> float_of_int z = Ok (of_uint63 (Uint63.of_Z z)).
Proof.
  intros Hz. unfold float_of_int.
  assert (E : binary_normalize prec emax z 0 false = Prim2SF (of_uint63 (Uint63.of_Z z))).
  { rewrite of_uint63_spec, Uint63.of_Z_spec, Z.mod_small; [reflexivity|].
    exact Hz. }
  assert (Hfin : is_finite (binary_normalize prec emax z 0 false) = true).
  { apply binary_normalize_finite. rewrite F2R_int, Rabs_pos_eq by (apply IZR_le; lia).
    apply Rlt_trans with (bpow 63); [|apply bpow_lt; lia].
    rewrite bpow_IZR by lia. apply IZR_lt. lia. }
  rewrite E in *.
  destruct (Prim2SF (of_uint63 (Uint63.of_Z z))) eqn:Ex; try discriminate Hfin;
    rewrite <- Ex, SF2Prim_Prim2SF; reflexivity.
Qed.

Lemma shiftl_trunc (m : positive) (e : Z) :
  (IZR (Z.shiftl (Zpos m) e) <= F2R (Zpos m) e < IZR (Z.shiftl (Zpos m) e) + 1)%R.
Proof.
  destruct (Z.le_gt_cases 0 e) as [L|G].
  - rewrite Z.shiftl_mul_pow2 by exact L.
    rewrite <- F2R_int, F2R_shift by exact L. simpl (0 + e). lra.
  - rewrite Z.shiftl_div_pow2 by lia.
    assert (HP : 0 < 2 ^ (- e)) by (apply Z.pow_pos_nonneg; lia).
    pose proof (Z.div_mod (Zpos m) (2 ^ (- e)) ltac:(lia)) as HD.
    pose proof (Z.mod_pos_bound (Zpos m) (2 ^ (- e)) HP) as HB.
    set (q := Zpos m / 2 ^ (- e)) in *.
    rewrite <- plus_IZR, <- !F2R_int.
    replace 0 with (e + - e) by ring.
    rewrite <- !F2R_shift by lia.
    split; [apply F2R_le|apply F2R_lt]; lia.
Qed.

Lemma int_of_float_trunc (x : float) :
  finite x -> exists n, int_of_float x = Ok n /\ trunc_of (B2R x) n.
Proof.
  unfold finite, int_of_float, B2R, trunc_of.
  destruct (Prim2SF x) as [s|s| |s m e]; try discriminate; intros _.
  - exists 0. cbn [SF2R]. split; [reflexivity|]. split; intros; lra.
  - exists (cond_Zopp s (Z.shiftl (Zpos m) e)). split; [reflexivity|].
    cbn [SF2R]. rewrite F2R_cond_Zopp.
    pose proof (shiftl_trunc m e) as T. pose proof (F2R_pos m e) as P.
    destruct s; cbn [cond_Zopp]; rewrite ?opp_IZR; split; intros; lra.
Qed.

(** Truncation is determined by the value. *)
Lemma trunc_of_unique (v : R) (n n' : Z) :
  trunc_of v n -> trunc_of v n' -> n = n'.
Proof.
  intros (A & B) (A' & B').
  destruct (Rle_or_lt 0 v) as [L|L].
  - specialize (A L). specialize (A' L).
    assert (n < n' + 1) by (apply lt_IZR; rewrite plus_IZR; lra).
    assert (n' < n + 1) by (apply lt_IZR; rewrite plus_IZR; lra). lia.
  - assert (L' : (v <= 0)%R) by lra. specialize (B L'). specialize (B' L').
    assert (n - 1 < n') by (apply lt_IZR; rewrite minus_IZR; lra).
    assert (n' - 1 < n) by (apply lt_IZR; rewrite minus_IZR; lra). lia.
Qed.

Lemma trunc_of_int (z : Z) : trunc_of (IZR z) z.
Proof. split; intros; lra. Qed.

Lemma float_of_int_1 : float_of_int 1 = Ok 1%float.
Proof. reflexivity. Qed.

Lemma B2R_of_int (z : Z) (x : float) :
  float_of_int z = Ok x -> Z.abs z <= 2 ^ 53 -> finite x /\ B2R x = IZR z.
Proof.
  intros E Hz. destruct (float_of_int_exact z Hz) as (c & Ec & Fc & Vc).
  rewrite E in Ec. injection Ec as <-. split; assumption.
Qed.

Lemma B2R_1 : B2R 1%float = 1%R.
Proof. apply (B2R_of_int 1 1%float float_of_int_1). simpl. lia. Qed.

Lemma float_of_int_100 : float_of_int 100 = Ok 100%float.
Proof. reflexivity. Qed.

Lemma B2R_100 : B2R 100%float = 100%R.
Proof. apply (B2R_of_int 100 100%float float_of_int_100). simpl. lia. Qed.

(** ** The levers over their slider ranges *)

Lemma In_Zseq (n : nat) (lo p : Z) :
  lo <= p < lo + Z.of_nat n -> In p (Zseq lo n).
Proof.
  revert lo. induction n as [|n IH]; intros lo H; [lia|].
  cbn [Zseq]. destruct (Z.eq_dec lo p) as [E|N]; [left; exact E|right].
  apply IH. lia.
Qed.

Lemma lever_table (c : float) (hi : Z) :
  lever_table_ok c hi = true ->
  (forall p, 0 <= p <= hi ->
             exists q, int_truediv p 100 = Ok q /\ lever p c = (q * c)%float /\
                       finite (lever p c) /\ (0 <= B2R (lever p c) <= 1)%R) /\
  (forall p p', 0 <= p -> p < p' -> p' <= hi ->
                (B2R (lever p c) < B2R (lever p' c))%R).
Proof.
  unfold lever_table_ok. intros H. apply andb_true_iff in H. destruct H as (H1 & H2).
  rewrite forallb_forall in H1. rewrite forallb_forall in H2.
  assert (Hpt : forall p, 0 <= p <= hi ->
             exists q, int_truediv p 100 = Ok q /\ lever p c = (q * c)%float /\
                       finite (lever p c) /\ (0 <= B2R (lever p c) <= 1)%R).
  { intros p Hp.
    assert (Hin : In p (Zseq 0 (Z.to_nat (hi + 1)))).
    { apply In_Zseq. rewrite Z2Nat.id by lia. lia. }
    specialize (H1 p Hin). unfold lever_point_ok in H1.
    unfold lever. destruct (int_truediv p 100) as [q|]; [|discriminate H1].
    apply andb_true_iff in H1. destruct H1 as (H1 & Hle).
    apply andb_true_iff in H1. destruct H1 as (Hf & Hge).
    exists q. split; [reflexivity|]. split; [reflexivity|]. split; [exact Hf|].
    destruct zero_finite as (F0 & E0).
    split.
    - rewrite <- E0. apply leb_le; assumption.
    - rewrite <- B2R_1. apply leb_le; [exact Hf|reflexivity|exact Hle]. }
  split; [exact Hpt|].
  assert (Hstep : forall p, 0 <= p < hi -> (B2R (lever p c) < B2R (lever (p + 1) c))%R).
  { intros p Hp.
    destruct (Hpt p ltac:(lia)) as (_ & _ & _ & Fp & _).
    destruct (Hpt (p + 1) ltac:(lia)) as (_ & _ & _ & Fp' & _).
    apply ltb_lt; [exact Fp|exact Fp'|]. apply H2.
    apply In_Zseq. rewrite Z2Nat.id by lia. lia. }
  intros p p' H0 Hlt Hhi.
  replace p' with (p + 1 + Z.of_nat (Z.to_nat (p' - p - 1))) in * by (rewrite Z2Nat.id; lia).
  induction (Z.to_nat (p' - p - 1)) as [|k IH].
  - rewrite Z.add_0_r. apply Hstep. simpl in Hhi. lia.
  - rewrite Nat2Z.inj_succ in *.
    apply Rlt_trans with (B2R (lever (p + 1 + Z.of_nat k) c)).
    + apply IH; lia.
    + replace (p + 1 + Z.succ (Z.of_nat k)) with (p + 1 + Z.of_nat k + 1) by lia.
      apply Hstep. lia.
Qed.

(** On every slider value the quotient by 100 is the primitive division. *)
Lemma int_truediv_primitive (p : Z) :
  0 <= p <= 200 ->
  int_truediv p 100 = Ok (of_uint63 (Uint63.of_Z p) / 100)%float.
Proof.
  intros Hp.
  assert (H : forallb truediv_is_primitive (Zseq 0 201) = true)
    by (vm_compute; reflexivity).
  rewrite forallb_forall in H. specialize (H p (In_Zseq 201 0 p ltac:(lia))).
  unfold truediv_is_primitive in H.
  destruct (int_truediv p 100) as [q|]; [|discriminate H].
  apply FloatAxioms.Leibniz.eqb_spec in H. rewrite H. reflexivity.
Qed.

Lemma freq_table : lever_table_ok 0.5 200 = true.
Proof. vm_compute. reflexivity. Qed.

Lemma wait_table : lever_table_ok 0.8 80 = true.
Proof. vm_compute. reflexivity. Qed.

Lemma coverage_table : lever_table_ok 0.3 100 = true.
Proof. vm_compute. reflexivity. Qed.

Lemma cost_table : lever_table_ok 0.4 50 = true.
Proof. vm_compute. reflexivity. Qed.

Lemma integration_table : lever_table_ok 0.6 100 = true.
Proof. vm_compute. reflexivity. Qed.

Lemma raw_impacts_unfold (g : Inputs) : raw_impacts g = raw_impacts_magnitudes g.
Proof.
  unfold raw_impacts, raw_impacts_magnitudes.
  destruct (int_truediv (freq_improvement g) 100) as [q1|]; [|reflexivity].
  destruct (int_truediv (wait_reduction g) 100) as [q2|]; [|reflexivity].
  destruct (int_truediv (coverage_improvement g) 100) as [q3|]; [|reflexivity].
  destruct (int_truediv (cost_reduction g) 100) as [q4|]; [|reflexivity].
  destruct (int_truediv (integration_improvement g) 100) as [q5|]; reflexivity.
Qed.

Lemma raw_impacts_in_range (g : Inputs) :
  sliders_in_range g ->
  raw_impacts g = Ok (slider_impacts g).
Proof.
  intros (H1 & H2 & H3 & H4 & H5). rewrite raw_impacts_unfold.
  unfold raw_impacts_magnitudes, slider_impacts.
  destruct (proj1 (lever_table _ _ freq_table) _ H1) as (q1 & -> & -> & _).
  destruct (proj1 (lever_table _ _ wait_table) _ H2) as (q2 & -> & -> & _).
  destruct (proj1 (lever_table _ _ coverage_table) _ H3) as (q3 & -> & -> & _).
  destruct (proj1 (lever_table _ _ cost_table) _ H4) as (q4 & -> & -> & _).
  destruct (proj1 (lever_table _ _ integration_table) _ H5) as (q5 & -> & -> & _).
  reflexivity.
Qed.

Lemma rounds_bound (v : R) (x : float) (k : Z) :
  rounds v x -> (Rabs v <= bpow k)%R -> -1074 <= k <= 1022 ->
  (Rabs (B2R x) <= bpow k)%R.
Proof.
  intros Hr Hv Hk.
  assert (Hb : (Rabs (bpow k) < bpow 1023)%R).
  { rewrite Rabs_pos_eq by (left; apply bpow_pos). apply bpow_lt. lia. }
  destruct (representable 1 k) as (hi & Fhi & Ehi); [simpl; lia|lia| |].
  { unfold F2R. rewrite Rmult_1_l. exact Hb. }
  destruct (representable (-1) k) as (lo & Flo & Elo); [simpl; lia|lia| |].
  { unfold F2R. replace (-1 * bpow k)%R with (- bpow k)%R by ring.
    rewrite Rabs_Ropp. exact Hb. }
  unfold F2R in Ehi, Elo.
  assert (Hv' : (- bpow k <= v <= bpow k)%R).
  { revert Hv. unfold Rabs. destruct Rcase_abs; lra. }
  pose proof (rounds_le _ _ hi Hr Fhi ltac:(rewrite Ehi; lra)).
  pose proof (rounds_ge _ _ lo Hr Flo ltac:(rewrite Elo; lra)).
  unfold Rabs. destruct Rcase_abs; lra.
Qed.

(** ** Interval bounds through the operations *)

Lemma Rabs_between (v : R) (lo hi : Z) :
  (IZR lo <= v <= IZR hi)%R -> Z.abs lo <= 2 ^ 1000 -> Z.abs hi <= 2 ^ 1000 ->
  (Rabs v < bpow 1023)%R.
Proof.
  intros Hv Hlo Hhi.
  apply Rle_lt_trans with (bpow 1000); [|apply bpow_lt; lia].
  rewrite bpow_IZR by lia.
  assert (IZR (- 2 ^ 1000) <= IZR lo)%R by (apply IZR_le; lia).
  assert (IZR hi <= IZR (2 ^ 1000))%R by (apply IZR_le; lia).
  rewrite opp_IZR in *. unfold Rabs. destruct Rcase_abs; lra.
Qed.

Lemma within_finite (lo hi : Z) (x : float) : within lo hi x -> finite x.
Proof. intros (H & _). exact H. Qed.

Lemma within_const (x : float) :
  is_finite (Prim2SF x) = true -> (0 <=? x)%float = true -> (x <=? 1)%float = true ->
  within 0 1 x.
Proof.
  intros Hf H0 H1. split; [exact Hf|]. destruct zero_finite as (F0 & E0). split.
  - rewrite <- E0. apply leb_le; assumption.
  - rewrite <- B2R_1. apply leb_le; [exact Hf|reflexivity|exact H1].
Qed.

Lemma add_within (a b c d : Z) (x y : float) :
  within a b x -> within c d y ->
  Z.abs (a + c) <= 2 ^ 53 -> Z.abs (b + d) <= 2 ^ 53 ->
  within (a + c) (b + d) (x + y).
Proof.
  intros (Fx & Hx) (Fy & Hy) Hl Hh.
  assert (Hv : (IZR (a + c) <= B2R x + B2R y <= IZR (b + d))%R)
    by (rewrite !plus_IZR; lra).
  assert (Hr : rounds (B2R x + B2R y) (x + y)).
  { apply add_rounds; [exact Fx|exact Fy|].
    apply (Rabs_between _ _ _ Hv); lia. }
  split; [apply Hr|]. split.
  - apply (rounds_ge_int _ _ _ Hr Hl), Hv.
  - apply (rounds_le_int _ _ _ Hr Hh), Hv.
Qed.

Lemma mul_within (b d : Z) (x y : float) :
  within 0 b x -> within 0 d y -> b * d <= 2 ^ 53 ->
  within 0 (b * d) (x * y).
Proof.
  intros (Fx & Hx) (Fy & Hy) Hh.
  assert (Hb : 0 <= b) by (apply le_IZR; lra).
  assert (Hd : 0 <= d) by (apply le_IZR; lra).
  assert (Hv : (IZR 0 <= B2R x * B2R y <= IZR (b * d))%R)
    by (rewrite mult_IZR; nra).
  assert (Hr : rounds (B2R x * B2R y) (x * y)).
  { apply mul_rounds; [exact Fx|exact Fy|].
    apply (Rabs_between _ _ _ Hv); simpl; nia. }
  split; [apply Hr|]. split.
  - apply (rounds_ge_int _ _ 0 Hr ltac:(simpl; lia)), Hv.
  - apply (rounds_le_int _ _ (b * d) Hr ltac:(nia)), Hv.
Qed.

Lemma within_weaken (lo hi lo' hi' : Z) (x : float) :
  within lo hi x -> lo' <= lo -> hi <= hi' -> within lo' hi' x.
Proof.
  intros (F & H) Hl Hh. split; [exact F|].
  apply IZR_le in Hl. apply IZR_le in Hh. lra.
Qed.

(** ** The sum of the five impacts and the clamp *)

Lemma half_const : within 0 1 0.5%float.
Proof. apply within_const; reflexivity. Qed.

Lemma damping_const : within 0 1 0.7%float.
Proof. apply within_const; reflexivity. Qed.

Lemma hundred_const : within 100 100 100%float.
Proof. split; [reflexivity|]. rewrite B2R_100. lra. Qed.

Lemma one_const : within 1 1 1%float.
Proof. split; [reflexivity|]. rewrite B2R_1. lra. Qed.

Lemma sum_impacts_within (r : Impacts) :
  within 0 1 (raw_freq r) -> within 0 1 (raw_wait r) ->
  within 0 1 (raw_coverage r) -> within 0 1 (raw_cost r) ->
  within 0 1 (raw_integration r) ->
  within 0 5 (sum_impacts r).
Proof.
  intros H1 H2 H3 H4 H5. unfold sum_impacts.
  pose proof (add_within _ _ _ _ _ _ H1 H2 ltac:(simpl; lia) ltac:(simpl; lia)) as S1.
  pose proof (add_within _ _ _ _ _ _ S1 H3 ltac:(simpl; lia) ltac:(simpl; lia)) as S2.
  pose proof (add_within _ _ _ _ _ _ S2 H4 ltac:(simpl; lia) ltac:(simpl; lia)) as S3.
  exact (add_within _ _ _ _ _ _ S3 H5 ltac:(simpl; lia) ltac:(simpl; lia)).
Qed.

Section Clamp.
Variable x : float.
Hypothesis Hx : within 0 5 x.
Hypothesis Hgt : (0.5 <? x)%float = true.

Let u := (x - 0.5)%float.
Let w := (u * 0.7)%float.

Lemma clamp_above_half : (B2R 0.5%float < B2R x)%R.
Proof. apply ltb_lt; [apply half_const|apply Hx|exact Hgt]. Qed.

Lemma clamp_excess : rounds (B2R x - B2R 0.5%float) u /\ within 0 5 u.
Proof.
  destruct Hx as (Fx & Bx). destruct half_const as (Fh & Bh).
  pose proof clamp_above_half as L.
  assert (Hv : (IZR 0 <= B2R x - B2R 0.5%float <= IZR 5)%R) by lra.
  assert (Hr : rounds (B2R x - B2R 0.5%float) u).
  { apply sub_rounds; [exact Fx|exact Fh|]. apply (Rabs_between _ _ _ Hv); simpl; lia. }
  split; [exact Hr|]. split; [apply Hr|]. split.
  - apply (rounds_ge_int _ _ 0 Hr ltac:(simpl; lia)), Hv.
  - apply (rounds_le_int _ _ 5 Hr ltac:(simpl; lia)), Hv.
Qed.

Lemma clamp_damped : within 0 5 w.
Proof.
  destruct clamp_excess as (_ & Hu).
  apply (mul_within 5 1 u 0.7%float Hu damping_const). simpl. lia.
Qed.

Lemma clamp_within_above : within 0 6 (0.5 + w)%float.
Proof.
  exact (add_within 0 1 0 5 _ _ half_const clamp_damped ltac:(simpl; lia) ltac:(simpl; lia)).
Qed.

Lemma clamp_at_least_half : (B2R 0.5%float <= B2R (0.5 + w)%float)%R.
Proof.
  destruct half_const as (Fh & Bh). destruct clamp_damped as (Fw & Bw).
  assert (Hr : rounds (B2R 0.5%float + B2R w) (0.5 + w)%float).
  { apply add_rounds; [exact Fh|exact Fw|].
    apply (Rabs_between _ 0 6); [split; simpl in *; lra|simpl; lia|simpl; lia]. }
  apply (rounds_ge _ _ _ Hr Fh). lra.
Qed.
End Clamp.

Lemma diminishing_returns_within (x : float) :
  within 0 5 x -> within 0 6 (diminishing_returns x).
Proof.
  intros Hx. unfold diminishing_returns, float_gt.
  destruct (0.5 <? x)%float eqn:E.
  - apply clamp_within_above; assumption.
  - apply (within_weaken _ _ _ _ _ Hx); lia.
Qed.

Lemma diminishing_returns_mono (x x' : float) :
  within 0 5 x -> within 0 5 x' -> (B2R x <= B2R x')%R ->
  (B2R (diminishing_returns x) <= B2R (diminishing_returns x'))%R.
Proof.
  intros Hx Hx' L. unfold diminishing_returns, float_gt.
  destruct half_const as (Fh & Bh).
  destruct (0.5 <? x)%float eqn:E; destruct (0.5 <? x')%float eqn:E'.
  - destruct (Rle_lt_or_eq_dec _ _ L) as [Lt|Eq].
    + destruct (clamp_excess x Hx E) as (_ & Hu).
      destruct (clamp_excess x' Hx' E') as (_ & Hu').
      destruct damping_const as (Fd & Bd).
      assert (L1 : (B2R (x - 0.5) <= B2R (x' - 0.5))%R).
      { apply sub_mono_l; try apply Hx; try apply Hx'; try exact Fh; try exact Lt.
        - apply (Rabs_between _ (-1) 5); [|simpl; lia|simpl; lia].
          destruct Hx as (_ & Bx). simpl in *. lra.
        - apply (Rabs_between _ (-1) 5); [|simpl; lia|simpl; lia].
          destruct Hx' as (_ & Bx'). simpl in *. lra. }
      assert (L2 : (B2R ((x - 0.5) * 0.7) <= B2R ((x' - 0.5) * 0.7))%R).
      { apply mul_mono_l; try apply Hu; try apply Hu'; try exact Fd;
          try exact L1; try (simpl in Bd; lra).
        - apply (Rabs_between _ 0 5); [|simpl; lia|simpl; lia].
          destruct Hu as (_ & Bu). simpl in *. split; nra.
        - apply (Rabs_between _ 0 5); [|simpl; lia|simpl; lia].
          destruct Hu' as (_ & Bu'). simpl in *. split; nra. }
      pose proof (clamp_damped x Hx E) as (Fw & Bw).
      pose proof (clamp_damped x' Hx' E') as (Fw' & Bw').
      apply add_mono_r; try assumption.
      * apply (Rabs_between _ 0 6); [simpl in *; lra|simpl; lia|simpl; lia].
      * apply (Rabs_between _ 0 6); [simpl in *; lra|simpl; lia|simpl; lia].
    + assert (x = x') as <-; [|lra].
      apply B2R_inj; [apply Hx|apply Hx'|exact Eq|].
      pose proof (clamp_above_half x Hx E). simpl in Bh. lra.
  - exfalso. pose proof (clamp_above_half x Hx E) as A.
    assert (~ (B2R 0.5%float < B2R x')%R).
    { intros C. apply (ltb_lt _ _ Fh (proj1 Hx')) in C. congruence. }
    lra.
  - apply Rle_trans with (B2R 0.5%float).
    + apply Rnot_lt_le. intros C. apply (ltb_lt _ _ Fh (proj1 Hx)) in C. congruence.
    + apply clamp_at_least_half; assumption.
  - exact L.
Qed.

(** ** Running [calculate_ridership_impact] *)

Lemma calculate_unfold (g : Inputs) :
  calculate_ridership_impact g =
  r <- raw_impacts g ;;
  c <- float_of_int (current_ridership g) ;;
  n <- int_of_float (c * (1 + diminishing_returns (sum_impacts r)))%float ;;
  a <- int_of_float (c * (1 + diminishing_returns (sum_impacts r)) - c)%float ;;
  Ok (results_of r n a).
Proof.
  unfold calculate_ridership_impact.
  destruct (raw_impacts g) as [r|]; [|reflexivity]. cbn [bind].
  unfold int_add_float, int_mul_float, float_sub_int, float_mul_int.
  rewrite float_of_int_1, !float_of_int_100. cbn [bind].
  destruct (float_of_int (current_ridership g)) as [c|]; [|reflexivity]. cbn [bind].
  destruct (int_of_float _) as [n|]; [|reflexivity]. cbn [bind].
  destruct (int_of_float _) as [a|]; reflexivity.
Qed.

Lemma slider_impacts_within (g : Inputs) :
  sliders_in_range g ->
  within 0 1 (raw_freq (slider_impacts g)) /\
  within 0 1 (raw_wait (slider_impacts g)) /\
  within 0 1 (raw_coverage (slider_impacts g)) /\
  within 0 1 (raw_cost (slider_impacts g)) /\
  within 0 1 (raw_integration (slider_impacts g)).
Proof.
  intros (H1 & H2 & H3 & H4 & H5). cbn [slider_impacts raw_freq raw_wait raw_coverage raw_cost raw_integration].
  destruct (proj1 (lever_table _ _ freq_table) _ H1) as (_ & _ & _ & F1 & B1).
  destruct (proj1 (lever_table _ _ wait_table) _ H2) as (_ & _ & _ & F2 & B2).
  destruct (proj1 (lever_table _ _ coverage_table) _ H3) as (_ & _ & _ & F3 & B3).
  destruct (proj1 (lever_table _ _ cost_table) _ H4) as (_ & _ & _ & F4 & B4).
  destruct (proj1 (lever_table _ _ integration_table) _ H5) as (_ & _ & _ & F5 & B5).
  unfold within. tauto.
Qed.

Lemma sum_slider_impacts_within (g : Inputs) :
  sliders_in_range g -> within 0 5 (sum_impacts (slider_impacts g)).
Proof.
  intros Hg. destruct (slider_impacts_within g Hg) as (H1 & H2 & H3 & H4 & H5).
  apply sum_impacts_within; assumption.
Qed.

Lemma total_impact_within (g : Inputs) :
  sliders_in_range g -> within 0 6 (total_impact g).
Proof.
  intros Hg. apply diminishing_returns_within, sum_slider_impacts_within, Hg.
Qed.

Lemma growth_within (g : Inputs) :
  sliders_in_range g -> within 1 7 (1 + total_impact g)%float.
Proof.
  intros Hg.
  exact (add_within 1 1 0 6 _ _ one_const (total_impact_within g Hg)
                    ltac:(simpl; lia) ltac:(simpl; lia)).
Qed.

Section Projection.
Variable g : Inputs.
Hypothesis Hg : sliders_in_range g.
Hypothesis Hcr : Z.abs (current_ridership g) <= 2 ^ 53.

Let cr := current_ridership g.
Let growth := (1 + total_impact g)%float.

Lemma projection_runs :
  exists c n a,
    float_of_int cr = Ok c /\ finite c /\ B2R c = IZR cr /\
    rounds (IZR cr * B2R growth) (c * growth) /\
    rounds (B2R (c * growth) - IZR cr) (c * growth - c) /\
    trunc_of (B2R (c * growth)) n /\
    trunc_of (B2R (c * growth - c)) a /\
    calculate_ridership_impact g = Ok (results_of (slider_impacts g) n a).
Proof.
  destruct (float_of_int_exact cr Hcr) as (c & Ec & Fc & Vc).
  destruct (growth_within g Hg) as (Fg & Bg). fold growth in Fg, Bg.
  assert (Hcb : (Rabs (IZR cr) <= bpow 53)%R).
  { rewrite <- abs_IZR, bpow_IZR by lia. apply IZR_le. exact Hcr. }
  assert (Hgb : (Rabs (B2R growth) <= bpow 3)%R).
  { rewrite bpow_IZR by lia. simpl in Bg. simpl (2 ^ 3). rewrite Rabs_pos_eq; lra. }
  assert (Hv1 : (Rabs (IZR cr * B2R growth) <= bpow 56)%R).
  { change 56 with (53 + 3). rewrite bpow_add, Rabs_mult.
    pose proof (Rabs_pos (IZR cr)). pose proof (Rabs_pos (B2R growth)). nra. }
  assert (R1 : rounds (IZR cr * B2R growth) (c * growth)).
  { rewrite <- Vc. apply mul_rounds; [exact Fc|exact Fg|]. rewrite Vc.
    apply Rle_lt_trans with (bpow 56); [exact Hv1|apply bpow_lt; lia]. }
  pose proof (rounds_bound _ _ 56 R1 Hv1 ltac:(lia)) as B1.
  assert (R2 : rounds (B2R (c * growth) - IZR cr) (c * growth - c)).
  { rewrite <- Vc. apply sub_rounds; [apply R1|exact Fc|]. rewrite Vc.
    apply Rle_lt_trans with (bpow 56 + bpow 53)%R.
    - apply Rle_trans with (Rabs (B2R (c * growth)) + Rabs (IZR cr))%R; [|lra].
      unfold Rminus. rewrite <- (Rabs_Ropp (IZR cr)). apply Rabs_triang.
    - apply Rlt_trans with (bpow 56 + bpow 56)%R.
      + pose proof (bpow_lt 53 56 ltac:(lia)). lra.
      + change 1023 with (1 + 1022). rewrite (bpow_add 1 1022).
        replace (bpow 1) with 2%R by (unfold bpow; simpl; ring).
        pose proof (bpow_lt 56 1022 ltac:(lia)). lra. }
  destruct (int_of_float_trunc (c * growth) (proj1 R1)) as (n & En & Tn).
  destruct (int_of_float_trunc (c * growth - c) (proj1 R2)) as (a & Ea & Ta).
  exists c, n, a. repeat (split; [assumption|]).
  rewrite calculate_unfold, (raw_impacts_in_range g Hg). cbn [bind].
  fold cr. rewrite Ec. cbn [bind].
  fold (total_impact g). fold growth. rewrite En. cbn [bind]. rewrite Ea. reflexivity.
Qed.
End Projection.

(** ** Non-negativity of the results *)

Lemma leb_zero (x : float) (hi : Z) : within 0 hi x -> (0 <=? x)%float = true.
Proof.
  intros (F & B). destruct zero_finite as (F0 & E0).
  apply leb_le; [exact F0|exact F|]. rewrite E0. apply B.
Qed.

Lemma percent_within (hi : Z) (x : float) :
  within 0 hi x -> 0 <= hi <= 2 ^ 40 -> within 0 (hi * 100) (x * 100)%float.
Proof.
  intros Hx Hhi.
  apply (mul_within hi 100 x 100%float Hx); [|lia].
  apply (within_weaken _ _ _ _ _ hundred_const); lia.
Qed.

Lemma trunc_of_ge (v : R) (n z : Z) :
  trunc_of v n -> (0 <= v)%R -> (IZR z <= v)%R -> z <= n.
Proof.
  intros (A & _) H0 Hz. specialize (A H0).
  assert (z < n + 1); [|lia]. apply lt_IZR. rewrite plus_IZR. lra.
Qed.

Lemma projected_at_least (g : Inputs) (c : float) :
  sliders_in_range g -> 0 <= current_ridership g ->
  finite c -> B2R c = IZR (current_ridership g) ->
  rounds (IZR (current_ridership g) * B2R (1 + total_impact g)%float)
         (c * (1 + total_impact g))%float ->
  (IZR (current_ridership g) <= B2R (c * (1 + total_impact g))%float)%R.
Proof.
  intros Hg H0 Fc Vc R1. destruct (growth_within g Hg) as (_ & Bg).
  rewrite <- Vc at 1. apply (rounds_ge _ _ c R1 Fc). rewrite Vc.
  apply IZR_le in H0. simpl in Bg. nra.
Qed.


(** C10 as stated fails once the ridership is not a binary64 number: at
    [2^53 + 1] with every slider at 0 the projected ridership is [2^53]. *)
Lemma nonnegativity_fails_beyond_2p53 :
  sliders_in_range idle_beyond_2p53 /\
  0 <= current_ridership idle_beyond_2p53 /\
  exists r, calculate_ridership_impact idle_beyond_2p53 = Ok r /\
            new_ridership r < current_ridership idle_beyond_2p53.
Proof.
  split; [unfold sliders_in_range; simpl; lia|]. split; [simpl; lia|].
  eexists. split; [vm_compute; reflexivity|]. simpl. lia.
Qed.

(** ** What a successful run returned *)

Lemma calculate_inv (g : Inputs) (r : Results) :
  calculate_ridership_impact g = Ok r ->
  exists rw c,
    raw_impacts g = Ok rw /\
    float_of_int (current_ridership g) = Ok c /\
    int_of_float (c * (1 + diminishing_returns (sum_impacts rw)))%float
      = Ok (new_ridership r) /\
    int_of_float (c * (1 + diminishing_returns (sum_impacts rw)) - c)%float
      = Ok (absolute_increase r) /\
    r = results_of rw (new_ridership r) (absolute_increase r).
Proof.
  rewrite calculate_unfold.
  destruct (raw_impacts g) as [rw|]; [|discriminate]. cbn [bind].
  destruct (float_of_int (current_ridership g)) as [c|]; [|discriminate]. cbn [bind].
  destruct (int_of_float (c * (1 + diminishing_returns (sum_impacts rw)))%float)
    as [n|] eqn:En; [|discriminate]. cbn [bind].
  destruct (int_of_float (c * (1 + diminishing_returns (sum_impacts rw)) - c)%float)
    as [a|] eqn:Ea; [|discriminate]. cbn [bind].
  intros E. injection E as <-. exists rw, c.
  cbn [results_of new_ridership absolute_increase]. repeat split; assumption.
Qed.

Lemma calculate_in_range_inv (g : Inputs) (r : Results) :
  sliders_in_range g -> calculate_ridership_impact g = Ok r ->
  total_percentage r = (total_impact g * 100)%float.
Proof.
  intros Hg E. destruct (calculate_inv g r E) as (rw & c & Erw & _ & _ & _ & ->).
  rewrite (raw_impacts_in_range g Hg) in Erw. injection Erw as <-. reflexivity.
Qed.

(** ** Idle sliders *)


(** C5 as stated fails for a ridership that is not a binary64 number: at
    [2^53 + 1] the idle scenario returns [2^53]. *)
Lemma idle_fails_beyond_2p53 :
  0 <= current_ridership idle_beyond_2p53 /\
  exists r, calculate_ridership_impact idle_beyond_2p53 = Ok r /\
            new_ridership r <> current_ridership idle_beyond_2p53.
Proof.
  split; [simpl; lia|].
  eexists. split; [vm_compute; reflexivity|]. simpl. lia.
Qed.

(** ** Monotonicity in the levers *)

Lemma add_mono (b d : Z) (x x' y y' : float) :
  within 0 b x -> within 0 b x' -> within 0 d y -> within 0 d y' ->
  b + d <= 2 ^ 53 ->
  (B2R x <= B2R x')%R -> (B2R y <= B2R y')%R ->
  (B2R (x + y) <= B2R (x' + y'))%R.
Proof.
  intros (Fx & Bx) (Fx' & Bx') (Fy & By) (Fy' & By') Hbd Lx Ly.
  assert (Hb : 0 <= b) by (apply le_IZR; lra).
  assert (Hd : 0 <= d) by (apply le_IZR; lra).
  assert (Hsum : forall u v : float,
             (IZR 0 <= B2R u <= IZR b)%R -> (IZR 0 <= B2R v <= IZR d)%R ->
             (Rabs (B2R u + B2R v) < bpow 1023)%R).
  { intros u v Hu Hv. apply (Rabs_between _ 0 (b + d)); [|simpl; lia|lia].
    rewrite plus_IZR. lra. }
  apply Rle_trans with (B2R (x' + y)).
  - apply add_mono_l; auto.
  - apply add_mono_r; auto.
Qed.

Lemma sum_impacts_mono (r r' : Impacts) :
  within 0 1 (raw_freq r) -> within 0 1 (raw_wait r) ->
  within 0 1 (raw_coverage r) -> within 0 1 (raw_cost r) ->
  within 0 1 (raw_integration r) ->
  within 0 1 (raw_freq r') -> within 0 1 (raw_wait r') ->
  within 0 1 (raw_coverage r') -> within 0 1 (raw_cost r') ->
  within 0 1 (raw_integration r') ->
  (B2R (raw_freq r) <= B2R (raw_freq r'))%R ->
  (B2R (raw_wait r) <= B2R (raw_wait r'))%R ->
  (B2R (raw_coverage r) <= B2R (raw_coverage r'))%R ->
  (B2R (raw_cost r) <= B2R (raw_cost r'))%R ->
  (B2R (raw_integration r) <= B2R (raw_integration r'))%R ->
  (B2R (sum_impacts r) <= B2R (sum_impacts r'))%R.
Proof.
  intros H1 H2 H3 H4 H5 H1' H2' H3' H4' H5' L1 L2 L3 L4 L5. unfold sum_impacts.
  pose proof (add_within _ _ _ _ _ _ H1 H2 ltac:(simpl; lia) ltac:(simpl; lia)) as S1.
  pose proof (add_within _ _ _ _ _ _ S1 H3 ltac:(simpl; lia) ltac:(simpl; lia)) as S2.
  pose proof (add_within _ _ _ _ _ _ S2 H4 ltac:(simpl; lia) ltac:(simpl; lia)) as S3.
  pose proof (add_within _ _ _ _ _ _ H1' H2' ltac:(simpl; lia) ltac:(simpl; lia)) as S1'.
  pose proof (add_within _ _ _ _ _ _ S1' H3' ltac:(simpl; lia) ltac:(simpl; lia)) as S2'.
  pose proof (add_within _ _ _ _ _ _ S2' H4' ltac:(simpl; lia) ltac:(simpl; lia)) as S3'.
  simpl in S1, S2, S3, S1', S2', S3'.
  apply (add_mono 4 1); try assumption; [simpl; lia|].
  apply (add_mono 3 1); try assumption; [simpl; lia|].
  apply (add_mono 2 1); try assumption; [simpl; lia|].
  apply (add_mono 1 1); try assumption. simpl; lia.
Qed.

Lemma lever_mono (c : float) (hi p p' : Z) :
  lever_table_ok c hi = true -> 0 <= p -> p <= p' -> p' <= hi ->
  (B2R (lever p c) <= B2R (lever p' c))%R.
Proof.
  intros T H0 Hle Hhi. destruct (Z.eq_dec p p') as [->|N]; [lra|].
  left. apply (proj2 (lever_table c hi T)); lia.
Qed.

Lemma total_impact_mono (g g' : Inputs) :
  sliders_in_range g -> sliders_in_range g' -> raised g g' ->
  (B2R (total_impact g) <= B2R (total_impact g'))%R.
Proof.
  intros Hg Hg' (_ & L1 & L2 & L3 & L4 & L5).
  destruct (slider_impacts_within g Hg) as (H1 & H2 & H3 & H4 & H5).
  destruct (slider_impacts_within g' Hg') as (H1' & H2' & H3' & H4' & H5').
  destruct Hg as (A1 & A2 & A3 & A4 & A5). destruct Hg' as (A1' & A2' & A3' & A4' & A5').
  unfold total_impact. apply diminishing_returns_mono.
  - apply sum_impacts_within; assumption.
  - apply sum_impacts_within; assumption.
  - apply sum_impacts_mono; try assumption;
      cbn [slider_impacts raw_freq raw_wait raw_coverage raw_cost raw_integration].
    + apply (lever_mono _ 200); [exact freq_table|lia|lia|lia].
    + apply (lever_mono _ 80); [exact wait_table|lia|lia|lia].
    + apply (lever_mono _ 100); [exact coverage_table|lia|lia|lia].
    + apply (lever_mono _ 50); [exact cost_table|lia|lia|lia].
    + apply (lever_mono _ 100); [exact integration_table|lia|lia|lia].
Qed.

(** C6: with every slider in its range, raising improvement percentages
    (one of them, or several) and changing nothing else never lowers
    [total_percentage]. *)
Theorem total_percentage_monotone (g g' : Inputs) (r r' : Results) :
  sliders_in_range g -> sliders_in_range g' -> raised g g' ->
  calculate_ridership_impact g = Ok r ->
  calculate_ridership_impact g' = Ok r' ->
  (total_percentage r <=? total_percentage r')%float = true.
Proof.
  intros Hg Hg' Hr E E'.
  rewrite (calculate_in_range_inv g r Hg E), (calculate_in_range_inv g' r' Hg' E').
  pose proof (total_impact_within g Hg) as T.
  pose proof (total_impact_within g' Hg') as T'.
  pose proof (percent_within 6 _ T ltac:(simpl; lia)) as P.
  pose proof (percent_within 6 _ T' ltac:(simpl; lia)) as P'.
  destruct hundred_const as (Fh & Bh).
  apply leb_le; [apply P|apply P'|].
  apply mul_mono_l; try apply T; try apply T'; try exact Fh.
  - apply (Rabs_between _ 0 600); [|simpl; lia|simpl; lia].
    destruct T as (_ & B). simpl in *. nra.
  - apply (Rabs_between _ 0 600); [|simpl; lia|simpl; lia].
    destruct T' as (_ & B). simpl in *. nra.
  - simpl in Bh. lra.
  - apply total_impact_mono; assumption.
Qed.

Lemma total_percentage_monotone_witness :
  (total_percentage
     (results_of (slider_impacts defaults) 175550 75550) <=?
   total_percentage
     (results_of (slider_impacts (Build_Inputs 100000 4 12 51 30 25 15 40))
                 175900 75900))%float = true.
Proof.
  apply (total_percentage_monotone defaults (Build_Inputs 100000 4 12 51 30 25 15 40)).
  - unfold sliders_in_range. simpl. lia.
  - unfold sliders_in_range. simpl. lia.
  - unfold raised. simpl. lia.
  - vm_compute. reflexivity.
  - vm_compute. reflexivity.
Defined.

(** ** The projected ridership and its increase *)

Lemma exact_difference (x : float) (z : Z) :
  finite x -> 0 <= z -> (IZR z <= B2R x < IZR (2 ^ 53))%R ->
  exists y, finite y /\ B2R y = (B2R x - IZR z)%R.
Proof.
  intros Fx Hz Hx.
  assert (H0 : (0 <= IZR z)%R) by (apply IZR_le; exact Hz).
  destruct (small_repr x Fx ltac:(lra)) as (M & E & EM & HM & HE).
  assert (Ez : IZR z = F2R (z * 2 ^ (- E)) E).
  { rewrite F2R_shift by lia. replace (E + - E) with 0 by ring.
    symmetry. apply F2R_int. }
  assert (Hle : z * 2 ^ (- E) <= M).
  { apply (F2R_le_inv _ _ E). rewrite <- Ez, <- EM. lra. }
  assert (Hnn : 0 <= z * 2 ^ (- E)).
  { apply Z.mul_nonneg_nonneg; [exact Hz|]. apply Z.pow_nonneg. lia. }
  assert (Hval : F2R (M - z * 2 ^ (- E)) E = (B2R x - IZR z)%R).
  { rewrite EM, Ez. unfold F2R. rewrite minus_IZR. ring. }
  rewrite <- Hval. apply representable; [lia|lia|].
  rewrite Hval. apply (Rabs_between _ 0 (2 ^ 53)); [|simpl; lia|simpl; lia].
  simpl (IZR 0). lra.
Qed.


(** The bound on the ridership cannot be dropped: near [2^52] the float
    difference is itself rounded, also with every slider in range. *)
Lemma increase_differs_when_crowded :
  sliders_in_range crowded /\
  exists r, calculate_ridership_impact crowded = Ok r /\
            absolute_increase r <> new_ridership r - current_ridership crowded.
Proof.
  split; [unfold sliders_in_range; simpl; lia|].
  eexists. split; [vm_compute; reflexivity|]. simpl. lia.
Qed.


(** C4 as stated fails on the negative inputs it covers: with the frequency
    slider at -10 and a ridership of 10 the run returns [new_ridership = 9]
    and [absolute_increase = 0], not [9 - 10]. *)
Lemma increase_differs_when_shrinking :
  exists r, calculate_ridership_impact shrinking = Ok r /\
            new_ridership r = 9 /\ absolute_increase r = 0 /\
            absolute_increase r <> new_ridership r - current_ridership shrinking.
Proof.
  eexists. split; [vm_compute; reflexivity|]. simpl. repeat split. lia.
Qed.


(** ** The clamp (C3) *)

Lemma SFcompare_swap (x y : spec_float) :
  SFcompare y x = option_map CompOpp (SFcompare x y).
Proof.
  destruct x as [sx|sx| |sx mx ex], y as [sy|sy| |sy my ey]; cbn [SFcompare option_map];
    try reflexivity;
    try (destruct sx; reflexivity); try (destruct sy; reflexivity);
    try (destruct sx, sy; reflexivity).
  rewrite (Z.compare_antisym ex ey).
  change (Pos.compare_cont Eq my mx) with (Pos.compare my mx).
  change (Pos.compare_cont Eq mx my) with (Pos.compare mx my).
  rewrite (Pos.compare_antisym mx my).
  destruct sx, sy; try reflexivity;
    destruct (ex ?= ey); cbn [CompOpp]; try reflexivity;
    destruct (mx ?= my)%positive; reflexivity.
Qed.

Lemma leb_not_gt (x y : float) : (x <=? y)%float = true -> float_gt x y = false.
Proof.
  unfold float_gt. rewrite leb_spec, ltb_spec. unfold SFleb, SFltb.
  rewrite (SFcompare_swap (Prim2SF x) (Prim2SF y)).
  destruct (SFcompare (Prim2SF x) (Prim2SF y)) as [[| |]|]; cbn [option_map CompOpp];
    intros H; try reflexivity; discriminate H.
Qed.

(** C3: the clamp leaves a total of at most 0.5 unchanged and maps a larger
    one to [0.5 + (x - 0.5) * 0.7]; an unclamped total of exactly 0.5 gives
    [total_percentage = 50.0], and one of exactly 1.0 gives a clamped total
    of 0.85 and [total_percentage = 85.0]. *)
Theorem diminishing_returns_knee :
  (forall x, (x <=? 0.5)%float = true -> diminishing_returns x = x) /\
  (forall x, (0.5 <? x)%float = true ->
             diminishing_returns x = (0.5 + (x - 0.5) * 0.7)%float) /\
  (forall g r res,
      raw_impacts g = Ok r -> calculate_ridership_impact g = Ok res ->
      (sum_impacts r = 0.5%float -> total_percentage res = 50%float) /\
      (sum_impacts r = 1%float -> total_percentage res = 85%float)) /\
  diminishing_returns 1 = 0.85%float /\
  (exists res, sum_impacts (slider_impacts at_knee) = 0.5%float /\
               calculate_ridership_impact at_knee = Ok res /\
               total_percentage res = 50%float) /\
  (exists res, sum_impacts (slider_impacts at_one) = 1%float /\
               calculate_ridership_impact at_one = Ok res /\
               total_percentage res = 85%float).
Proof.
  split; [|split; [|split; [|split; [|split]]]].
  - intros x H. unfold diminishing_returns. rewrite (leb_not_gt _ _ H). reflexivity.
  - intros x H. unfold diminishing_returns, float_gt. rewrite H. reflexivity.
  - intros g r res Er E.
    destruct (calculate_inv g res E) as (rw & c & Erw & _ & _ & _ & ->).
    rewrite Er in Erw. injection Erw as <-.
    cbn [results_of total_percentage].
    split; intros ->; vm_compute; reflexivity.
  - vm_compute. reflexivity.
  - eexists. split; [vm_compute; reflexivity|].
    split; [vm_compute; reflexivity|]. reflexivity.
  - eexists. split; [vm_compute; reflexivity|].
    split; [vm_compute; reflexivity|]. reflexivity.
Qed.

Lemma diminishing_returns_knee_witness :
  total_percentage (results_of (slider_impacts at_knee) 150000 50000) = 50%float.
Proof.
  apply (proj1 (proj1 (proj2 (proj2 diminishing_returns_knee))
                      at_knee (slider_impacts at_knee)
                      (results_of (slider_impacts at_knee) 150000 50000)
                      ltac:(vm_compute; reflexivity) ltac:(vm_compute; reflexivity))).
  vm_compute. reflexivity.
Defined.

(** ** The scenario comparison (C9) *)

Lemma float_of_int_15 : float_of_int 15 = Ok 15%float.
Proof. reflexivity. Qed.

Lemma float_of_int_35 : float_of_int 35 = Ok 35%float.
Proof. reflexivity. Qed.

Lemma float_of_int_60 : float_of_int 60 = Ok 60%float.
Proof. reflexivity. Qed.

Lemma scenario_row_current (g : Inputs) :
  scenario_row g ("Current"%string, 0) =
  _ <- calculate_ridership_impact g ;; Ok (current_row (current_ridership g)).
Proof.
  unfold scenario_row, temp_results. cbn [String.eqb Ascii.eqb Bool.eqb].
  destruct (calculate_ridership_impact g); reflexivity.
Qed.

Lemma scenario_row_preset (g : Inputs) (name : string) (pct : Z) (P : float) :
  String.eqb name "Current" = false -> float_of_int pct = Ok P ->
  scenario_row g (name, pct) = simplified_row (current_ridership g) name P.
Proof.
  intros Hn HP. unfold scenario_row, temp_results, simplified_row.
  rewrite Hn. unfold int_mul_float, int_add_float.
  rewrite HP, float_of_int_1. cbn [bind].
  destruct (float_of_int (current_ridership g)) as [c|]; [|reflexivity]. cbn [bind].
  destruct (int_of_float _) as [n|]; reflexivity.
Qed.

Lemma scenario_results_unfold (g : Inputs) :
  scenario_results g =
  _ <- calculate_ridership_impact g ;;
  b <- simplified_row (current_ridership g) "Basic Improvement" 15 ;;
  m <- simplified_row (current_ridership g) "Moderate Improvement" 35 ;;
  c <- simplified_row (current_ridership g) "Comprehensive Improvement" 60 ;;
  Ok [current_row (current_ridership g); b; m; c].
Proof.
  unfold scenario_results, scenarios. cbn [mapM].
  rewrite scenario_row_current.
  rewrite (scenario_row_preset g "Basic Improvement" 15 15%float eq_refl float_of_int_15).
  rewrite (scenario_row_preset g "Moderate Improvement" 35 35%float eq_refl float_of_int_35).
  rewrite (scenario_row_preset g "Comprehensive Improvement" 60 60%float eq_refl
                               float_of_int_60).
  destruct (calculate_ridership_impact g); [|reflexivity]. cbn [bind].
  destruct (simplified_row _ "Basic Improvement" _); [|reflexivity]. cbn [bind].
  destruct (simplified_row _ "Moderate Improvement" _); [|reflexivity]. cbn [bind].
  destruct (simplified_row _ "Comprehensive Improvement" _); reflexivity.
Qed.

Lemma simplified_row_runs (cr : Z) (name : string) (P : float) :
  Z.abs cr <= 2 ^ 53 -> within 0 2 (1 + P * 0.004)%float ->
  exists c n, float_of_int cr = Ok c /\ B2R c = IZR cr /\
              trunc_of (B2R (c * (1 + P * 0.004))%float) n /\
              simplified_row cr name P =
              Ok {| Scenario := name; Ridership := n;
                    Pct_Increase := Float (P * 0.4)%float |}.
Proof.
  intros Hcr (FG & BG).
  destruct (float_of_int_exact cr Hcr) as (c & Ec & Fc & Vc).
  assert (Hf : finite (c * (1 + P * 0.004))%float).
  { apply mul_rounds; [exact Fc|exact FG|]. rewrite Vc.
    apply Rle_lt_trans with (bpow 53 * bpow 1)%R.
    - rewrite Rabs_mult.
      assert (Rabs (IZR cr) <= bpow 53)%R.
      { rewrite <- abs_IZR, bpow_IZR by lia. apply IZR_le. exact Hcr. }
      assert (Rabs (B2R (1 + P * 0.004)%float) <= bpow 1)%R.
      { rewrite bpow_IZR by lia. simpl in BG. simpl (2 ^ 1). rewrite Rabs_pos_eq; lra. }
      pose proof (Rabs_pos (IZR cr)). pose proof (Rabs_pos (B2R (1 + P * 0.004)%float)).
      nra.
    - rewrite <- bpow_add. apply bpow_lt. lia. }
  destruct (int_of_float_trunc _ Hf) as (n & En & Tn).
  exists c, n. split; [exact Ec|]. split; [exact Vc|]. split; [exact Tn|].
  unfold simplified_row. rewrite Ec. cbn [bind]. rewrite En. reflexivity.
Qed.

Lemma preset_growth_within :
  within 0 2 (1 + 15 * 0.004)%float /\ within 0 2 (1 + 35 * 0.004)%float /\
  within 0 2 (1 + 60 * 0.004)%float.
Proof.
  assert (E2 : finite 2%float /\ B2R 2%float = 2%R).
  { apply (B2R_of_int 2 2%float); [reflexivity|simpl; lia]. }
  assert (H : forall x : float,
             is_finite (Prim2SF x) = true -> (1 <=? x)%float = true ->
             (x <=? 2)%float = true -> within 0 2 x).
  { intros x Hf H1 H2. split; [exact Hf|]. destruct E2 as (F2 & V2).
    apply (leb_le 1 x ltac:(reflexivity) Hf) in H1.
    apply (leb_le x _ Hf F2) in H2.
    rewrite B2R_1 in H1. rewrite V2 in H2. lra. }
  repeat split; apply H; reflexivity.
Qed.

Lemma scenario_results_runs (g : Inputs) :
  sliders_in_range g -> Z.abs (current_ridership g) <= 2 ^ 53 ->
  exists rows, scenario_results g = Ok rows.
Proof.
  intros Hg Hcr. rewrite scenario_results_unfold.
  destruct (projection_runs g Hg Hcr) as (c & n & a & _ & _ & _ & _ & _ & _ & _ & ->).
  destruct preset_growth_within as (G1 & G2 & G3).
  destruct (simplified_row_runs _ "Basic Improvement" 15 Hcr G1) as (? & ? & _ & _ & _ & ->).
  destruct (simplified_row_runs _ "Moderate Improvement" 35 Hcr G2) as (? & ? & _ & _ & _ & ->).
  destruct (simplified_row_runs _ "Comprehensive Improvement" 60 Hcr G3) as (? & ? & _ & _ & _ & ->).
  eexists. reflexivity.
Qed.


(** C9: two parameter sets that agree on [current_ridership] and the five
    improvement percentages give the same result record and the same
    scenario table, whatever the two baseline inputs are. *)
Theorem baseline_inputs_are_dead (g1 g2 : Inputs) :
  same_live_inputs g1 g2 ->
  calculate_ridership_impact g1 = calculate_ridership_impact g2 /\
  scenario_results g1 = scenario_results g2.
Proof.
  intros (E0 & E1 & E2 & E3 & E4 & E5).
  assert (Hraw : raw_impacts g1 = raw_impacts g2).
  { unfold raw_impacts. rewrite E1, E2, E3, E4, E5. reflexivity. }
  assert (Hcalc : calculate_ridership_impact g1 = calculate_ridership_impact g2).
  { rewrite !calculate_unfold, Hraw, E0. reflexivity. }
  split; [exact Hcalc|].
  rewrite !scenario_results_unfold, Hcalc, E0. reflexivity.
Qed.

Lemma baseline_inputs_are_dead_witness :
  calculate_ridership_impact defaults =
  calculate_ridership_impact (Build_Inputs 100000 20 2 50 30 25 15 40) /\
  scenario_results defaults =
  scenario_results (Build_Inputs 100000 20 2 50 30 25 15 40).
Proof.
  apply (baseline_inputs_are_dead defaults (Build_Inputs 100000 20 2 50 30 25 15 40)).
  unfold same_live_inputs. simpl. repeat split.
Defined.

(** ** The breakdown against the unclamped total (C2) *)

Lemma Rabs_le_between (x b : R) : (Rabs x <= b)%R -> (- b <= x <= b)%R.
Proof. unfold Rabs. destruct Rcase_abs; lra. Qed.

Lemma add_error (b d k : Z) (x y : float) :
  within 0 b x -> within 0 d y -> b + d <= 2 ^ k -> 0 <= k <= 52 ->
  (Rabs (B2R (x + y) - (B2R x + B2R y)) <= bpow (k - 54))%R.
Proof.
  intros (Fx & Bx) (Fy & By) Hk Hr.
  assert (Hv : (0 <= B2R x + B2R y <= bpow k)%R).
  { rewrite bpow_IZR by lia. apply IZR_le in Hk. rewrite plus_IZR in Hk.
    simpl in Bx, By. lra. }
  apply rounds_error; [|rewrite Rabs_pos_eq; lra|lia].
  apply add_rounds; [exact Fx|exact Fy|].
  apply Rle_lt_trans with (bpow k); [rewrite Rabs_pos_eq; lra|apply bpow_lt; lia].
Qed.

Lemma mul_error (b d k : Z) (x y : float) :
  within 0 b x -> within 0 d y -> b * d <= 2 ^ k -> 0 <= k <= 52 ->
  (Rabs (B2R (x * y) - B2R x * B2R y) <= bpow (k - 54))%R.
Proof.
  intros (Fx & Bx) (Fy & By) Hk Hr.
  assert (Hv : (0 <= B2R x * B2R y <= bpow k)%R).
  { rewrite bpow_IZR by lia. apply IZR_le in Hk. rewrite mult_IZR in Hk.
    simpl in Bx, By. split; nra. }
  apply rounds_error; [|rewrite Rabs_pos_eq; lra|lia].
  apply mul_rounds; [exact Fx|exact Fy|].
  apply Rle_lt_trans with (bpow k); [rewrite Rabs_pos_eq; lra|apply bpow_lt; lia].
Qed.

Lemma bpow_scale (j : Z) :
  0 <= j -> bpow (-53 + j) = (IZR (2 ^ j) * bpow (-53))%R.
Proof. intros Hj. rewrite bpow_add, (bpow_IZR j) by exact Hj. ring. Qed.

Lemma percentages_sum_error (r : Impacts) (n a : Z) :
  within 0 1 (raw_freq r) -> within 0 1 (raw_wait r) ->
  within 0 1 (raw_coverage r) -> within 0 1 (raw_cost r) ->
  within 0 1 (raw_integration r) ->
  (Rabs (B2R (percentages_sum (results_of r n a)) - B2R (sum_impacts r * 100)%float)
   <= / IZR (10 ^ 12))%R.
Proof.
  intros H1 H2 H3 H4 H5.
  unfold percentages_sum, sum_impacts.
  cbn [results_of freq_impact wait_impact coverage_impact cost_impact integration_impact].
  destruct r as [a1 a2 a3 a4 a5].
  cbn [raw_freq raw_wait raw_coverage raw_cost raw_integration] in *.
  assert (C : within 0 100 100%float)
    by (apply (within_weaken _ _ _ _ _ hundred_const); lia).
  (* the chain of sums of impacts *)
  pose proof (add_within _ _ _ _ _ _ H1 H2 ltac:(simpl; lia) ltac:(simpl; lia)) as S1.
  pose proof (add_within _ _ _ _ _ _ S1 H3 ltac:(simpl; lia) ltac:(simpl; lia)) as S2.
  pose proof (add_within _ _ _ _ _ _ S2 H4 ltac:(simpl; lia) ltac:(simpl; lia)) as S3.
  pose proof (add_within _ _ _ _ _ _ S3 H5 ltac:(simpl; lia) ltac:(simpl; lia)) as S4.
  simpl in S1, S2, S3, S4.
  pose proof (add_error 1 1 1 _ _ H1 H2 ltac:(simpl; lia) ltac:(lia)) as e1.
  pose proof (add_error 2 1 2 _ _ S1 H3 ltac:(simpl; lia) ltac:(lia)) as e2.
  pose proof (add_error 3 1 2 _ _ S2 H4 ltac:(simpl; lia) ltac:(lia)) as e3.
  pose proof (add_error 4 1 3 _ _ S3 H5 ltac:(simpl; lia) ltac:(lia)) as e4.
  pose proof (mul_error 5 100 9 _ _ S4 C ltac:(simpl; lia) ltac:(lia)) as eT.
  (* the chain of sums of percentages *)
  pose proof (mul_within 1 100 _ _ H1 C ltac:(simpl; lia)) as P1.
  pose proof (mul_within 1 100 _ _ H2 C ltac:(simpl; lia)) as P2.
  pose proof (mul_within 1 100 _ _ H3 C ltac:(simpl; lia)) as P3.
  pose proof (mul_within 1 100 _ _ H4 C ltac:(simpl; lia)) as P4.
  pose proof (mul_within 1 100 _ _ H5 C ltac:(simpl; lia)) as P5.
  simpl in P1, P2, P3, P4, P5.
  pose proof (mul_error 1 100 7 _ _ H1 C ltac:(simpl; lia) ltac:(lia)) as m1.
  pose proof (mul_error 1 100 7 _ _ H2 C ltac:(simpl; lia) ltac:(lia)) as m2.
  pose proof (mul_error 1 100 7 _ _ H3 C ltac:(simpl; lia) ltac:(lia)) as m3.
  pose proof (mul_error 1 100 7 _ _ H4 C ltac:(simpl; lia) ltac:(lia)) as m4.
  pose proof (mul_error 1 100 7 _ _ H5 C ltac:(simpl; lia) ltac:(lia)) as m5.
  pose proof (add_within _ _ _ _ _ _ P1 P2 ltac:(simpl; lia) ltac:(simpl; lia)) as Q1.
  pose proof (add_within _ _ _ _ _ _ Q1 P3 ltac:(simpl; lia) ltac:(simpl; lia)) as Q2.
  pose proof (add_within _ _ _ _ _ _ Q2 P4 ltac:(simpl; lia) ltac:(simpl; lia)) as Q3.
  simpl in Q1, Q2, Q3.
  pose proof (add_error 100 100 8 _ _ P1 P2 ltac:(simpl; lia) ltac:(lia)) as f1.
  pose proof (add_error 200 100 9 _ _ Q1 P3 ltac:(simpl; lia) ltac:(lia)) as f2.
  pose proof (add_error 300 100 9 _ _ Q2 P4 ltac:(simpl; lia) ltac:(lia)) as f3.
  pose proof (add_error 400 100 9 _ _ Q3 P5 ltac:(simpl; lia) ltac:(lia)) as f4.
  (* all the bounds in units of 2^-53 *)
  change (1 - 54) with (-53 + 0) in *. change (2 - 54) with (-53 + 1) in *.
  change (3 - 54) with (-53 + 2) in *. change (7 - 54) with (-53 + 6) in *.
  change (8 - 54) with (-53 + 7) in *. change (9 - 54) with (-53 + 8) in *.
  rewrite !bpow_scale in * by lia.
  assert (Heps : (IZR (2 ^ 53) * bpow (-53) = 1)%R).
  { rewrite <- (bpow_IZR 53), <- bpow_add by lia. reflexivity. }
  rewrite B2R_100 in *.
  apply Rabs_le_between in e1, e2, e3, e4, eT, m1, m2, m3, m4, m5, f1, f2, f3, f4.
  set (eps := bpow (-53)) in *.
  simpl (2 ^ _) in *. simpl (10 ^ 12).
  unfold Rabs. destruct Rcase_abs; lra.
Qed.

(** C2, as amended: the unclamped total is the plain left-to-right sum of
    the five raw impacts, the five returned percentages are the raw impacts
    times 100 (before the clamp), and with the sliders in range their sum
    agrees with the unclamped total times 100 up to binary64 rounding
    (within 1e-12); at the default sliders the clamp is active and that sum
    is strictly greater than [total_percentage]. *)
Theorem percentages_track_unclamped_total :
  (forall g r res,
      raw_impacts g = Ok r -> calculate_ridership_impact g = Ok res ->
      sum_impacts r =
      (raw_freq r + raw_wait r + raw_coverage r + raw_cost r + raw_integration r)%float /\
      total_percentage res = (diminishing_returns (sum_impacts r) * 100)%float /\
      freq_impact res = (raw_freq r * 100)%float /\
      wait_impact res = (raw_wait r * 100)%float /\
      coverage_impact res = (raw_coverage r * 100)%float /\
      cost_impact res = (raw_cost r * 100)%float /\
      integration_impact res = (raw_integration r * 100)%float) /\
  (forall g r res,
      sliders_in_range g ->
      raw_impacts g = Ok r -> calculate_ridership_impact g = Ok res ->
      (Rabs (B2R (percentages_sum res) - B2R (sum_impacts r * 100)%float)
       <= / IZR (10 ^ 12))%R) /\
  (exists r res,
      sliders_in_range defaults /\
      raw_impacts defaults = Ok r /\
      calculate_ridership_impact defaults = Ok res /\
      float_gt (sum_impacts r) 0.5 = true /\
      percentages_sum res = (sum_impacts r * 100)%float /\
      (total_percentage res <? percentages_sum res)%float = true).
Proof.
  split; [|split].
  - intros g r res Er E.
    destruct (calculate_inv g res E) as (rw & c & Erw & _ & _ & _ & ->).
    rewrite Er in Erw. injection Erw as <-.
    cbn [results_of total_percentage freq_impact wait_impact coverage_impact
         cost_impact integration_impact].
    repeat split; reflexivity.
  - intros g r res Hg Er E.
    destruct (calculate_inv g res E) as (rw & c & Erw & _ & _ & _ & ->).
    rewrite Er in Erw. injection Erw as <-.
    rewrite (raw_impacts_in_range g Hg) in Er. injection Er as <-.
    destruct (slider_impacts_within g Hg) as (H1 & H2 & H3 & H4 & H5).
    apply percentages_sum_error; assumption.
  - eexists. eexists.
    split; [unfold sliders_in_range; simpl; lia|].
    split; [vm_compute; reflexivity|].
    split; [vm_compute; reflexivity|].
    split; [vm_compute; reflexivity|].
    split; vm_compute; reflexivity.
Qed.

Lemma percentages_track_unclamped_total_witness :
  (Rabs (B2R (percentages_sum (results_of (slider_impacts defaults) 175550 75550))
         - B2R (sum_impacts (slider_impacts defaults) * 100)%float)
   <= / IZR (10 ^ 12))%R.
Proof.
  apply (proj1 (proj2 percentages_track_unclamped_total) defaults).
  - unfold sliders_in_range. simpl. lia.
  - vm_compute. reflexivity.
  - vm_compute. reflexivity.
Defined.

(** C2 as stated fails in binary64: with the frequency slider at 1 and the
    wait slider at 3 the clamp is inactive, the five percentages add up to
    2.8999999999999999 and the unclamped total times 100 is
    2.9000000000000004. *)
Lemma percentages_sum_is_not_exact :
  sliders_in_range tiny_steps /\
  exists r res,
    raw_impacts tiny_steps = Ok r /\
    calculate_ridership_impact tiny_steps = Ok res /\
    percentages_sum res <> (sum_impacts r * 100)%float /\
    (percentages_sum res <? sum_impacts r * 100)%float = true.
Proof.
  split; [unfold sliders_in_range; simpl; lia|].
  eexists. eexists.
  split; [vm_compute; reflexivity|].
  split; [vm_compute; reflexivity|].
  split; [|vm_compute; reflexivity].
  intros E. apply (f_equal Prim2SF) in E. vm_compute in E. discriminate E.
Qed.

(** * Further properties of the program *)

(** ** Which exceptions can be raised *)

Lemma int_truediv_raises (p : Z) (e : py_exn) :
  int_truediv p 100 = Raise e -> e = OverflowError.
Proof.
  unfold int_truediv. cbn [Z.eqb].
  destruct (p =? 0); [discriminate|].
  destruct (SFdiv_core_binary prec emax (Z.abs p) 0 (Z.abs 100) 0) as [[q e'] l].
  destruct (binary_round_aux prec emax _ q e' l); intros H;
    try discriminate H; injection H as <-; reflexivity.
Qed.

Lemma float_of_int_raises (z : Z) (e : py_exn) :
  float_of_int z = Raise e -> e = OverflowError.
Proof.
  unfold float_of_int.
  destruct (binary_normalize prec emax z 0 false); intros H;
    try discriminate H; injection H as <-; reflexivity.
Qed.

Lemma int_of_float_raises (x : float) (e : py_exn) :
  int_of_float x = Raise e -> e = OverflowError \/ e = ValueError.
Proof.
  unfold int_of_float.
  destruct (Prim2SF x); intros H; try discriminate H; injection H as <-; auto.
Qed.

Lemma raw_impacts_raises (g : Inputs) (e : py_exn) :
  raw_impacts g = Raise e -> e = OverflowError.
Proof.
  rewrite raw_impacts_unfold. unfold raw_impacts_magnitudes.
  destruct (int_truediv (freq_improvement g) 100) eqn:E1;
    [|intros H; injection H as <-; exact (int_truediv_raises _ _ E1)].
  destruct (int_truediv (wait_reduction g) 100) eqn:E2;
    [|intros H; injection H as <-; exact (int_truediv_raises _ _ E2)].
  destruct (int_truediv (coverage_improvement g) 100) eqn:E3;
    [|intros H; injection H as <-; exact (int_truediv_raises _ _ E3)].
  destruct (int_truediv (cost_reduction g) 100) eqn:E4;
    [|intros H; injection H as <-; exact (int_truediv_raises _ _ E4)].
  destruct (int_truediv (integration_improvement g) 100) eqn:E5;
    [|intros H; injection H as <-; exact (int_truediv_raises _ _ E5)].
  discriminate.
Qed.

Lemma calculate_raises (g : Inputs) (e : py_exn) :
  calculate_ridership_impact g = Raise e -> e = OverflowError \/ e = ValueError.
Proof.
  rewrite calculate_unfold.
  destruct (raw_impacts g) as [rw|e0] eqn:E0;
    [|intros H; injection H as <-; left; exact (raw_impacts_raises _ _ E0)].
  cbn [bind].
  destruct (float_of_int (current_ridership g)) as [c|e1] eqn:E1;
    [|intros H; injection H as <-; left; exact (float_of_int_raises _ _ E1)].
  cbn [bind].
  destruct (int_of_float (c * (1 + diminishing_returns (sum_impacts rw)))%float)
    as [n|e2] eqn:E2;
    [|intros H; injection H as <-; exact (int_of_float_raises _ _ E2)].
  cbn [bind].
  destruct (int_of_float (c * (1 + diminishing_returns (sum_impacts rw)) - c)%float)
    as [a|e3] eqn:E3;
    [|intros H; injection H as <-; exact (int_of_float_raises _ _ E3)].
  discriminate.
Qed.

Lemma simplified_row_raises (cr : Z) (name : string) (P : float) (e : py_exn) :
  simplified_row cr name P = Raise e -> e = OverflowError \/ e = ValueError.
Proof.
  unfold simplified_row.
  destruct (float_of_int cr) as [c|e1] eqn:E1;
    [|intros H; injection H as <-; left; exact (float_of_int_raises _ _ E1)].
  cbn [bind].
  destruct (int_of_float (c * (1 + P * 0.004))%float) as [n|e2] eqn:E2;
    [|intros H; injection H as <-; exact (int_of_float_raises _ _ E2)].
  discriminate.
Qed.

(** X1: the calculator and the scenario loop raise nothing but
    [OverflowError] and [ValueError]: every key they read is in the table
    and the divisor is never 0.  Both exceptions do occur. *)
Theorem only_overflow_and_value_errors :
  (forall g e, calculate_ridership_impact g = Raise e ->
               e = OverflowError \/ e = ValueError) /\
  (forall g e, scenario_results g = Raise e ->
               e = OverflowError \/ e = ValueError) /\
  calculate_ridership_impact unconvertible = Raise OverflowError /\
  calculate_ridership_impact overflowing_sum = Raise ValueError.
Proof.
  split; [exact calculate_raises|]. split.
  - intros g e. rewrite scenario_results_unfold.
    destruct (calculate_ridership_impact g) as [r|e0] eqn:E0;
      [|intros H; injection H as <-; exact (calculate_raises _ _ E0)].
    cbn [bind].
    destruct (simplified_row _ "Basic Improvement" _) as [b|e1] eqn:E1;
      [|intros H; injection H as <-; exact (simplified_row_raises _ _ _ _ E1)].
    cbn [bind].
    destruct (simplified_row _ "Moderate Improvement" _) as [m|e2] eqn:E2;
      [|intros H; injection H as <-; exact (simplified_row_raises _ _ _ _ E2)].
    cbn [bind].
    destruct (simplified_row _ "Comprehensive Improvement" _) as [c|e3] eqn:E3;
      [|intros H; injection H as <-; exact (simplified_row_raises _ _ _ _ E3)].
    discriminate.
  - split; vm_compute; reflexivity.
Qed.
(** ** Ridership values beyond the exact integers *)

(** The conversion of an integer rounds to nearest while it is in range. *)
Lemma float_of_int_rounds (z : Z) :
  Z.abs z < 2 ^ 1023 ->
  exists c, float_of_int z = Ok c /\ rounds (IZR z) c.
Proof.
  intros Hz. unfold float_of_int.
  set (r := binary_normalize prec emax z 0 false).
  assert (Hb : (Rabs (F2R z 0) < bpow 1023)%R).
  { rewrite F2R_int, <- abs_IZR, bpow_IZR by lia. apply IZR_lt. exact Hz. }
  assert (Hfin : is_finite r = true) by (apply binary_normalize_finite; exact Hb).
  assert (Hv : valid_binary r = true) by apply binary_normalize_valid.
  pose proof (binary_normalize_nearest z 0 Hfin) as Hn. fold r in Hn.
  rewrite F2R_int in Hn.
  exists (SF2Prim r). split.
  - destruct r; try reflexivity; discriminate Hfin.
  - apply nearest_rounds; unfold finite; rewrite Prim2SF_SF2Prim by exact Hv;
      assumption.
Qed.

Lemma pack_overflow (s : bool) (c e : Z) :
  0 < c -> 971 < e -> pack s c e = S754_infinity s.
Proof.
  intros Hc He. unfold pack. destruct c as [|p|p]; try lia.
  destruct (p =? 2 ^ 53)%positive.
  - destruct (Z.leb_spec (e + 1) 971); [lia|reflexivity].
  - destruct (Z.leb_spec e 971); [lia|reflexivity].
Qed.

Lemma binary_round_overflow (s : bool) (p : positive) :
  2 ^ 1024 <= Zpos p -> binary_round prec emax s p 0 = S754_infinity s.
Proof.
  intros Hp. unfold binary_round.
  pose proof (digits2_pos_bounds p) as (_ & Hd).
  set (d := Zpos (digits2_pos p)) in *.
  assert (Hd' : 1025 <= d).
  { destruct (Z.le_gt_cases 1025 d) as [L|L]; [exact L|].
    assert (2 ^ d <= 2 ^ 1024) by (apply Z.pow_le_mono_r; lia). lia. }
  assert (Ef : fexp64 (d + 0) = d - 53).
  { rewrite fexp64_eq. lia. }
  rewrite Ef, shl_align_high by lia.
  rewrite binary_round_aux_rne; fold d; rewrite Ef; [|lia].
  apply pack_overflow; [|lia].
  pose proof (digits2_pos_bounds p) as (Hl & _). fold d in Hl.
  destruct (rne_spec (Zpos p) (d - 53 - 0) ltac:(lia) ltac:(lia)) as ((Hq & _) & _).
  assert (1 <= Zpos p / 2 ^ (d - 53 - 0)); [|lia].
  apply Z.div_le_lower_bound; [lia|].
  apply Z.le_trans with (2 ^ (d - 1)); [|exact Hl].
  rewrite Z.mul_1_r. apply Z.pow_le_mono_r; lia.
Qed.

(** From [2^1024] on the conversion fails. *)
Lemma float_of_int_overflow (z : Z) :
  2 ^ 1024 <= Z.abs z -> float_of_int z = Raise OverflowError.
Proof.
  intros Hz. unfold float_of_int.
  destruct z as [|p|p]; cbn [binary_normalize].
  - simpl in Hz. lia.
  - rewrite binary_round_overflow by exact Hz. reflexivity.
  - rewrite binary_round_overflow by exact Hz. reflexivity.
Qed.

Lemma projection_finite (cr : Z) (G : float) :
  Z.abs cr <= 2 ^ 1019 -> within 0 7 G ->
  exists c n a,
    float_of_int cr = Ok c /\
    int_of_float (c * G)%float = Ok n /\
    int_of_float (c * G - c)%float = Ok a.
Proof.
  intros Hcr (FG & BG).
  destruct (float_of_int_rounds cr ltac:(lia)) as (c & Ec & Rc).
  assert (Hcb : (Rabs (IZR cr) <= bpow 1019)%R).
  { rewrite <- abs_IZR, bpow_IZR by lia. apply IZR_le. exact Hcr. }
  pose proof (rounds_bound _ _ 1019 Rc Hcb ltac:(lia)) as Bc.
  assert (Hgb : (Rabs (B2R G) <= bpow 3)%R).
  { rewrite bpow_IZR by lia. simpl in BG. simpl (2 ^ 3). rewrite Rabs_pos_eq; lra. }
  assert (Hv1 : (Rabs (B2R c * B2R G) <= bpow 1022)%R).
  { change 1022 with (1019 + 3). rewrite bpow_add, Rabs_mult.
    pose proof (Rabs_pos (B2R c)). pose proof (Rabs_pos (B2R G)). nra. }
  assert (R1 : rounds (B2R c * B2R G) (c * G)).
  { apply mul_rounds; [apply Rc|exact FG|].
    apply Rle_lt_trans with (bpow 1022); [exact Hv1|apply bpow_lt; lia]. }
  pose proof (rounds_bound _ _ 1022 R1 Hv1 ltac:(lia)) as B1.
  assert (R2 : rounds (B2R (c * G) - B2R c) (c * G - c)).
  { apply sub_rounds; [apply R1|apply Rc|].
    apply Rle_lt_trans with (bpow 1022 + bpow 1019)%R.
    - apply Rle_trans with (Rabs (B2R (c * G)) + Rabs (B2R c))%R; [|lra].
      unfold Rminus. rewrite <- (Rabs_Ropp (B2R c)). apply Rabs_triang.
    - change 1023 with (1 + 1022). rewrite (bpow_add 1 1022).
      replace (bpow 1) with 2%R by (unfold bpow; simpl; ring).
      pose proof (bpow_lt 1019 1022 ltac:(lia)). lra. }
  destruct (int_of_float_trunc (c * G) (proj1 R1)) as (n & En & _).
  destruct (int_of_float_trunc (c * G - c) (proj1 R2)) as (a & Ea & _).
  exists c, n, a. auto.
Qed.

(** X2: with the sliders in their ranges nothing is raised while the
    ridership is at most [2^1019] in magnitude: the calculator returns a
    record and the scenario loop returns its rows. *)
Theorem in_range_never_raises (g : Inputs) :
  sliders_in_range g -> Z.abs (current_ridership g) <= 2 ^ 1019 ->
  (exists r, calculate_ridership_impact g = Ok r) /\
  (exists rows, scenario_results g = Ok rows).
Proof.
  intros Hg Hcr.
  assert (Hc : exists r, calculate_ridership_impact g = Ok r).
  { destruct (growth_within g Hg) as (FG & BG).
    destruct (projection_finite _ (1 + total_impact g) Hcr) as (c & n & a & Ec & En & Ea).
    { split; [exact FG|]. simpl in *. lra. }
    rewrite calculate_unfold, (raw_impacts_in_range g Hg). cbn [bind].
    rewrite Ec. cbn [bind]. fold (total_impact g). rewrite En. cbn [bind].
    rewrite Ea. eexists. reflexivity. }
  split; [exact Hc|]. destruct Hc as (r & Er).
  rewrite scenario_results_unfold, Er. cbn [bind].
  destruct preset_growth_within as (G1 & G2 & G3).
  assert (W : forall x, within 0 2 x -> within 0 7 x).
  { intros x (F & B). split; [exact F|]. simpl in *. lra. }
  unfold simplified_row.
  destruct (projection_finite _ _ Hcr (W _ G1)) as (c & n1 & _ & Ec & E1 & _).
  destruct (projection_finite _ _ Hcr (W _ G2)) as (c2 & n2 & _ & Ec2 & E2 & _).
  destruct (projection_finite _ _ Hcr (W _ G3)) as (c3 & n3 & _ & Ec3 & E3 & _).
  rewrite Ec in Ec2, Ec3 |- *. injection Ec2 as <-. injection Ec3 as <-.
  cbn [bind]. rewrite E1. cbn [bind]. rewrite E2. cbn [bind]. rewrite E3.
  eexists. reflexivity.
Qed.

Lemma in_range_never_raises_witness :
  sliders_in_range idle_beyond_2p53 /\ Z.abs (current_ridership idle_beyond_2p53) <= 2 ^ 1019 /\
  (exists r, calculate_ridership_impact idle_beyond_2p53 = Ok r) /\
  (exists rows, scenario_results idle_beyond_2p53 = Ok rows).
Proof.
  assert (H1 : sliders_in_range idle_beyond_2p53) by (vm_compute; intuition discriminate).
  assert (H2 : Z.abs (current_ridership idle_beyond_2p53) <= 2 ^ 1019)
    by (vm_compute; discriminate).
  split; [exact H1|]. split; [exact H2|].
  exact (in_range_never_raises idle_beyond_2p53 H1 H2).
Defined.

(** X3: a ridership of [2^1024] or more in magnitude cannot be converted
    to a float: whatever the sliders, the calculator raises
    [OverflowError], and so does the scenario loop, whose first pass calls
    it. *)
Theorem huge_ridership_overflows (g : Inputs) :
  2 ^ 1024 <= Z.abs (current_ridership g) ->
  calculate_ridership_impact g = Raise OverflowError /\
  scenario_results g = Raise OverflowError.
Proof.
  intros Hcr.
  assert (Hc : calculate_ridership_impact g = Raise OverflowError).
  { rewrite calculate_unfold.
    destruct (raw_impacts g) as [rw|e] eqn:E; cbn [bind].
    - rewrite (float_of_int_overflow _ Hcr). reflexivity.
    - rewrite (raw_impacts_raises _ _ E). reflexivity. }
  split; [exact Hc|]. rewrite scenario_results_unfold, Hc. reflexivity.
Qed.

Lemma huge_ridership_overflows_witness :
  2 ^ 1024 <= Z.abs (current_ridership unconvertible) /\
  calculate_ridership_impact unconvertible = Raise OverflowError /\
  scenario_results unconvertible = Raise OverflowError.
Proof.
  assert (H : 2 ^ 1024 <= Z.abs (current_ridership unconvertible))
    by (vm_compute; discriminate).
  split; [exact H|]. exact (huge_ridership_overflows unconvertible H).
Defined.

(** ** The clamp never amplifies *)

Lemma small_repr_frac (x : float) :
  finite x -> (0 <= B2R x < IZR (2 ^ 52))%R ->
  exists M E, B2R x = F2R M E /\ 0 <= M < 2 ^ 53 /\ -1074 <= E <= -1.
Proof.
  intros Fx Hx. apply finite_fin in Fx. unfold B2R in *.
  destruct (Prim2SF x) as [s|s| |s m e]; try (destruct Fx as (_ & Fx); discriminate Fx).
  - exists 0, (-1). cbn [SF2R]. rewrite F2R_0. split; [reflexivity|lia].
  - destruct (fin_canonical _ _ _ Fx) as (Hc & _).
    destruct (canonical_inv _ _ Hc) as (Hd & He & Hn).
    pose proof (digits2_pos_bounds m) as B.
    pose proof (F2R_pos m e) as P.
    cbn [SF2R] in *. rewrite F2R_cond_Zopp in *.
    destruct s; [lra|].
    exists (Zpos m), e. split; [reflexivity|].
    assert (Zpos m < 2 ^ 53).
    { apply Z.lt_le_trans with (2 ^ Zpos (digits2_pos m)); [lia|].
      apply Z.pow_le_mono_r; lia. }
    split; [lia|]. split; [lia|].
    destruct (Z.le_gt_cases e (-1)) as [L|G]; [exact L|exfalso].
    rewrite Hn in B by lia. change (53 - 1) with 52 in B.
    assert (IZR (2 ^ 52) <= F2R (Zpos m) e)%R; [|lra].
    rewrite <- F2R_int.
    replace e with (0 + e) by ring. rewrite <- F2R_shift by lia.
    apply F2R_le.
    assert (2 ^ 0 <= 2 ^ e) by (apply Z.pow_le_mono_r; lia).
    change (2 ^ 0) with 1 in *. nia.
Qed.

Lemma B2R_half : B2R 0.5%float = F2R 1 (-1).
Proof.
  unfold B2R. change (Prim2SF 0.5) with (S754_finite false (2 ^ 52) (-53)).
  cbn [SF2R cond_Zopp].
  change (Zpos (2 ^ 52)) with (1 * 2 ^ 52). rewrite F2R_shift by lia.
  reflexivity.
Qed.

(** Above the knee the excess over 0.5 is computed exactly. *)
Lemma excess_exact (x : float) :
  within 0 5 x -> (B2R 0.5%float <= B2R x)%R ->
  exists y, finite y /\ B2R y = (B2R x - B2R 0.5%float)%R.
Proof.
  intros (Fx & Bx) Hh.
  assert (H52 : (IZR 5 < IZR (2 ^ 52))%R) by (apply IZR_lt; reflexivity).
  destruct (small_repr_frac x Fx) as (M & E & EM & HM & HE).
  { split; [apply Bx|lra]. }
  assert (Eh : B2R 0.5%float = F2R (1 * 2 ^ (-1 - E)) E).
  { rewrite F2R_shift by lia. replace (E + (-1 - E)) with (-1) by ring.
    exact B2R_half. }
  assert (Hle : 1 * 2 ^ (-1 - E) <= M).
  { apply (F2R_le_inv _ _ E). rewrite <- Eh, <- EM. exact Hh. }
  assert (Hnn : 0 <= 1 * 2 ^ (-1 - E)).
  { apply Z.mul_nonneg_nonneg; [lia|]. apply Z.pow_nonneg. lia. }
  assert (Hval : F2R (M - 1 * 2 ^ (-1 - E)) E = (B2R x - B2R 0.5%float)%R).
  { rewrite EM, Eh. unfold F2R. rewrite minus_IZR. ring. }
  rewrite <- Hval. apply representable; [lia|lia|].
  rewrite Hval. destruct half_const as (_ & Bh).
  apply (Rabs_between _ 0 5); [simpl in *; lra|simpl; lia|simpl; lia].
Qed.

Lemma diminishing_returns_le (x : float) :
  within 0 5 x -> (B2R (diminishing_returns x) <= B2R x)%R.
Proof.
  intros Hx. unfold diminishing_returns, float_gt.
  destruct (0.5 <? x)%float eqn:E; [|lra].
  pose proof (clamp_above_half x Hx E) as A.
  destruct (clamp_excess x Hx E) as (Ru & Hu).
  destruct (excess_exact x Hx ltac:(lra)) as (y & Fy & Ey).
  pose proof (rounds_exact _ _ y Ru Fy Ey) as Eu.
  destruct damping_const as (Fd & Bd). destruct half_const as (Fh & Bh).
  destruct Hu as (Fu & Bu). destruct Hx as (Fx & Bx).
  assert (Rw : rounds (B2R (x - 0.5) * B2R 0.7%float) ((x - 0.5) * 0.7)).
  { apply mul_rounds; [exact Fu|exact Fd|].
    apply (Rabs_between _ 0 5); [simpl in *; split; nra|simpl; lia|simpl; lia]. }
  assert (Lw : (B2R ((x - 0.5) * 0.7) <= B2R (x - 0.5))%R).
  { apply (rounds_le _ _ _ Rw Fu). simpl in *. nra. }
  assert (Lw0 : (0 <= B2R ((x - 0.5) * 0.7))%R).
  { apply (rounds_ge_int _ _ 0 Rw ltac:(simpl; lia)). simpl in *. nra. }
  assert (Rs : rounds (B2R 0.5%float + B2R ((x - 0.5) * 0.7)) (0.5 + (x - 0.5) * 0.7)).
  { apply add_rounds; [exact Fh|apply Rw|].
    apply (Rabs_between _ 0 6); [simpl in *; lra|simpl; lia|simpl; lia]. }
  apply (rounds_le _ _ _ Rs Fx). lra.
Qed.

(** X4: on the sums the sliders can produce (0 to 5) the diminishing
    returns step never amplifies: its result is at most the sum, and a sum
    above the 0.5 knee stays at 0.5 or more. *)
Theorem diminishing_returns_dampens (x : float) :
  within 0 5 x ->
  (B2R (diminishing_returns x) <= B2R x)%R /\
  ((B2R 0.5%float < B2R x)%R ->
   (B2R 0.5%float <= B2R (diminishing_returns x))%R).
Proof.
  intros Hx. split; [exact (diminishing_returns_le x Hx)|].
  intros A. unfold diminishing_returns, float_gt.
  assert (E : (0.5 <? x)%float = true).
  { apply ltb_lt; [apply half_const|apply Hx|exact A]. }
  rewrite E. apply clamp_at_least_half; assumption.
Qed.

Lemma diminishing_returns_dampens_witness :
  within 0 5 1 /\
  (B2R (diminishing_returns 1) <= B2R 1)%R /\
  ((B2R 0.5%float < B2R 1)%R ->
   (B2R 0.5%float <= B2R (diminishing_returns 1))%R).
Proof.
  assert (H : within 0 5 1).
  { apply (within_weaken 1 1); [exact one_const|lia|lia]. }
  split; [exact H|]. exact (diminishing_returns_dampens 1 H).
Defined.

(** X5: with the sliders in range, the reported total never exceeds what
    the five unclamped impacts add up to, as a percentage, and it is at
    most 206.8, the total with every slider at its maximum. *)
Theorem total_percentage_bounded (g : Inputs) (r : Results) :
  sliders_in_range g -> calculate_ridership_impact g = Ok r ->
  (total_percentage r <=? sum_impacts (slider_impacts g) * 100)%float = true /\
  (total_percentage r <=? 206.8)%float = true.
Proof.
  intros Hg E. rewrite (calculate_in_range_inv g r Hg E).
  pose proof (total_impact_within g Hg) as T.
  pose proof (percent_within 6 _ T ltac:(simpl; lia)) as P.
  destruct hundred_const as (Fh & Bh).
  assert (M : forall y, within 0 6 y -> (B2R (total_impact g) <= B2R y)%R ->
              (total_impact g * 100 <=? y * 100)%float = true).
  { intros y Hy L.
    pose proof (percent_within 6 _ Hy ltac:(simpl; lia)) as Py.
    apply leb_le; [apply P|apply Py|].
    apply mul_mono_l; try apply T; try apply Hy; try exact Fh; try exact L.
    - apply (Rabs_between _ 0 600); [|simpl; lia|simpl; lia].
      destruct T as (_ & B). simpl in *. nra.
    - apply (Rabs_between _ 0 600); [|simpl; lia|simpl; lia].
      destruct Hy as (_ & B). simpl in *. nra.
    - simpl in Bh. lra. }
  split.
  - pose proof (sum_slider_impacts_within g Hg) as S.
    apply M; [apply (within_weaken _ _ _ _ _ S); lia|].
    apply diminishing_returns_le. exact S.
  - assert (Hf : sliders_in_range (flat_out g)) by (vm_compute; intuition discriminate).
    change 206.8%float with (total_impact (flat_out g) * 100)%float.
    apply M; [exact (total_impact_within _ Hf)|].
    apply total_impact_mono; [exact Hg|exact Hf|].
    destruct Hg as (A1 & A2 & A3 & A4 & A5).
    unfold raised. cbn [flat_out current_ridership freq_improvement wait_reduction
      coverage_improvement cost_reduction integration_improvement]. lia.
Qed.

Lemma total_percentage_bounded_witness :
  sliders_in_range crowded /\
  calculate_ridership_impact crowded =
    Ok (results_of (slider_impacts crowded) 13817043656772678 9313444029402184) /\
  (206.8 <=? sum_impacts (slider_impacts crowded) * 100)%float = true /\
  (206.8 <=? 206.8)%float = true.
Proof.
  assert (H1 : sliders_in_range crowded) by (vm_compute; intuition discriminate).
  assert (H2 : calculate_ridership_impact crowded =
               Ok (results_of (slider_impacts crowded) 13817043656772678 9313444029402184))
    by (vm_compute; reflexivity).
  split; [exact H1|]. split; [exact H2|].
  exact (total_percentage_bounded crowded _ H1 H2).
Defined.

(** ** Monotonicity of the projected ridership *)

Lemma trunc_of_mono (v v' : R) (n n' : Z) :
  trunc_of v n -> trunc_of v' n' -> (v <= v')%R -> n <= n'.
Proof.
  intros (A & B) (A' & B') L.
  destruct (Rle_lt_dec 0 v) as [P|N].
  - specialize (A P). specialize (A' ltac:(lra)).
    assert (n < n' + 1); [|lia]. apply lt_IZR. rewrite plus_IZR. lra.
  - specialize (B ltac:(lra)).
    destruct (Rle_lt_dec 0 v') as [P'|N'].
    + specialize (A' P').
      assert (n < 1) by (apply lt_IZR; lra).
      assert (-1 < n') by (apply lt_IZR; lra). lia.
    + specialize (B' ltac:(lra)).
      assert (n < n' + 1); [|lia]. apply lt_IZR. rewrite plus_IZR. lra.
Qed.

Lemma mul_mono_r (c x x' : float) :
  finite c -> finite x -> finite x' ->
  (Rabs (B2R c * B2R x) < bpow 1023)%R -> (Rabs (B2R c * B2R x') < bpow 1023)%R ->
  (0 <= B2R c)%R ->
  (B2R x <= B2R x')%R -> (B2R (c * x) <= B2R (c * x'))%R.
Proof.
  intros Fc Fx Fx' B B' Hc L.
  pose proof (mul_rounds c x Fc Fx B) as R1.
  pose proof (mul_rounds c x' Fc Fx' B') as R2.
  destruct zero_finite as (F0 & E0).
  destruct (Rle_lt_or_eq_dec _ _ L) as [Lt|E].
  - destruct (Rle_lt_or_eq_dec _ _ Hc) as [Cp|Cz].
    + eapply rounds_lt_mono; [exact R1|exact R2|nra].
    + rewrite (rounds_exact _ _ 0%float R1 F0) by (rewrite E0, <- Cz; ring).
      rewrite (rounds_exact _ _ 0%float R2 F0) by (rewrite E0, <- Cz; ring).
      rewrite <- Cz. lra.
  - destruct (Req_dec (B2R x) 0) as [Z|NZ].
    + rewrite (rounds_exact _ _ 0%float R1 F0) by (rewrite E0, Z; ring).
      rewrite (rounds_exact _ _ 0%float R2 F0) by (rewrite E0, <- E, Z; ring).
      rewrite <- E, Z. lra.
    + rewrite (B2R_inj x x' Fx Fx' E NZ). lra.
Qed.

Lemma product_bound (cr : Z) (c G : float) (hi : Z) :
  Z.abs cr <= 2 ^ 53 -> B2R c = IZR cr -> within 0 hi G -> hi <= 8 ->
  (Rabs (B2R c * B2R G) < bpow 1023)%R.
Proof.
  intros Hcr Vc (FG & BG) Hhi.
  assert (Hcb : (Rabs (B2R c) <= bpow 53)%R).
  { rewrite Vc, <- abs_IZR, bpow_IZR by lia. apply IZR_le. exact Hcr. }
  assert (Hgb : (Rabs (B2R G) <= bpow 3)%R).
  { rewrite bpow_IZR by lia. apply IZR_le in Hhi. simpl in *.
    rewrite Rabs_pos_eq; lra. }
  apply Rle_lt_trans with (bpow 56); [|apply bpow_lt; lia].
  change 56 with (53 + 3). rewrite bpow_add, Rabs_mult.
  pose proof (Rabs_pos (B2R c)). pose proof (Rabs_pos (B2R G)). nra.
Qed.

Lemma growth_mono (g g' : Inputs) :
  sliders_in_range g -> sliders_in_range g' -> raised g g' ->
  (B2R (1 + total_impact g) <= B2R (1 + total_impact g'))%R.
Proof.
  intros Hg Hg' Hr.
  destruct (total_impact_within g Hg) as (FT & BT).
  destruct (total_impact_within g' Hg') as (FT' & BT').
  destruct one_const as (F1 & B1).
  apply add_mono_r; try assumption.
  - apply (Rabs_between _ 0 7); [simpl in *; lra|simpl; lia|simpl; lia].
  - apply (Rabs_between _ 0 7); [simpl in *; lra|simpl; lia|simpl; lia].
  - apply total_impact_mono; assumption.
Qed.

(** X6: with the sliders in range and a ridership between 0 and 2^53,
    raising improvement percentages never lowers the projected ridership
    nor the projected increase. *)
Theorem projection_monotone_in_sliders (g g' : Inputs) (r r' : Results) :
  sliders_in_range g -> sliders_in_range g' -> raised g g' ->
  0 <= current_ridership g <= 2 ^ 53 ->
  calculate_ridership_impact g = Ok r ->
  calculate_ridership_impact g' = Ok r' ->
  new_ridership r <= new_ridership r' /\
  absolute_increase r <= absolute_increase r'.
Proof.
  intros Hg Hg' Hr Hcr E E'.
  pose proof Hr as (Ecr & _).
  destruct (projection_runs g Hg ltac:(lia))
    as (c & n & a & Ec & Fc & Vc & R1 & R2 & Tn & Ta & En).
  destruct (projection_runs g' Hg' ltac:(rewrite Ecr; lia))
    as (c' & n' & a' & Ec' & _ & _ & R1' & R2' & Tn' & Ta' & En').
  rewrite Ecr in Ec', R1', R2'. rewrite Ec in Ec'. injection Ec' as <-.
  rewrite E in En. injection En as ->. rewrite E' in En'. injection En' as ->.
  cbn [results_of new_ridership absolute_increase].
  pose proof (growth_within g Hg) as WG. pose proof (growth_within g' Hg') as WG'.
  assert (H0 : (0 <= B2R c)%R) by (rewrite Vc; apply IZR_le; lia).
  assert (L1 : (B2R (c * (1 + total_impact g)) <= B2R (c * (1 + total_impact g')))%R).
  { apply mul_mono_r; try assumption; try apply WG; try apply WG'.
    - apply (product_bound (current_ridership g) c _ 7); try assumption; try lia.
      apply (within_weaken _ _ _ _ _ WG); lia.
    - apply (product_bound (current_ridership g) c _ 7); try assumption; try lia.
      apply (within_weaken _ _ _ _ _ WG'); lia.
    - apply growth_mono; assumption. }
  split; [exact (trunc_of_mono _ _ _ _ Tn Tn' L1)|].
  apply (trunc_of_mono _ _ _ _ Ta Ta').
  destruct (Rle_lt_or_eq_dec _ _ L1) as [Lt|Eq].
  - eapply rounds_lt_mono; [exact R2|exact R2'|lra].
  - destruct (Req_dec (B2R (c * (1 + total_impact g))) 0) as [Z|NZ].
    + pose proof (projected_at_least g c Hg ltac:(lia) Fc Vc R1) as P.
      destruct zero_finite as (F0 & E0).
      assert (Zc : IZR (current_ridership g) = 0%R) by (rewrite Vc in H0; lra).
      rewrite (rounds_exact _ _ 0%float R2 F0) by (rewrite E0, Z, Zc; ring).
      rewrite (rounds_exact _ _ 0%float R2' F0) by (rewrite E0, <- Eq, Z, Zc; ring).
      lra.
    + rewrite (B2R_inj _ _ (proj1 R1) (proj1 R1') Eq NZ). lra.
Qed.

Lemma projection_monotone_in_sliders_witness :
  new_ridership (results_of (slider_impacts defaults) 175550 75550) <=
  new_ridership (results_of (slider_impacts one_step_further) 176390 76390) /\
  absolute_increase (results_of (slider_impacts defaults) 175550 75550) <=
  absolute_increase (results_of (slider_impacts one_step_further) 176390 76390).
Proof.
  apply (projection_monotone_in_sliders defaults one_step_further).
  - vm_compute; intuition discriminate.
  - vm_compute; intuition discriminate.
  - vm_compute; intuition discriminate.
  - vm_compute; intuition discriminate.
  - vm_compute; reflexivity.
  - vm_compute; reflexivity.
Defined.

Lemma same_sliders_total (g g' : Inputs) :
  same_sliders g g' -> total_impact g' = total_impact g.
Proof.
  intros (E1 & E2 & E3 & E4 & E5). unfold total_impact, slider_impacts.
  rewrite E1, E2, E3, E4, E5. reflexivity.
Qed.

(** X7: with the same in-range sliders, a larger ridership (between 0 and
    2^53) never gives a smaller projected ridership. *)
Theorem new_ridership_monotone_in_ridership (g g' : Inputs) (r r' : Results) :
  sliders_in_range g -> same_sliders g g' ->
  0 <= current_ridership g -> current_ridership g <= current_ridership g' ->
  current_ridership g' <= 2 ^ 53 ->
  calculate_ridership_impact g = Ok r ->
  calculate_ridership_impact g' = Ok r' ->
  new_ridership r <= new_ridership r'.
Proof.
  intros Hg Hs H0 Hle Hhi E E'.
  assert (Hg' : sliders_in_range g').
  { destruct Hs as (E1 & E2 & E3 & E4 & E5). unfold sliders_in_range.
    rewrite E1, E2, E3, E4, E5. exact Hg. }
  destruct (projection_runs g Hg ltac:(lia))
    as (c & n & a & Ec & Fc & Vc & R1 & _ & Tn & _ & En).
  destruct (projection_runs g' Hg' ltac:(lia))
    as (c' & n' & a' & Ec' & Fc' & Vc' & R1' & _ & Tn' & _ & En').
  rewrite (same_sliders_total g g' Hs) in R1', Tn'.
  rewrite E in En. injection En as ->. rewrite E' in En'. injection En' as ->.
  cbn [results_of new_ridership].
  pose proof (growth_within g Hg) as WG.
  apply (trunc_of_mono _ _ _ _ Tn Tn').
  apply mul_mono_l; try assumption; try apply WG.
  - apply (product_bound (current_ridership g) c _ 7); try assumption; try lia.
    apply (within_weaken _ _ _ _ _ WG); lia.
  - apply (product_bound (current_ridership g') c' _ 7); try assumption; try lia.
    apply (within_weaken _ _ _ _ _ WG); lia.
  - destruct WG as (_ & B). simpl in B. lra.
  - rewrite Vc, Vc'. apply IZR_le. exact Hle.
Qed.

Lemma new_ridership_monotone_in_ridership_witness :
  new_ridership (results_of (slider_impacts defaults) 175550 75550) <=
  new_ridership
    (results_of (slider_impacts (Build_Inputs 250000 1 2 50 30 25 15 40))
       438875 188875).
Proof.
  apply (new_ridership_monotone_in_ridership
           defaults (Build_Inputs 250000 1 2 50 30 25 15 40)).
  - vm_compute; intuition discriminate.
  - vm_compute; intuition reflexivity.
  - vm_compute; discriminate.
  - vm_compute; discriminate.
  - vm_compute; discriminate.
  - vm_compute; reflexivity.
  - vm_compute; reflexivity.
Defined.

(** ** The scenario table *)

Lemma preset_growth_ordered :
  (B2R 1 <= B2R (1 + 15 * 0.004)%float)%R /\
  (B2R (1 + 15 * 0.004)%float <= B2R (1 + 35 * 0.004)%float)%R /\
  (B2R (1 + 35 * 0.004)%float <= B2R (1 + 60 * 0.004)%float)%R.
Proof.
  destruct preset_growth_within as ((F1 & _) & (F2 & _) & (F3 & _)).
  destruct one_const as (F0 & _).
  repeat split; apply leb_le; try assumption; reflexivity.
Qed.

(** X8: with the sliders in range and a ridership between 0 and 2^53 the
    scenario table has its four rows in the order of the presets, and the
    ridership column never decreases down the table, starting from the
    current ridership. *)
Theorem scenario_table_is_ordered (g : Inputs) :
  sliders_in_range g -> 0 <= current_ridership g <= 2 ^ 53 ->
  exists b m c,
    scenario_results g = Ok [current_row (current_ridership g); b; m; c] /\
    map Scenario [current_row (current_ridership g); b; m; c] =
      map fst scenarios /\
    current_ridership g <= Ridership b /\
    Ridership b <= Ridership m /\
    Ridership m <= Ridership c.
Proof.
  intros Hg Hcr. assert (Ha : Z.abs (current_ridership g) <= 2 ^ 53) by lia.
  rewrite scenario_results_unfold.
  destruct (projection_runs g Hg Ha) as (c0 & n & a & Ec0 & Fc & Vc & _ & _ & _ & _ & ->).
  destruct preset_growth_within as (G1 & G2 & G3).
  destruct preset_growth_ordered as (O1 & O2 & O3).
  destruct (simplified_row_runs _ "Basic Improvement" 15 Ha G1)
    as (c1 & n1 & E1 & _ & T1 & ->).
  destruct (simplified_row_runs _ "Moderate Improvement" 35 Ha G2)
    as (c2 & n2 & E2 & _ & T2 & ->).
  destruct (simplified_row_runs _ "Comprehensive Improvement" 60 Ha G3)
    as (c3 & n3 & E3 & _ & T3 & ->).
  rewrite Ec0 in E1, E2, E3.
  injection E1 as <-. injection E2 as <-. injection E3 as <-.
  cbn [bind]. eexists _, _, _. split; [reflexivity|]. split; [reflexivity|].
  cbn [Ridership].
  assert (H0 : (0 <= B2R c0)%R) by (rewrite Vc; apply IZR_le; lia).
  assert (PB : forall G, within 0 2 G -> (Rabs (B2R c0 * B2R G) < bpow 1023)%R).
  { intros G HG. apply (product_bound (current_ridership g) c0 G 2); try assumption; lia. }
  assert (R1 : rounds (B2R c0 * B2R (1 + 15 * 0.004)%float) (c0 * (1 + 15 * 0.004))%float).
  { apply mul_rounds; [exact Fc|apply G1|apply PB; exact G1]. }
  split; [|split].
  - apply (trunc_of_ge _ _ _ T1).
    + apply (rounds_ge_int _ _ 0 R1); [simpl; lia|].
      rewrite B2R_1 in O1. nra.
    + rewrite <- Vc. apply (rounds_ge _ _ c0 R1 Fc).
      rewrite B2R_1 in O1. nra.
  - apply (trunc_of_mono _ _ _ _ T1 T2).
    apply mul_mono_r; try assumption; try apply G1; try apply G2; apply PB; assumption.
  - apply (trunc_of_mono _ _ _ _ T2 T3).
    apply mul_mono_r; try assumption; try apply G2; try apply G3; apply PB; assumption.
Qed.

Lemma scenario_table_is_ordered_witness :
  exists b m c,
    scenario_results defaults = Ok [current_row (current_ridership defaults); b; m; c] /\
    map Scenario [current_row (current_ridership defaults); b; m; c] =
      map fst scenarios /\
    current_ridership defaults <= Ridership b /\
    Ridership b <= Ridership m /\
    Ridership m <= Ridership c.
Proof.
  apply (scenario_table_is_ordered defaults).
  - vm_compute; intuition discriminate.
  - vm_compute; intuition discriminate.
Defined.

(** ** The headline figures agree *)

Lemma scaled_error (x e B b : R) :
  (0 <= x <= B)%R -> (Rabs e <= b)%R -> (- (B * b) <= x * e <= B * b)%R.
Proof.
  intros Hx He. apply Rabs_le_between in He.
  assert (0 <= b)%R by lra. split; nra.
Qed.

(** X9: with the sliders in range and a ridership between 0 and 2^50,
    the reported increase in passengers is within 3 of the current
    ridership times the reported percentage over 100. *)
Theorem increase_matches_percentage (g : Inputs) (r : Results) :
  sliders_in_range g -> 0 <= current_ridership g <= 2 ^ 50 ->
  calculate_ridership_impact g = Ok r ->
  (Rabs (IZR (absolute_increase r) -
         IZR (current_ridership g) * B2R (total_percentage r) / 100) < 3)%R.
Proof.
  intros Hg Hcr E.
  destruct (projection_runs g Hg ltac:(lia))
    as (c & n & a & Ec & Fc & Vc & R1 & R2 & Tn & Ta & En).
  rewrite E in En. injection En as ->.
  cbn [results_of total_percentage absolute_increase]. fold (total_impact g).
  pose proof (total_impact_within g Hg) as (FT & BT).
  pose proof (growth_within g Hg) as (FG & BG).
  destruct one_const as (F1 & B1). destruct hundred_const as (Fh & Bh).
  set (T := total_impact g) in *. set (cr := current_ridership g) in *.
  assert (H0 : (0 <= IZR cr <= bpow 50)%R).
  { rewrite bpow_IZR by lia. split; apply IZR_le; lia. }
  (* the three rounding errors *)
  assert (E1 : (Rabs (B2R (1 + T) - (B2R 1 + B2R T)) <= bpow (3 - 54))%R).
  { apply (add_error 1 6 3 1 T); [apply (within_weaken 1 1); [exact one_const|lia|lia]
                                 |split; assumption|simpl; lia|lia]. }
  assert (E2 : (Rabs (B2R (c * (1 + T)) - IZR cr * B2R (1 + T)) <= bpow (53 - 54))%R).
  { apply rounds_error; [exact R1| |lia].
    rewrite Rabs_pos_eq by (simpl in BG; nra).
    change 53 with (50 + 3). rewrite bpow_add.
    replace (bpow 3) with 8%R by (unfold bpow; simpl; ring).
    simpl in BG. nra. }
  assert (E3 : (Rabs (B2R (T * 100) - B2R T * B2R 100) <= bpow (10 - 54))%R).
  { apply (mul_error 6 100 10 T 100); [split; assumption|
      apply (within_weaken 100 100); [exact hundred_const|lia|lia]|simpl; lia|lia]. }
  (* the difference is exact *)
  pose proof (projected_at_least g c Hg ltac:(lia) Fc Vc R1) as Lnr.
  fold T cr in Lnr.
  assert (Hhi : (B2R (c * (1 + T)) <= IZR (7 * 2 ^ 50))%R).
  { apply (rounds_le_int _ _ (7 * 2 ^ 50) R1); [simpl; lia|].
    rewrite mult_IZR, <- (bpow_IZR 50) by lia. simpl in BG. nra. }
  assert (Hlt : (IZR (7 * 2 ^ 50) < IZR (2 ^ 53))%R) by (apply IZR_lt; simpl; lia).
  destruct (exact_difference (c * (1 + T))%float cr) as (y & Fy & Ey);
    [apply R1|lia|lra|].
  rewrite (rounds_exact _ _ y R2 Fy Ey) in Ta.
  destruct Ta as (Ta & _). specialize (Ta ltac:(lra)).
  (* putting the errors together *)
  pose proof (scaled_error _ _ _ _ H0 E1) as S1.
  pose proof (scaled_error _ _ _ _ H0 E3) as S3.
  apply Rabs_le_between in E2.
  rewrite <- bpow_add in S1, S3.
  change (50 + (3 - 54)) with (-1) in S1. change (50 + (10 - 54)) with 6 in S3.
  change (53 - 54) with (-1) in E2.
  replace (bpow (-1)) with (/ 2)%R in * by (unfold bpow; simpl; field).
  replace (bpow 6) with 64%R in * by (unfold bpow; simpl; ring).
  rewrite B2R_1 in S1. simpl in Bh.
  assert (Eh : B2R 100 = 100%R) by lra. rewrite Eh in S3.
  apply Rabs_def1; lra.
Qed.

Lemma increase_matches_percentage_witness :
  (Rabs (IZR (absolute_increase (results_of (slider_impacts defaults) 175550 75550)) -
         IZR (current_ridership defaults) *
         B2R (total_percentage (results_of (slider_impacts defaults) 175550 75550)) /
         100) < 3)%R.
Proof.
  apply (increase_matches_percentage defaults).
  - vm_compute; intuition discriminate.
  - vm_compute; intuition discriminate.
  - vm_compute; reflexivity.
Defined.

(** ** A negative ridership mirrors the results *)

Lemma binary_round_aux_opp (s : bool) (m e : Z) (l : location) :
  binary_round_aux prec emax (negb s) m e l =
  SFopp (binary_round_aux prec emax s m e l).
Proof.
  unfold binary_round_aux.
  destruct (shr_fexp prec emax m e l) as (mrs', e').
  destruct (shr_fexp prec emax _ e' loc_Exact) as (mrs'', e'').
  destruct (shr_m mrs''); try reflexivity.
  destruct (e'' <=? emax - prec)%Z; reflexivity.
Qed.

Lemma binary_round_opp (s : bool) (m : positive) (e : Z) :
  binary_round prec emax (negb s) m e = SFopp (binary_round prec emax s m e).
Proof.
  unfold binary_round. destruct (shl_align m e _) as (mz, ez).
  apply binary_round_aux_opp.
Qed.

Lemma opposite_opp (x : spec_float) : opposite x (SFopp x).
Proof. left. reflexivity. Qed.

Lemma binary_normalize_opp (M e : Z) :
  opposite (binary_normalize prec emax M e false)
           (binary_normalize prec emax (- M) e false).
Proof.
  destruct M as [|p|p]; cbn [Z.opp binary_normalize].
  - right. exists false, false. split; reflexivity.
  - left. apply (binary_round_opp false).
  - left. apply (binary_round_opp true).
Qed.

Lemma SFmul_opposite (x x' y : spec_float) :
  opposite x x' -> opposite (SFmul prec emax x y) (SFmul prec emax x' y).
Proof.
  intros [->|(s & s' & -> & ->)].
  - left. destruct x as [sx|sx| |sx mx ex], y as [sy|sy| |sy my ey];
      cbn [SFmul SFopp]; try reflexivity;
      try (destruct sx, sy; reflexivity).
    rewrite <- binary_round_aux_opp. destruct sx, sy; reflexivity.
  - destruct y as [sy|sy| |sy my ey]; cbn [SFmul].
    + right. eexists _, _. split; reflexivity.
    + left. reflexivity.
    + left. reflexivity.
    + right. eexists _, _. split; reflexivity.
Qed.

Lemma SFsub_opposite (x x' y y' : spec_float) :
  opposite x x' -> opposite y y' ->
  opposite (SFsub prec emax x y) (SFsub prec emax x' y').
Proof.
  assert (Z : forall s, opposite (S754_zero s) (S754_zero false) /\
                        opposite (S754_zero false) (S754_zero s) /\
                        opposite (S754_zero s) (S754_zero true) /\
                        opposite (S754_zero true) (S754_zero s)).
  { intros s. repeat split; right; eexists _, _; split; reflexivity. }
  intros [->|(s & s' & -> & ->)] [->|(t & t' & -> & ->)].
  - destruct x as [sx|sx| |sx mx ex], y as [sy|sy| |sy my ey];
      cbn [SFsub SFopp]; try (left; reflexivity);
      try (destruct sx, sy; cbn [negb]; first [left; reflexivity | apply Z]).
    set (ez := IntDef.Z.min ex ey).
    set (A := Zpos (fst (shl_align mx ex ez))). set (B := Zpos (fst (shl_align my ey ez))).
    replace (cond_Zopp (negb sx) A - cond_Zopp (negb sy) B)
      with (- (cond_Zopp sx A - cond_Zopp sy B)).
    + apply binary_normalize_opp.
    + destruct sx, sy; cbn [cond_Zopp negb]; lia.
  - destruct x as [sx|sx| |sx mx ex]; cbn [SFsub SFopp];
      try (left; reflexivity);
      destruct sx, t, t'; cbn [negb]; first [left; reflexivity | apply Z].
  - destruct y as [sy|sy| |sy my ey]; cbn [SFsub SFopp];
      try (left; reflexivity);
      destruct s, s', sy; cbn [negb]; first [left; reflexivity | apply Z].
  - destruct s, s', t, t'; apply Z.
Qed.

Lemma int_of_float_opposite (x x' : float) :
  opposite (Prim2SF x) (Prim2SF x') ->
  int_of_float x' = (n <- int_of_float x ;; Ok (- n)).
Proof.
  unfold int_of_float. intros [->|(s & s' & -> & ->)]; [|reflexivity].
  destruct (Prim2SF x) as [s|s| |s m e]; cbn [SFopp bind]; try reflexivity.
  destruct s; cbn [negb cond_Zopp]; f_equal; lia.
Qed.

Lemma float_of_int_opposite (z : Z) :
  match float_of_int z, float_of_int (- z) with
  | Ok c, Ok c' => opposite (Prim2SF c) (Prim2SF c')
  | Raise e, Raise e' => e = e'
  | _, _ => False
  end.
Proof.
  unfold float_of_int.
  pose proof (binary_normalize_opp z 0) as H.
  pose proof (binary_normalize_valid z 0) as V.
  pose proof (binary_normalize_valid (- z) 0) as V'.
  destruct H as [E|(s & s' & E & E')].
  - rewrite E in V' |- *.
    destruct (binary_normalize prec emax z 0 false) as [s|s| |s m e];
      cbn [SFopp] in *; try reflexivity;
      rewrite !Prim2SF_SF2Prim by assumption; left; reflexivity.
  - rewrite E in V |- *. rewrite E' in V' |- *.
    rewrite !Prim2SF_SF2Prim by assumption. right. eexists _, _. split; reflexivity.
Qed.

Lemma mul_opposite (c c' G : float) :
  opposite (Prim2SF c) (Prim2SF c') ->
  opposite (Prim2SF (c * G)) (Prim2SF (c' * G)).
Proof. intros H. rewrite !mul_spec. apply SFmul_opposite. exact H. Qed.

Lemma sub_opposite (x x' c c' : float) :
  opposite (Prim2SF x) (Prim2SF x') -> opposite (Prim2SF c) (Prim2SF c') ->
  opposite (Prim2SF (x - c)) (Prim2SF (x' - c')).
Proof. intros H K. rewrite !sub_spec. apply SFsub_opposite; assumption. Qed.

Lemma simplified_row_mirrored (cr : Z) (name : string) (P : float) :
  simplified_row (- cr) name P =
  (w <- simplified_row cr name P ;; Ok (mirrored_row w)).
Proof.
  unfold simplified_row. pose proof (float_of_int_opposite cr) as H.
  destruct (float_of_int cr) as [c|e], (float_of_int (- cr)) as [c'|e'];
    try contradiction; cbn [bind]; [|congruence].
  rewrite (int_of_float_opposite _ _ (mul_opposite c c' _ H)).
  destruct (int_of_float (c * _)); reflexivity.
Qed.

(** X10: negating the ridership negates [new_ridership] and
    [absolute_increase] and changes nothing else, in the calculator and
    in every row of the scenario table; an input that raises still raises
    the same exception. *)
Theorem negative_ridership_mirrors (g : Inputs) :
  calculate_ridership_impact (mirrored_inputs g) =
    (r <- calculate_ridership_impact g ;; Ok (mirrored_results r)) /\
  scenario_results (mirrored_inputs g) =
    (rows <- scenario_results g ;; Ok (map mirrored_row rows)).
Proof.
  assert (Hc : calculate_ridership_impact (mirrored_inputs g) =
               (r <- calculate_ridership_impact g ;; Ok (mirrored_results r))).
  { rewrite !calculate_unfold.
    change (raw_impacts (mirrored_inputs g)) with (raw_impacts g).
    destruct (raw_impacts g) as [rw|e]; cbn [bind]; [|reflexivity].
    change (current_ridership (mirrored_inputs g)) with (- current_ridership g).
    pose proof (float_of_int_opposite (current_ridership g)) as H.
    destruct (float_of_int (current_ridership g)) as [c|e],
             (float_of_int (- current_ridership g)) as [c'|e'];
      try contradiction; cbn [bind]; [|congruence].
    pose proof (mul_opposite c c' (1 + diminishing_returns (sum_impacts rw)) H) as H1.
    rewrite (int_of_float_opposite _ _ H1).
    rewrite (int_of_float_opposite _ _ (sub_opposite _ _ _ _ H1 H)).
    destruct (int_of_float (c * _)); cbn [bind]; [|reflexivity].
    destruct (int_of_float (c * _ - c)); reflexivity. }
  split; [exact Hc|].
  rewrite !scenario_results_unfold, Hc.
  change (current_ridership (mirrored_inputs g)) with (- current_ridership g).
  destruct (calculate_ridership_impact g) as [r|e]; cbn [bind]; [|reflexivity].
  rewrite !simplified_row_mirrored.
  destruct (simplified_row _ "Basic Improvement" _); cbn [bind]; [|reflexivity].
  destruct (simplified_row _ "Moderate Improvement" _); cbn [bind]; [|reflexivity].
  destruct (simplified_row _ "Comprehensive Improvement" _); reflexivity.
Qed.

(** ** Every step of a slider shows in the total *)

Lemma B2R_step : B2R 0.001953125%float = (/ 512)%R.
Proof.
  unfold B2R. change (Prim2SF 0.001953125) with (S754_finite false (2 ^ 52) (-61)).
  cbn [SF2R cond_Zopp].
  change (Zpos (2 ^ 52)) with (1 * 2 ^ 52). rewrite F2R_shift by lia.
  unfold F2R, bpow. simpl. field.
Qed.

Lemma B2R_half_value : B2R 0.5%float = (/ 2)%R.
Proof. rewrite B2R_half. unfold F2R, bpow. simpl. field. Qed.

Lemma bpow_m51_small : (0 < bpow (-51) <= / 1048576)%R.
Proof.
  split; [apply bpow_pos|].
  apply Rle_trans with (bpow (-20)); [apply bpow_le; lia|].
  unfold bpow. simpl. lra.
Qed.

Lemma lever_gap (c : float) (hi p p' : Z) :
  lever_table_ok c hi = true -> lever_steps_ok c hi = true ->
  0 <= p -> p < p' -> p' <= hi ->
  (B2R (lever p c) + / 1024 <= B2R (lever p' c))%R.
Proof.
  intros T S H0 Hlt Hhi.
  destruct (proj1 (lever_table c hi T) p ltac:(lia)) as (_ & _ & _ & Fp & Bp).
  destruct (proj1 (lever_table c hi T) (p + 1) ltac:(lia)) as (_ & _ & _ & Fp' & Bp').
  apply Rle_trans with (B2R (lever (p + 1) c));
    [|apply (lever_mono c hi); [exact T|lia|lia|lia]].
  unfold lever_steps_ok in S. rewrite forallb_forall in S.
  specialize (S p (In_Zseq (Z.to_nat hi) 0 p ltac:(rewrite Z2Nat.id by lia; lia))).
  assert (Fd : finite 0.001953125%float) by reflexivity.
  assert (W1 : within 0 1 (lever p c)) by (split; assumption).
  assert (W2 : within 0 1 0.001953125%float).
  { split; [exact Fd|]. rewrite B2R_step. simpl. lra. }
  pose proof (add_error 1 1 1 _ _ W1 W2 ltac:(simpl; lia) ltac:(lia)) as Er.
  pose proof (add_within _ _ _ _ _ _ W1 W2 ltac:(simpl; lia) ltac:(simpl; lia)) as (Fs & _).
  apply (leb_le _ _ Fs Fp') in S.
  apply Rabs_le_between in Er. rewrite B2R_step in Er.
  assert (bpow (1 - 54) <= / 1024)%R.
  { apply Rle_trans with (bpow (-10)); [apply bpow_le; lia|].
    unfold bpow. simpl. lra. }
  lra.
Qed.

Lemma sum_impacts_error (r : Impacts) :
  within 0 1 (raw_freq r) -> within 0 1 (raw_wait r) ->
  within 0 1 (raw_coverage r) -> within 0 1 (raw_cost r) ->
  within 0 1 (raw_integration r) ->
  (Rabs (B2R (sum_impacts r) -
         (B2R (raw_freq r) + B2R (raw_wait r) + B2R (raw_coverage r) +
          B2R (raw_cost r) + B2R (raw_integration r))) <= 4 * bpow (-51))%R.
Proof.
  intros H1 H2 H3 H4 H5. unfold sum_impacts.
  pose proof (add_within _ _ _ _ _ _ H1 H2 ltac:(simpl; lia) ltac:(simpl; lia)) as S1.
  pose proof (add_within _ _ _ _ _ _ S1 H3 ltac:(simpl; lia) ltac:(simpl; lia)) as S2.
  pose proof (add_within _ _ _ _ _ _ S2 H4 ltac:(simpl; lia) ltac:(simpl; lia)) as S3.
  simpl in S1, S2, S3.
  pose proof (add_error 1 1 3 _ _ H1 H2 ltac:(simpl; lia) ltac:(lia)) as E1.
  pose proof (add_error 2 1 3 _ _ S1 H3 ltac:(simpl; lia) ltac:(lia)) as E2.
  pose proof (add_error 3 1 3 _ _ S2 H4 ltac:(simpl; lia) ltac:(lia)) as E3.
  pose proof (add_error 4 1 3 _ _ S3 H5 ltac:(simpl; lia) ltac:(lia)) as E4.
  change (3 - 54) with (-51) in *.
  apply Rabs_le_between in E1, E2, E3, E4.
  apply Rabs_le. lra.
Qed.

Lemma diminishing_returns_gap (x x' : float) (gap : R) :
  within 0 5 x -> within 0 5 x' -> (0 <= gap)%R ->
  (B2R x + gap <= B2R x')%R ->
  (B2R (diminishing_returns x) + gap / 2 - 4 * bpow (-51) <=
   B2R (diminishing_returns x'))%R.
Proof.
  intros Hx Hx' Hg L.
  pose proof bpow_m51_small as (Ep & _).
  destruct half_const as (Fh & _). pose proof B2R_half_value as Vh.
  destruct damping_const as (Fd & Bd).
  assert (Dh : (/ 2 <= B2R 0.7%float)%R).
  { rewrite <- Vh. apply leb_le; [exact Fh|exact Fd|reflexivity]. }
  assert (Above : forall y, within 0 5 y -> (0.5 <? y)%float = true ->
            (Rabs (B2R (0.5 + (y - 0.5) * 0.7) -
                   (/ 2 + (B2R y - / 2) * B2R 0.7%float)) <= 2 * bpow (-51))%R).
  { intros y Hy E.
    pose proof (clamp_above_half y Hy E) as A.
    destruct (clamp_excess y Hy E) as (Ru & Hu).
    destruct (excess_exact y Hy ltac:(lra)) as (z & Fz & Ez).
    pose proof (rounds_exact _ _ z Ru Fz Ez) as Eu.
    pose proof (mul_error 5 1 3 _ _ Hu damping_const ltac:(simpl; lia) ltac:(lia)) as E1.
    pose proof (clamp_damped y Hy E) as Hw.
    pose proof (add_error 1 5 3 _ _ half_const Hw ltac:(simpl; lia) ltac:(lia)) as E2.
    change (3 - 54) with (-51) in *.
    apply Rabs_le_between in E1, E2. rewrite Eu, Vh in *.
    apply Rabs_le. lra. }
  unfold diminishing_returns, float_gt.
  destruct (0.5 <? x)%float eqn:E; destruct (0.5 <? x')%float eqn:E'.
  - pose proof (Above x Hx E) as A1. pose proof (Above x' Hx' E') as A2.
    apply Rabs_le_between in A1, A2. simpl in Bd. nra.
  - exfalso. pose proof (clamp_above_half x Hx E) as A.
    assert (~ (B2R 0.5%float < B2R x')%R).
    { intros C. apply (ltb_lt _ _ Fh (proj1 Hx')) in C. congruence. }
    lra.
  - pose proof (Above x' Hx' E') as A2. apply Rabs_le_between in A2.
    assert (B2R x <= / 2)%R.
    { rewrite <- Vh. apply Rnot_lt_le. intros C.
      apply (ltb_lt _ _ Fh (proj1 Hx)) in C. congruence. }
    simpl in Bd. nra.
  - lra.
Qed.

Lemma freq_steps : lever_steps_ok 0.5 200 = true.
Proof. vm_compute. reflexivity. Qed.

Lemma wait_steps : lever_steps_ok 0.8 80 = true.
Proof. vm_compute. reflexivity. Qed.

Lemma coverage_steps : lever_steps_ok 0.3 100 = true.
Proof. vm_compute. reflexivity. Qed.

Lemma cost_steps : lever_steps_ok 0.4 50 = true.
Proof. vm_compute. reflexivity. Qed.

Lemma integration_steps : lever_steps_ok 0.6 100 = true.
Proof. vm_compute. reflexivity. Qed.

Lemma lever_gap_or_mono (c : float) (hi p p' : Z) :
  lever_table_ok c hi = true -> lever_steps_ok c hi = true ->
  0 <= p -> p <= p' -> p' <= hi ->
  (B2R (lever p c) <= B2R (lever p' c))%R /\
  (p < p' -> (B2R (lever p c) + / 1024 <= B2R (lever p' c))%R).
Proof.
  intros T S H0 Hle Hhi. split.
  - apply (lever_mono c hi); assumption.
  - intros Hlt. apply (lever_gap c hi); assumption.
Qed.

Lemma total_impact_gap (g g' : Inputs) :
  sliders_in_range g -> sliders_in_range g' -> strictly_raised g g' ->
  (B2R (total_impact g) + / 4096 <= B2R (total_impact g'))%R.
Proof.
  intros Hg Hg' ((_ & L1 & L2 & L3 & L4 & L5) & Hs).
  destruct (slider_impacts_within g Hg) as (H1 & H2 & H3 & H4 & H5).
  destruct (slider_impacts_within g' Hg') as (H1' & H2' & H3' & H4' & H5').
  pose proof (sum_impacts_error _ H1 H2 H3 H4 H5) as Er.
  pose proof (sum_impacts_error _ H1' H2' H3' H4' H5') as Er'.
  pose proof (sum_slider_impacts_within g Hg) as S.
  pose proof (sum_slider_impacts_within g' Hg') as S'.
  destruct Hg as (A1 & A2 & A3 & A4 & A5). destruct Hg' as (A1' & A2' & A3' & A4' & A5').
  cbn [slider_impacts raw_freq raw_wait raw_coverage raw_cost raw_integration] in Er, Er'.
  destruct (lever_gap_or_mono _ 200 _ _ freq_table freq_steps (proj1 A1) L1 (proj2 A1'))
    as (M1 & G1).
  destruct (lever_gap_or_mono _ 80 _ _ wait_table wait_steps (proj1 A2) L2 (proj2 A2'))
    as (M2 & G2).
  destruct (lever_gap_or_mono _ 100 _ _ coverage_table coverage_steps (proj1 A3) L3 (proj2 A3'))
    as (M3 & G3).
  destruct (lever_gap_or_mono _ 50 _ _ cost_table cost_steps (proj1 A4) L4 (proj2 A4'))
    as (M4 & G4).
  destruct (lever_gap_or_mono _ 100 _ _ integration_table integration_steps
              (proj1 A5) L5 (proj2 A5')) as (M5 & G5).
  apply Rabs_le_between in Er, Er'.
  pose proof bpow_m51_small as (Ep & Es).
  assert (Hgap : (B2R (sum_impacts (slider_impacts g)) + (/ 1024 - 8 * bpow (-51)) <=
                  B2R (sum_impacts (slider_impacts g')))%R).
  { destruct Hs as [K|[K|[K|[K|K]]]];
      [specialize (G1 K)|specialize (G2 K)|specialize (G3 K)|specialize (G4 K)
       |specialize (G5 K)]; lra. }
  pose proof (diminishing_returns_gap _ _ (/ 1024 - 8 * bpow (-51)) S S'
                ltac:(lra) Hgap) as D.
  unfold total_impact. lra.
Qed.

(** X11: with the sliders in range, raising at least one of them by a
    step and lowering none strictly raises [total_percentage], by more
    than 0.02 percentage points. *)
Theorem total_percentage_strictly_monotone (g g' : Inputs) (r r' : Results) :
  sliders_in_range g -> sliders_in_range g' -> strictly_raised g g' ->
  calculate_ridership_impact g = Ok r ->
  calculate_ridership_impact g' = Ok r' ->
  (total_percentage r <? total_percentage r')%float = true /\
  (B2R (total_percentage r) + 2 / 100 < B2R (total_percentage r'))%R.
Proof.
  intros Hg Hg' Hr E E'.
  rewrite (calculate_in_range_inv g r Hg E), (calculate_in_range_inv g' r' Hg' E').
  pose proof (total_impact_within g Hg) as T.
  pose proof (total_impact_within g' Hg') as T'.
  pose proof (percent_within 6 _ T ltac:(simpl; lia)) as P.
  pose proof (percent_within 6 _ T' ltac:(simpl; lia)) as P'.
  assert (W : within 0 100 100%float).
  { apply (within_weaken 100 100); [exact hundred_const|lia|lia]. }
  pose proof (mul_error 6 100 10 _ _ T W ltac:(simpl; lia) ltac:(lia)) as E1.
  pose proof (mul_error 6 100 10 _ _ T' W ltac:(simpl; lia) ltac:(lia)) as E2.
  pose proof (total_impact_gap g g' Hg Hg' Hr) as Gp.
  destruct hundred_const as (_ & Bh). simpl in Bh.
  assert (Eh : B2R 100 = 100%R) by lra. rewrite Eh in *.
  assert (bpow (10 - 54) <= / 1024)%R.
  { apply Rle_trans with (bpow (-10)); [apply bpow_le; lia|].
    unfold bpow. simpl. lra. }
  apply Rabs_le_between in E1, E2.
  assert (Hlt : (B2R (total_impact g * 100) + 2 / 100 < B2R (total_impact g' * 100))%R)
    by lra.
  split; [|exact Hlt].
  apply ltb_lt; [apply P|apply P'|lra].
Qed.

Lemma total_percentage_strictly_monotone_witness :
  (total_percentage
     (results_of (slider_impacts defaults) 175550 75550) <?
   total_percentage
     (results_of (slider_impacts one_step_further) 176390 76390))%float = true /\
  (B2R (total_percentage (results_of (slider_impacts defaults) 175550 75550)) +
   2 / 100 <
   B2R (total_percentage
          (results_of (slider_impacts one_step_further) 176390 76390)))%R.
Proof.
  apply (total_percentage_strictly_monotone defaults one_step_further).
  - vm_compute; intuition discriminate.
  - vm_compute; intuition discriminate.
  - split; [vm_compute; intuition discriminate|].
    right; left. vm_compute. reflexivity.
  - vm_compute; reflexivity.
  - vm_compute; reflexivity.
Defined.

(** ** The two columns of the scenario table agree *)

Lemma preset_consistent (P : float) (pct mG : positive) :
  Prim2SF (1 + P * 0.004)%float = S754_finite false mG (-52) ->
  Prim2SF (P * 0.4)%float = Prim2SF (of_uint63 (Uint63.of_Z (Zpos pct))) ->
  Zpos pct <= 2 ^ 53 ->
  Z.abs (100 * Zpos mG - (100 + Zpos pct) * 2 ^ 52) <= 100 ->
  (Rabs (B2R (1 + P * 0.004)%float - (1 + B2R (P * 0.4)%float / 100)) <= bpow (-52))%R.
Proof.
  intros EG EP Hp Hd.
  assert (VP : B2R (P * 0.4)%float = IZR (Zpos pct)).
  { unfold B2R. rewrite EP.
    pose proof (float_of_int_primitive (Zpos pct) ltac:(lia)) as Hprim.
    destruct (B2R_of_int _ _ Hprim ltac:(lia)) as (_ & V). exact V. }
  unfold B2R in *. rewrite EG, VP. cbn [SF2R cond_Zopp]. unfold F2R.
  assert (Hb : (IZR (2 ^ 52) * bpow (-52) = 1)%R).
  { rewrite <- (bpow_IZR 52), <- bpow_add by lia. reflexivity. }
  pose proof (bpow_pos (-52)) as Bp.
  apply Z.abs_le in Hd. destruct Hd as (Hd1 & Hd2).
  apply IZR_le in Hd1, Hd2.
  rewrite opp_IZR in Hd1. rewrite minus_IZR, !mult_IZR, plus_IZR in Hd1, Hd2.
  set (b := bpow (-52)) in *. set (M := IZR (Zpos mG)) in *.
  set (Q := IZR (Zpos pct)) in *. set (K := IZR (2 ^ 52)) in *.
  set (D := (100 * M - (100 + Q) * K)%R) in *.
  replace (M * b - (1 + Q / 100))%R with (b * D / 100)%R.
  - apply Rabs_le.
    assert (0 <= b * (100 - D))%R by (apply Rmult_le_pos; lra).
    assert (0 <= b * (D + 100))%R by (apply Rmult_le_pos; lra).
    split; lra.
  - unfold D. replace (1 + Q / 100)%R with ((1 + Q / 100) * (K * b))%R
      by (rewrite Hb; ring). field.
Qed.

Lemma simplified_row_consistent (cr : Z) (name : string) (P : float) (w : Row) :
  0 <= cr <= 2 ^ 50 -> within 0 2 (1 + P * 0.004)%float ->
  (Rabs (B2R (1 + P * 0.004)%float - (1 + B2R (P * 0.4)%float / 100)) <= bpow (-52))%R ->
  simplified_row cr name P = Ok w ->
  (Rabs (IZR (Ridership w) - IZR cr * (1 + pct_value (Pct_Increase w) / 100)) < 2)%R.
Proof.
  intros Hcr WG HG E.
  destruct (simplified_row_runs cr name P ltac:(lia) WG) as (c & n & Ec & Vc & Tn & Ew).
  rewrite E in Ew. injection Ew as ->. cbn [Ridership Pct_Increase pct_value].
  destruct (B2R_of_int _ _ Ec ltac:(lia)) as (Fc & _).
  destruct WG as (FG & BG). simpl in BG.
  assert (H0 : (0 <= IZR cr <= bpow 50)%R).
  { rewrite bpow_IZR by lia. split; apply IZR_le; lia. }
  assert (R1 : rounds (B2R c * B2R (1 + P * 0.004)%float) (c * (1 + P * 0.004))%float).
  { apply mul_rounds; [exact Fc|exact FG|].
    apply (product_bound cr c _ 2); [lia|exact Vc|split; [exact FG|simpl; lra]|lia]. }
  rewrite Vc in R1.
  assert (E1 : (Rabs (B2R (c * (1 + P * 0.004))%float -
                      IZR cr * B2R (1 + P * 0.004)%float) <= bpow (51 - 54))%R).
  { apply rounds_error; [exact R1| |lia].
    rewrite Rabs_pos_eq by nra.
    change 51 with (50 + 1). rewrite bpow_add.
    replace (bpow 1) with 2%R by (unfold bpow; simpl; ring). nra. }
  assert (Hnn : (0 <= B2R (c * (1 + P * 0.004))%float)%R).
  { apply (rounds_ge_int _ _ 0 R1); [simpl; lia|]. simpl. nra. }
  destruct Tn as (Tn & _). specialize (Tn Hnn).
  pose proof (scaled_error _ _ _ _ H0 HG) as S.
  rewrite <- bpow_add in S. change (50 + -52) with (-2) in S.
  change (51 - 54) with (-3) in E1. apply Rabs_le_between in E1.
  replace (bpow (-2)) with (/ 4)%R in S by (unfold bpow; simpl; field).
  replace (bpow (-3)) with (/ 8)%R in E1 by (unfold bpow; simpl; field).
  apply Rabs_def1; lra.
Qed.

(** X12: for a ridership between 0 and 2^50, every row of the scenario
    table is consistent: its ridership is within 2 of the current
    ridership raised by the percentage shown in the same row. *)
Theorem scenario_rows_are_consistent (g : Inputs) (rows : list Row) (w : Row) :
  0 <= current_ridership g <= 2 ^ 50 ->
  scenario_results g = Ok rows -> In w rows ->
  (Rabs (IZR (Ridership w) -
         IZR (current_ridership g) * (1 + pct_value (Pct_Increase w) / 100)) < 2)%R.
Proof.
  intros Hcr E Hin. rewrite scenario_results_unfold in E.
  destruct (calculate_ridership_impact g) as [r|]; [|discriminate E].
  cbn [bind] in E.
  destruct preset_growth_within as (G1 & G2 & G3).
  destruct (simplified_row _ "Basic Improvement" _) as [b|] eqn:Eb; [|discriminate E].
  cbn [bind] in E.
  destruct (simplified_row _ "Moderate Improvement" _) as [m|] eqn:Em; [|discriminate E].
  cbn [bind] in E.
  destruct (simplified_row _ "Comprehensive Improvement" _) as [c|] eqn:Ec;
    [|discriminate E].
  cbn [bind] in E. injection E as <-.
  destruct Hin as [<-|[<-|[<-|[<-|[]]]]].
  - cbn [current_row Ridership Pct_Increase pct_value].
    replace (IZR (current_ridership g) - IZR (current_ridership g) * (1 + 0 / 100))%R
      with 0%R by field.
    rewrite Rabs_R0. lra.
  - apply (simplified_row_consistent _ "Basic Improvement" 15 _ Hcr G1); [|exact Eb].
    apply (preset_consistent 15 6 4773815605012726); [reflexivity|reflexivity|lia|lia].
  - apply (simplified_row_consistent _ "Moderate Improvement" 35 _ Hcr G2); [|exact Em].
    apply (preset_consistent 35 14 5134103575202366); [reflexivity|reflexivity|lia|lia].
  - apply (simplified_row_consistent _ "Comprehensive Improvement" 60 _ Hcr G3); [|exact Ec].
    apply (preset_consistent 60 24 5584463537939415); [reflexivity|reflexivity|lia|lia].
Qed.

Lemma scenario_rows_are_consistent_witness :
  (Rabs (IZR 124000 - IZR 100000 * (1 + B2R 24 / 100)) < 2)%R.
Proof.
  apply (scenario_rows_are_consistent defaults table_100000
           {| Scenario := "Comprehensive Improvement"; Ridership := 124000;
              Pct_Increase := Float 24 |}).
  - vm_compute; intuition discriminate.
  - vm_compute; reflexivity.
  - right; right; right; left. reflexivity.
Defined.

(** ** Caps on what is reported *)

Lemma percent_mono (x y : float) :
  within 0 6 x -> within 0 6 y -> (B2R x <= B2R y)%R ->
  (x * 100 <=? y * 100)%float = true.
Proof.
  intros Hx Hy L.
  pose proof (percent_within 6 _ Hx ltac:(simpl; lia)) as Px.
  pose proof (percent_within 6 _ Hy ltac:(simpl; lia)) as Py.
  destruct hundred_const as (Fh & Bh).
  apply leb_le; [apply Px|apply Py|].
  apply mul_mono_l; try apply Hx; try apply Hy; try exact Fh; try exact L.
  - apply (Rabs_between _ 0 600); [|simpl; lia|simpl; lia].
    destruct Hx as (_ & B). simpl in *. nra.
  - apply (Rabs_between _ 0 600); [|simpl; lia|simpl; lia].
    destruct Hy as (_ & B). simpl in *. nra.
  - simpl in Bh. lra.
Qed.

Lemma lever_percent_cap (c : float) (hi p : Z) :
  lever_table_ok c hi = true -> 0 <= p <= hi ->
  (lever p c * 100 <=? lever hi c * 100)%float = true.
Proof.
  intros T Hp.
  destruct (proj1 (lever_table c hi T) p Hp) as (_ & _ & _ & Fp & Bp).
  destruct (proj1 (lever_table c hi T) hi ltac:(lia)) as (_ & _ & _ & Fh & Bh).
  apply percent_mono.
  - split; [exact Fp|simpl; lra].
  - split; [exact Fh|simpl; lra].
  - apply (lever_mono c hi); [exact T|lia|lia|lia].
Qed.

(** X13: with the sliders in range no factor reports more than its cap:
    100 for frequency, 64.000000000000014 for wait time, 30 for coverage,
    20 for cost and 60 for integration, the values at the slider maxima. *)
Theorem factor_percentages_capped (g : Inputs) (r : Results) :
  sliders_in_range g -> calculate_ridership_impact g = Ok r ->
  (freq_impact r <=? 100)%float = true /\
  (wait_impact r <=? 64.000000000000014)%float = true /\
  (coverage_impact r <=? 30)%float = true /\
  (cost_impact r <=? 20)%float = true /\
  (integration_impact r <=? 60)%float = true.
Proof.
  intros Hg E.
  destruct (calculate_inv g r E) as (rw & c & Erw & _ & _ & _ & ->).
  rewrite (raw_impacts_in_range g Hg) in Erw. injection Erw as <-.
  destruct Hg as (A1 & A2 & A3 & A4 & A5).
  cbn [results_of slider_impacts freq_impact wait_impact coverage_impact cost_impact
       integration_impact raw_freq raw_wait raw_coverage raw_cost raw_integration].
  repeat split.
  - exact (lever_percent_cap _ 200 _ freq_table A1).
  - exact (lever_percent_cap _ 80 _ wait_table A2).
  - exact (lever_percent_cap _ 100 _ coverage_table A3).
  - exact (lever_percent_cap _ 50 _ cost_table A4).
  - exact (lever_percent_cap _ 100 _ integration_table A5).
Qed.

Lemma factor_percentages_capped_witness :
  sliders_in_range crowded /\
  (freq_impact (results_of (slider_impacts crowded) 13817043656772678 9313444029402184)
     <=? 100)%float = true.
Proof.
  assert (H1 : sliders_in_range crowded) by (vm_compute; intuition discriminate).
  split; [exact H1|].
  apply (factor_percentages_capped crowded _ H1). vm_compute. reflexivity.
Defined.

(** X14: with the sliders in range and a ridership between 0 and 2^51 the
    projection at most quadruples the ridership: [new_ridership] is at most
    four times and [absolute_increase] at most three times the current
    ridership. *)
Theorem projection_at_most_quadruples (g : Inputs) (r : Results) :
  sliders_in_range g -> 0 <= current_ridership g <= 2 ^ 51 ->
  calculate_ridership_impact g = Ok r ->
  new_ridership r <= 4 * current_ridership g /\
  absolute_increase r <= 3 * current_ridership g.
Proof.
  intros Hg Hcr E.
  destruct (projection_runs g Hg ltac:(lia))
    as (c & n & a & Ec & Fc & Vc & R1 & R2 & Tn & Ta & En).
  rewrite E in En. injection En as ->.
  cbn [results_of new_ridership absolute_increase].
  assert (Hf : sliders_in_range (flat_out g)) by (vm_compute; intuition discriminate).
  assert (Hr : raised g (flat_out g)).
  { destruct Hg as (A1 & A2 & A3 & A4 & A5). unfold raised.
    cbn [flat_out current_ridership freq_improvement wait_reduction
         coverage_improvement cost_reduction integration_improvement]. lia. }
  pose proof (growth_mono g (flat_out g) Hg Hf Hr) as GM.
  destruct (growth_within g Hg) as (FG & BG). simpl in BG.
  destruct (B2R_of_int 4 4%float ltac:(reflexivity) ltac:(simpl; lia)) as (F4 & V4).
  assert (G4 : (B2R (1 + total_impact g) <= 4)%R).
  { apply Rle_trans with (B2R (1 + total_impact (flat_out g))); [exact GM|].
    rewrite <- V4. apply leb_le; [apply (growth_within _ Hf)|exact F4|].
    vm_compute. reflexivity. }
  assert (H0 : (0 <= IZR (current_ridership g))%R) by (apply IZR_le; lia).
  pose proof (projected_at_least g c Hg ltac:(lia) Fc Vc R1) as Lnr.
  assert (U1 : (B2R (c * (1 + total_impact g)) <= IZR (4 * current_ridership g))%R).
  { apply (rounds_le_int _ _ _ R1); [lia|]. rewrite mult_IZR. nra. }
  assert (U2 : (B2R (c * (1 + total_impact g) - c) <= IZR (3 * current_ridership g))%R).
  { apply (rounds_le_int _ _ _ R2); [lia|]. rewrite mult_IZR in *. lra. }
  assert (L2 : (0 <= B2R (c * (1 + total_impact g) - c))%R).
  { apply (rounds_ge_int _ _ 0 R2); [simpl; lia|]. lra. }
  destruct Tn as (Tn & _). specialize (Tn ltac:(lra)).
  destruct Ta as (Ta & _). specialize (Ta L2).
  split; apply le_IZR; lra.
Qed.

Lemma projection_at_most_quadruples_witness :
  new_ridership (results_of (slider_impacts defaults) 175550 75550) <=
    4 * current_ridership defaults /\
  absolute_increase (results_of (slider_impacts defaults) 175550 75550) <=
    3 * current_ridership defaults.
Proof.
  apply (projection_at_most_quadruples defaults).
  - vm_compute; intuition discriminate.
  - vm_compute; intuition discriminate.
  - vm_compute; reflexivity.
Defined.

(** * Values of the conversions and of the exact cases *)

(** Rounding when the result is known to be finite. *)
Lemma mul_finite_inv (x y : float) : finite (x * y) -> finite x /\ finite y.
Proof.
  unfold finite. rewrite mul_spec. unfold SF64mul.
  destruct (Prim2SF x) as [sx|sx| |sx mx ex], (Prim2SF y) as [sy|sy| |sy my ey];
    cbn [SFmul is_finite]; intros H; try discriminate H; split; reflexivity.
Qed.

Lemma sub_finite_inv (x y : float) : finite (x - y) -> finite x /\ finite y.
Proof.
  unfold finite. rewrite sub_spec. unfold SF64sub.
  destruct (Prim2SF x) as [sx|sx| |sx mx ex], (Prim2SF y) as [sy|sy| |sy my ey];
    cbn [SFsub is_finite]; intros H; try discriminate H;
    try (split; reflexivity);
    destruct sx, sy; discriminate H.
Qed.

Lemma mul_rounds_fin (x y : float) :
  finite (x * y) -> rounds (B2R x * B2R y) (x * y).
Proof.
  intros Hf. destruct (mul_finite_inv x y Hf) as (Hx & Hy).
  apply nearest_rounds; [exact Hf|].
  unfold finite in Hf. rewrite mul_spec in *.
  apply SFmul_nearest; auto using finite_fin.
Qed.

Lemma sub_rounds_fin (x y : float) :
  finite (x - y) -> rounds (B2R x - B2R y) (x - y).
Proof.
  intros Hf. destruct (sub_finite_inv x y Hf) as (Hx & Hy).
  apply nearest_rounds; [exact Hf|].
  unfold finite in Hf. rewrite sub_spec in *.
  apply SFsub_nearest; auto using finite_fin.
Qed.

Lemma pack_cases (s : bool) (c e : Z) :
  is_finite (pack s c e) = true \/ pack s c e = S754_infinity s.
Proof.
  unfold pack. destruct c as [|p|p]; try (left; reflexivity).
  destruct (p =? 2 ^ 53)%positive.
  - destruct (e + 1 <=? 971); [left|right]; reflexivity.
  - destruct (e <=? 971); [left|right]; reflexivity.
Qed.

Lemma binary_round_cases (s : bool) (m : positive) (e : Z) :
  is_finite (binary_round prec emax s m e) = true \/
  binary_round prec emax s m e = S754_infinity s.
Proof.
  destruct (binary_round_aligned s m e) as (m' & e' & -> & Hn & _).
  rewrite binary_round_aux_rne by exact Hn. apply pack_cases.
Qed.

(** What [float(int)] returns is finite and nearest to the integer. *)
Lemma float_of_int_ok (z : Z) (c : float) :
  float_of_int z = Ok c -> rounds (IZR z) c.
Proof.
  unfold float_of_int.
  pose proof (binary_normalize_valid z 0) as Hv.
  pose proof (binary_normalize_nearest z 0) as Hn. cbv zeta in Hn.
  rewrite F2R_int in Hn.
  assert (Hc : is_finite (binary_normalize prec emax z 0 false) = true \/
               exists s, binary_normalize prec emax z 0 false = S754_infinity s).
  { destruct z as [|p|p]; cbn [binary_normalize].
    - left. reflexivity.
    - destruct (binary_round_cases false p 0); [left|right; eexists]; eassumption.
    - destruct (binary_round_cases true p 0); [left|right; eexists]; eassumption. }
  destruct Hc as [Hf|(s & E)].
  - intros H.
    assert (c = SF2Prim (binary_normalize prec emax z 0 false)) as ->.
    { destruct (binary_normalize prec emax z 0 false); try discriminate Hf;
        injection H as <-; reflexivity. }
    apply nearest_rounds; unfold finite; rewrite Prim2SF_SF2Prim by exact Hv;
      [exact Hf|apply Hn; exact Hf].
  - rewrite E. discriminate.
Qed.

(** Floats of magnitude [2^52] and more are integers. *)
Lemma big_float_integer (x : float) :
  finite x -> (IZR (2 ^ 52) <= Rabs (B2R x))%R -> exists k, B2R x = IZR k.
Proof.
  intros Fx Hx. apply finite_fin in Fx. unfold B2R in *.
  destruct (Prim2SF x) as [s|s| |s m e]; try (destruct Fx as (_ & Fx); discriminate Fx).
  - exists 0. reflexivity.
  - destruct (fin_canonical _ _ _ Fx) as (Hc & _).
    destruct (canonical_inv _ _ Hc) as (Hd & He & Hn).
    pose proof (digits2_pos_bounds m) as B.
    cbn [SF2R] in *. rewrite Rabs_F2R_cond_Zopp in Hx.
    assert (Zpos m < 2 ^ 53).
    { apply Z.lt_le_trans with (2 ^ Zpos (digits2_pos m)); [lia|].
      apply Z.pow_le_mono_r; lia. }
    destruct (Z.le_gt_cases 0 e) as [L|G].
    + exists (cond_Zopp s (Zpos m) * 2 ^ e).
      rewrite <- F2R_int, F2R_shift by exact L. reflexivity.
    + exfalso.
      assert (F2R (Zpos m) e < IZR (2 ^ 52))%R; [|lra].
      rewrite <- F2R_int.
      replace 0 with (e + (- e)) by ring. rewrite <- F2R_shift by lia.
      apply F2R_lt.
      assert (2 ^ 1 <= 2 ^ (- e)) by (apply Z.pow_le_mono_r; lia).
      change (2 ^ 53) with (2 ^ 52 * 2 ^ 1) in *. nia.
Qed.

Lemma float_of_int_integer (z : Z) (c : float) :
  float_of_int z = Ok c -> exists k, B2R c = IZR k.
Proof.
  intros E. pose proof (float_of_int_ok z c E) as R.
  destruct (Z.le_gt_cases (Z.abs z) (2 ^ 53)) as [L|G].
  - exists z. destruct (int_representable z L) as (y & Fy & Ey).
    exact (rounds_exact _ _ y R Fy Ey).
  - apply big_float_integer; [apply R|].
    assert (H52 : (IZR (2 ^ 52) <= IZR (2 ^ 53))%R) by (apply IZR_le; simpl; lia).
    destruct (Z.le_gt_cases 0 z) as [P|N].
    + assert (IZR (2 ^ 53) <= B2R c)%R.
      { apply (rounds_ge_int _ _ _ R); [simpl; lia|apply IZR_le; lia]. }
      rewrite Rabs_pos_eq; lra.
    + assert (B2R c <= IZR (- 2 ^ 53))%R.
      { apply (rounds_le_int _ _ _ R); [simpl; lia|apply IZR_le; lia]. }
      rewrite opp_IZR in *. rewrite Rabs_left; lra.
Qed.

Lemma int_of_float_ok (x : float) (n : Z) :
  int_of_float x = Ok n -> finite x /\ trunc_of (B2R x) n.
Proof.
  intros E.
  assert (Fx : finite x).
  { unfold finite. unfold int_of_float in E.
    destruct (Prim2SF x); try discriminate E; reflexivity. }
  split; [exact Fx|].
  destruct (int_of_float_trunc x Fx) as (n' & E' & T).
  rewrite E in E'. injection E' as <-. exact T.
Qed.

Lemma int_of_float_integer (x : float) (k : Z) :
  finite x -> B2R x = IZR k -> int_of_float x = Ok k.
Proof.
  intros Fx E. destruct (int_of_float_trunc x Fx) as (n & En & T).
  rewrite E in T. rewrite En. f_equal.
  apply (trunc_of_unique _ _ _ T), trunc_of_int.
Qed.

(** Multiplying by one and subtracting a number from itself are exact, up
    to the largest float. *)
Lemma digits_unique (p : positive) (d : Z) :
  2 ^ (d - 1) <= Zpos p < 2 ^ d -> Zpos (digits2_pos p) = d.
Proof.
  intros H. pose proof (digits2_pos_bounds p) as B.
  set (d' := Zpos (digits2_pos p)) in *.
  assert (Hd : 0 < d).
  { destruct (Z.lt_ge_cases 0 d); [assumption|].
    rewrite (Z.pow_neg_r 2 (d - 1)) in H by lia.
    assert (2 ^ d <= 2 ^ 0) by (apply Z.pow_le_mono_r; lia).
    change (2 ^ 0) with 1 in *. lia. }
  destruct (Z.lt_trichotomy d' d) as [L|[E|G]]; [|exact E|].
  - assert (2 ^ d' <= 2 ^ (d - 1)) by (apply Z.pow_le_mono_r; lia). lia.
  - assert (2 ^ d <= 2 ^ (d' - 1)) by (apply Z.pow_le_mono_r; lia). lia.
Qed.

Lemma mul_one_r (x : float) : finite x -> (x * 1)%float = x.
Proof.
  intros Fx. apply Prim2SF_inj. rewrite mul_spec. unfold SF64mul.
  change (Prim2SF 1) with (S754_finite false (2 ^ 52) (-52)).
  pose proof (finite_fin x Fx) as Hfin. unfold finite in Fx.
  destruct (Prim2SF x) as [s|s| |s m e]; try discriminate Fx; cbn [SFmul].
  - destruct s; reflexivity.
  - destruct (fin_canonical _ _ _ Hfin) as (Hc & He).
    pose proof Hc as Hc'. unfold canonical_mantissa in Hc'. apply Z.eqb_eq in Hc'.
    destruct (canonical_inv _ _ Hc) as (Hd & _ & _).
    pose proof (digits2_pos_bounds m) as B.
    set (d := Zpos (digits2_pos m)) in *.
    assert (Hm : Zpos m < 2 ^ 53).
    { apply Z.lt_le_trans with (2 ^ d); [lia|]. apply Z.pow_le_mono_r; lia. }
    assert (Hdig : Zpos (digits2_pos (m * 2 ^ 52)) = d + 52).
    { apply digits_unique. rewrite Pos2Z.inj_mul.
      change (Zpos (2 ^ 52)) with (2 ^ 52).
      replace (d + 52 - 1) with (d - 1 + 52) by ring.
      rewrite !Z.pow_add_r by lia. nia. }
    assert (Hn : fexp64 (Zpos (digits2_pos (m * 2 ^ 52)) + (e + -52)) - (e + -52) = 52).
    { rewrite Hdig. replace (d + 52 + (e + -52)) with (d + e) by ring.
      change (fexp64 (d + e) = e) in Hc'. rewrite Hc'. ring. }
    rewrite binary_round_aux_rne by (rewrite Hn; lia). rewrite Hn.
    destruct (rne_spec (Zpos (m * 2 ^ 52)) 52 ltac:(lia) ltac:(lia)) as (_ & _ & Hex).
    rewrite Hex.
    + rewrite Pos2Z.inj_mul. change (Zpos (2 ^ 52)) with (2 ^ 52).
      rewrite Z.div_mul by lia.
      replace (e + -52 + 52) with e by ring.
      unfold pack.
      destruct (Pos.eqb_spec m (2 ^ 53)) as [E|_].
      * exfalso. rewrite E in Hm. simpl in Hm. lia.
      * destruct (Z.leb_spec e 971); [|lia]. destruct s; reflexivity.
    + rewrite Pos2Z.inj_mul. change (Zpos (2 ^ 52)) with (2 ^ 52).
      apply Z.mod_mul. lia.
Qed.

Lemma sub_self (x : float) : finite x -> (x - x)%float = 0%float.
Proof.
  intros Fx. apply Prim2SF_inj. rewrite sub_spec. unfold SF64sub.
  change (Prim2SF 0) with (S754_zero false). unfold finite in Fx.
  destruct (Prim2SF x) as [s|s| |s m e]; try discriminate Fx; cbn [SFsub].
  - destruct s; reflexivity.
  - rewrite Z.sub_diag. reflexivity.
Qed.

(** Negating the ridership mirrors the calculator's result. *)
Lemma calculate_mirrored (g : Inputs) :
  calculate_ridership_impact (mirrored_inputs g) =
  (r <- calculate_ridership_impact g ;; Ok (mirrored_results r)).
Proof.
  rewrite !calculate_unfold.
  change (raw_impacts (mirrored_inputs g)) with (raw_impacts g).
  destruct (raw_impacts g) as [rw|e]; cbn [bind]; [|reflexivity].
  change (current_ridership (mirrored_inputs g)) with (- current_ridership g).
  pose proof (float_of_int_opposite (current_ridership g)) as H.
  destruct (float_of_int (current_ridership g)) as [c|e],
           (float_of_int (- current_ridership g)) as [c'|e'];
    try contradiction; cbn [bind]; [|congruence].
  pose proof (mul_opposite c c' (1 + diminishing_returns (sum_impacts rw)) H) as H1.
  rewrite (int_of_float_opposite _ _ H1).
  rewrite (int_of_float_opposite _ _ (sub_opposite _ _ _ _ H1 H)).
  destruct (int_of_float (c * _)); cbn [bind]; [|reflexivity].
  destruct (int_of_float (c * _ - c)); reflexivity.
Qed.

(** * True division of integers *)

Lemma shr_dropped_more (N k e n : Z) :
  0 <= N -> 0 <= k -> 0 <= n ->
  shr (dropped N k) e n = (dropped N (k + n), e + n).
Proof.
  intros HN Hk Hn. destruct n as [|p|p]; [| |lia].
  - rewrite !Z.add_0_r. reflexivity.
  - cbn [shr]. rewrite iter_pos_shr_1_dropped by lia. reflexivity.
Qed.

Lemma with_sticky_value (q : positive) (l : location) :
  exists c, 0 <= c <= 3 /\ Zpos (with_sticky q l) = 4 * Zpos q + c /\
            (l = loc_Exact -> c = 0) /\ (l = loc_Inexact Lt -> c = 1) /\
            (l = loc_Inexact Eq -> c = 2) /\ (l = loc_Inexact Gt -> c = 3).
Proof.
  destruct l as [|[ | | ]]; cbn [with_sticky];
    [exists 0|exists 2|exists 1|exists 3];
    (split; [lia|]); (split; [lia|]); repeat split; intros H; try reflexivity;
    discriminate H.
Qed.

Lemma with_sticky_record (q : positive) (l : location) :
  shr_record_of_loc (Zpos q) l = dropped (Zpos (with_sticky q l)) 2.
Proof.
  destruct (with_sticky_value q l) as (c & Hc & E & H0 & H1 & H2 & H3).
  unfold dropped. rewrite E. change (2 ^ 2) with 4.
  assert (Hq : (4 * Zpos q + c) / 4 = Zpos q).
  { symmetry. apply Z.div_unique with c; lia. }
  assert (Hr : (4 * Zpos q + c) mod 4 = c).
  { symmetry. apply Z.mod_unique with (Zpos q); lia. }
  rewrite Hq, Hr.
  destruct l as [|[ | | ]]; cbn [shr_record_of_loc].
  - rewrite (H0 eq_refl). reflexivity.
  - rewrite (H2 eq_refl). reflexivity.
  - rewrite (H1 eq_refl). reflexivity.
  - rewrite (H3 eq_refl). reflexivity.
Qed.

Lemma with_sticky_digits (q : positive) (l : location) :
  Zpos (digits2_pos (with_sticky q l)) = Zpos (digits2_pos q) + 2.
Proof.
  destruct l as [|[ | | ]]; cbn [with_sticky digits2_pos]; lia.
Qed.

(** Rounding the quotient with its location is rounding the number that
    carries the location in two more bits. *)
Lemma binary_round_aux_sticky (s : bool) (q : positive) (e : Z) (l : location) :
  0 <= fexp64 (Zpos (digits2_pos q) + e) - e ->
  binary_round_aux prec emax s (Zpos q) e l =
  binary_round_aux prec emax s (Zpos (with_sticky q l)) (e - 2) loc_Exact.
Proof.
  intros Hn. unfold binary_round_aux, shr_fexp.
  cbn [Zdigits2 shr_record_of_loc].
  rewrite with_sticky_digits, with_sticky_record.
  set (d := Zpos (digits2_pos q)) in *.
  change (SpecFloat.fexp prec emax) with fexp64.
  replace (d + 2 + (e - 2)) with (d + e) by ring.
  set (n := fexp64 (d + e) - e) in *.
  replace (fexp64 (d + e) - (e - 2)) with (2 + n) by (unfold n; ring).
  rewrite (shr_dropped_more (Zpos (with_sticky q l)) 2 e n) by lia.
  rewrite (shr_dropped (Zpos (with_sticky q l)) (e - 2) (2 + n)) by lia.
  replace (e - 2 + (2 + n)) with (e + n) by ring.
  reflexivity.
Qed.

(** Nearest to the real, not just to the number with the sticky bits. *)
Lemma rne_nearest_sticky (m : positive) (e : Z) (X : R) :
  let n := fexp64 (Zpos (digits2_pos m) + e) - e in
  2 <= n ->
  (Zpos m mod 2 = 0 /\ X = F2R (Zpos m) e) \/
  (Zpos m mod 2 = 1 /\ (F2R (Zpos m - 1) e < X < F2R (Zpos m + 1) e)%R) ->
  forall F : R,
    (F <= 0 \/ exists mf ef, canonical_mantissa prec emax mf ef = true /\
                             F = F2R (Zpos mf) ef)%R ->
    (Rabs (F2R (rne (Zpos m) n) (e + n) - X) <= Rabs (F - X))%R.
Proof.
  intros n Hn [(_ & ->)|(Hodd & HX)] F HF.
  { apply rne_nearest; [lia|exact HF]. }
  destruct (rne_spec (Zpos m) n ltac:(lia) ltac:(lia)) as (Hc & Hhalf & _).
  assert (HP : 0 < 2 ^ n) by (apply Z.pow_pos_nonneg; lia).
  assert (HP4 : 2 ^ n = 4 * 2 ^ (n - 2)).
  { replace n with (2 + (n - 2)) at 1 by ring. rewrite Z.pow_add_r by lia.
    reflexivity. }
  assert (HP4' : 0 < 2 ^ (n - 2)) by (apply Z.pow_pos_nonneg; lia).
  pose proof (Z.div_mod (Zpos m) (2 ^ n) ltac:(lia)) as HD.
  pose proof (Z.mod_pos_bound (Zpos m) (2 ^ n) HP) as HB.
  pose proof (Z.div_mod (Zpos m) 2 ltac:(lia)) as HD2.
  set (q := Zpos m / 2 ^ n) in *.
  set (c := rne (Zpos m) n) in *.
  set (P4 := 2 ^ (n - 2)) in *.
  assert (Hq0 : 0 <= q) by (apply Z.div_pos; lia).
  rewrite <- (F2R_shift c e n) by lia.
  assert (Hcq : c = q \/ c = q + 1) by lia.
  assert (Hlo : (F2R (q * 2 ^ n) e <= X)%R).
  { apply Rle_trans with (F2R (Zpos m - 1) e); [apply F2R_le|lra].
    rewrite HP4 in *. lia. }
  assert (Hhi : (X <= F2R ((q + 1) * 2 ^ n) e)%R).
  { apply Rle_trans with (F2R (Zpos m + 1) e); [lra|apply F2R_le]. lia. }
  assert (Hlo0 : (0 <= F2R (q * 2 ^ n) e)%R).
  { rewrite <- (F2R_0 e). apply F2R_le. lia. }
  assert (Hside : (F <= F2R (q * 2 ^ n) e \/ F2R ((q + 1) * 2 ^ n) e <= F)%R).
  { destruct HF as [HF|(mf & ef & Hcan & ->)]; [left; lra|].
    rewrite !F2R_shift by lia.
    apply canonical_not_between; [fold n; lia|assumption]. }
  assert (Hint : 2 * Z.abs (c * 2 ^ n - Zpos m) + 2 <= 2 ^ n).
  { rewrite HP4 in *. destruct Hcq as [E|E]; rewrite E in *; lia. }
  assert (Hmid : (2 * Rabs (F2R (c * 2 ^ n) e - X)
                  <= F2R ((q + 1) * 2 ^ n) e - F2R (q * 2 ^ n) e)%R).
  { apply Rle_trans with
      (2 * (Rabs (F2R (c * 2 ^ n) e - F2R (Zpos m) e) + Rabs (F2R (Zpos m) e - X)))%R.
    - apply Rmult_le_compat_l; [lra|].
      replace (F2R (c * 2 ^ n) e - X)%R
        with ((F2R (c * 2 ^ n) e - F2R (Zpos m) e) + (F2R (Zpos m) e - X))%R by ring.
      apply Rabs_triang.
    - assert (A1 : (Rabs (F2R (Zpos m) e - X) <= bpow e)%R).
      { unfold F2R in *. rewrite minus_IZR, plus_IZR in HX.
        apply Rabs_le. pose proof (bpow_pos e). split; lra. }
      assert (A2 : (2 * Rabs (F2R (c * 2 ^ n) e - F2R (Zpos m) e) + 2 * bpow e
                    <= F2R ((q + 1) * 2 ^ n) e - F2R (q * 2 ^ n) e)%R).
      { unfold F2R. rewrite <- !Rmult_minus_distr_r, <- !minus_IZR.
        rewrite Rabs_mult, (Rabs_pos_eq (bpow e)) by (left; apply bpow_pos).
        rewrite <- abs_IZR.
        pose proof (bpow_pos e).
        assert (2 * IZR (Z.abs (c * 2 ^ n - Zpos m)) + 2
                <= IZR ((q + 1) * 2 ^ n - q * 2 ^ n))%R.
        { replace 2%R with (IZR 2) by reflexivity.
          rewrite <- mult_IZR, <- plus_IZR. apply IZR_le. lia. }
        nra. }
      lra. }
  revert Hmid. unfold Rabs.
  destruct Hcq as [E|E]; rewrite E in *; clear E;
    repeat destruct Rcase_abs; intros Hmid; destruct Hside; lra.
Qed.

Lemma located_sticky (q : positive) (e : Z) (l : location) (X : R) :
  located q e l X ->
  (Zpos (with_sticky q l) mod 2 = 0 /\ X = F2R (Zpos (with_sticky q l)) (e - 2)) \/
  (Zpos (with_sticky q l) mod 2 = 1 /\
   (F2R (Zpos (with_sticky q l) - 1) (e - 2) < X
    < F2R (Zpos (with_sticky q l) + 1) (e - 2))%R).
Proof.
  intros H.
  assert (Hb : bpow e = (4 * bpow (e - 2))%R).
  { replace e with ((e - 2) + 2) at 1 by ring. rewrite bpow_add.
    replace (bpow 2) with 4%R by (unfold bpow; simpl; ring). ring. }
  pose proof (bpow_pos (e - 2)) as Bp.
  assert (Hmod : forall a c, 0 <= c < 2 -> (2 * a + c) mod 2 = c).
  { intros a c Hc. symmetry. apply Z.mod_unique with a; lia. }
  destruct l as [|[ | | ]]; cbn [located with_sticky] in *.
  - left. split.
    + change (Zpos q~0~0) with (2 * (2 * Zpos q) + 0). apply Hmod. lia.
    + rewrite H. unfold F2R. rewrite Hb.
      change (Zpos q~0~0) with (4 * Zpos q). rewrite mult_IZR. ring.
  - left. split.
    + change (Zpos q~1~0) with (2 * (2 * Zpos q + 1) + 0). apply Hmod. lia.
    + rewrite H. unfold F2R. rewrite Hb.
      change (Zpos q~1~0) with (4 * Zpos q + 2). rewrite plus_IZR, mult_IZR. field.
  - right. split.
    + change (Zpos q~0~1) with (2 * (2 * Zpos q) + 1). apply Hmod. lia.
    + unfold F2R in *. rewrite Hb in H.
      change (Zpos q~0~1) with (4 * Zpos q + 1).
      rewrite minus_IZR, !plus_IZR, mult_IZR. lra.
  - right. split.
    + change (Zpos q~1~1) with (2 * (2 * Zpos q + 1) + 1). apply Hmod. lia.
    + unfold F2R in *. rewrite Hb in H. rewrite plus_IZR in H.
      change (Zpos q~1~1) with (4 * Zpos q + 3).
      rewrite minus_IZR, !plus_IZR, mult_IZR. lra.
Qed.

(** The rounding of a quotient with its location is valid and nearest to
    the real it stands for. *)
Lemma binary_round_aux_located (s : bool) (q : positive) (e : Z) (l : location)
      (X : R) :
  0 <= fexp64 (Zpos (digits2_pos q) + e) - e ->
  located q e l X ->
  valid_binary (binary_round_aux prec emax s (Zpos q) e l) = true /\
  (is_finite (binary_round_aux prec emax s (Zpos q) e l) = true \/
   binary_round_aux prec emax s (Zpos q) e l = S754_infinity s) /\
  (is_finite (binary_round_aux prec emax s (Zpos q) e l) = true ->
   nearest (if s then (- X)%R else X) (binary_round_aux prec emax s (Zpos q) e l)).
Proof.
  intros Hn HX. rewrite binary_round_aux_sticky by exact Hn.
  set (N := with_sticky q l).
  assert (Hd : fexp64 (Zpos (digits2_pos N) + (e - 2)) - (e - 2)
               = 2 + (fexp64 (Zpos (digits2_pos q) + e) - e)).
  { unfold N. rewrite with_sticky_digits.
    replace (Zpos (digits2_pos q) + 2 + (e - 2)) with (Zpos (digits2_pos q) + e) by ring.
    ring. }
  assert (Hn' : 0 <= fexp64 (Zpos (digits2_pos N) + (e - 2)) - (e - 2)) by lia.
  split; [apply binary_round_aux_valid; exact Hn'|].
  split; [rewrite binary_round_aux_rne by exact Hn'; apply pack_cases|].
  intros Hfin f Hv _.
  rewrite (binary_round_aux_value s N (e - 2) Hn' Hfin).
  pose proof (located_sticky q e l X HX) as HS. fold N in HS.
  destruct s; cbn [cond_Zopp].
  - rewrite F2R_opp.
    replace (- F2R (rne (Zpos N) (fexp64 (Zpos (digits2_pos N) + (e - 2)) - (e - 2)))
               (e - 2 + (fexp64 (Zpos (digits2_pos N) + (e - 2)) - (e - 2))) - - X)%R
      with (- (F2R (rne (Zpos N) (fexp64 (Zpos (digits2_pos N) + (e - 2)) - (e - 2)))
                   (e - 2 + (fexp64 (Zpos (digits2_pos N) + (e - 2)) - (e - 2))) - X))%R
      by ring.
    replace (SF2R f - - X)%R with (- (SF2R (SFopp f) - X))%R
      by (rewrite SF2R_opp; ring).
    rewrite !Rabs_Ropp.
    apply rne_nearest_sticky; [lia|exact HS|]. apply valid_grid, valid_opp, Hv.
  - apply rne_nearest_sticky; [lia|exact HS|]. apply valid_grid, Hv.
Qed.

(** What the division kernel hands to the rounding, for a divisor of 100. *)
Lemma truediv_core (a : positive) :
  exists q e l,
    SFdiv_core_binary prec emax (Zpos a) 0 100 0 = (Zpos q, e, l) /\
    0 <= fexp64 (Zpos (digits2_pos q) + e) - e /\
    located q e l (IZR (Zpos a) / 100).
Proof.
  pose proof (digits2_pos_bounds a) as Ba.
  set (d := Zpos (digits2_pos a)) in *.
  assert (Hd : 1 <= d) by (unfold d; lia).
  pose (e := Z.min (fexp64 (d - 7)) 0).
  pose (m' := match 0 - e with
              | 0 => Zpos a
              | Zpos _ => Z.shiftl (Zpos a) (0 - e)
              | Zneg _ => 0
              end).
  assert (Hcore : SFdiv_core_binary prec emax (Zpos a) 0 100 0 =
                  let '(q, r) := Z.div_eucl m' 100 in (q, e, new_location 100 r))
    by reflexivity.
  rewrite Hcore. clear Hcore.
  assert (He : e = Z.min (d - 60) 0).
  { unfold e. rewrite fexp64_eq. lia. }
  assert (Hm : m' = Zpos a * 2 ^ (- e)).
  { unfold m'. replace (0 - e) with (- e) by ring.
    destruct (- e) as [|p|p] eqn:E; [simpl; lia| |lia].
    rewrite Z.shiftl_mul_pow2 by lia. reflexivity. }
  assert (Hm59 : 2 ^ 59 <= m').
  { rewrite Hm. destruct (Z.le_gt_cases 60 d) as [L|G].
    - replace e with 0 by lia. simpl (2 ^ (-0)).
      apply Z.le_trans with (2 ^ (d - 1)); [apply Z.pow_le_mono_r; lia|lia].
    - replace (- e) with (60 - d) by lia.
      apply Z.le_trans with (2 ^ (d - 1) * 2 ^ (60 - d)).
      + rewrite <- Z.pow_add_r by lia. apply Z.pow_le_mono_r; lia.
      + apply Z.mul_le_mono_nonneg_r; [apply Z.pow_nonneg; lia|lia]. }
  pose proof (Z_div_mod m' 100 ltac:(lia)) as HD.
  destruct (Z.div_eucl m' 100) as (q, r). destruct HD as (HD & Hr).
  assert (Hq52 : 2 ^ 52 <= q).
  { change (2 ^ 59) with 576460752303423488 in Hm59.
    change (2 ^ 52) with 4503599627370496. lia. }
  destruct q as [|q|q]; try (simpl in Hq52; lia).
  exists q, e, (new_location 100 r).
  split; [reflexivity|].
  pose proof (digits2_pos_bounds q) as Bq.
  set (dq := Zpos (digits2_pos q)) in *.
  assert (Hdq : 53 <= dq).
  { destruct (Z.le_gt_cases 53 dq) as [L|G]; [exact L|].
    assert (2 ^ dq <= 2 ^ 52) by (apply Z.pow_le_mono_r; lia). lia. }
  split; [rewrite fexp64_eq; lia|].
  (* the real quotient *)
  assert (HX : (IZR (Zpos a) / 100 = (IZR (Zpos q) + IZR r / 100) * bpow e)%R).
  { assert (Hb : (IZR (2 ^ (- e)) * bpow e = 1)%R).
    { rewrite <- (bpow_IZR (- e)), <- bpow_add by lia.
      replace (- e + e) with 0 by ring. reflexivity. }
    assert (E : (IZR (Zpos a) * IZR (2 ^ (- e)) = 100 * IZR (Zpos q) + IZR r)%R).
    { rewrite <- mult_IZR, <- Hm, HD, plus_IZR, mult_IZR. reflexivity. }
    replace (IZR (Zpos a)) with (IZR (Zpos a) * (IZR (2 ^ (- e)) * bpow e))%R
      by (rewrite Hb; ring).
    replace (IZR (Zpos a) * (IZR (2 ^ (- e)) * bpow e))%R
      with ((IZR (Zpos a) * IZR (2 ^ (- e))) * bpow e)%R by ring.
    rewrite E. field. }
  rewrite HX. pose proof (bpow_pos e) as Bp.
  assert (Hr0 : (0 <= IZR r < 100)%R).
  { split; [apply IZR_le; lia|apply IZR_lt; lia]. }
  unfold new_location. change (IntDef.Z.even 100) with true. cbv iota.
  unfold new_location_even.
  destruct (Z.eqb_spec r 0) as [->|Hnz].
  - cbn [located]. unfold F2R. simpl (IZR 0). lra.
  - assert (Hrp : (0 < IZR r)%R) by (apply IZR_lt; lia).
    destruct (Z.compare_spec (2 * r) 100) as [E|L|G]; cbn [located]; unfold F2R.
    + assert (IZR r = 50)%R by (apply (f_equal IZR) in E; rewrite mult_IZR in E; lra).
      rewrite H. field.
    + apply IZR_lt in L. rewrite mult_IZR in L. split; nra.
    + apply IZR_lt in G. rewrite mult_IZR in G. rewrite plus_IZR. split; nra.
Qed.

(** [p / 100] on integers is a float nearest to the real quotient. *)
Lemma int_truediv_rounds (p : Z) (x : float) :
  int_truediv p 100 = Ok x -> rounds (IZR p / 100) x.
Proof.
  unfold int_truediv. change (100 =? 0) with false. cbv iota.
  change (100 <? 0) with false. rewrite xorb_false_r.
  destruct (Z.eqb_spec p 0) as [->|Hp].
  - intros H. injection H as <-. simpl (0 <? 0).
    apply nearest_rounds; [reflexivity|].
    change (Prim2SF (SF2Prim (S754_zero false))) with (S754_zero false).
    replace (0 / 100)%R with (SF2R (S754_zero false)) by (cbn [SF2R]; field).
    apply nearest_exact.
  - assert (Ha : exists a, Z.abs p = Zpos a /\
                           (IZR p / 100 = if p <? 0 then - (IZR (Zpos a) / 100)
                                          else IZR (Zpos a) / 100)%R).
    { destruct p as [|a|a]; [contradiction| |]; exists a; split; try reflexivity.
      change (Z.neg a <? 0) with true. cbv iota.
      change (Z.neg a) with (- Zpos a). rewrite opp_IZR. field. }
    destruct Ha as (a & -> & EX). change (Z.abs 100) with 100.
    destruct (truediv_core a) as (q & e & l & -> & Hn & HL).
    destruct (binary_round_aux_located (p <? 0) q e l _ Hn HL) as (Hv & Hc & Hnear).
    rewrite EX.
    destruct Hc as [Hf|Hi].
    + intros H.
      assert (x = SF2Prim (binary_round_aux prec emax (p <? 0) (Zpos q) e l)) as ->.
      { destruct (binary_round_aux prec emax (p <? 0) (Zpos q) e l);
          try discriminate Hf; injection H as <-; reflexivity. }
      apply nearest_rounds; unfold finite; rewrite Prim2SF_SF2Prim by exact Hv;
        [exact Hf|].
      destruct (p <? 0); apply Hnear; exact Hf.
    + rewrite Hi. discriminate.
Qed.

(** * The raw impacts (C1) *)

Lemma raw_impacts_quotients (g : Inputs) (rw : Impacts) :
  raw_impacts g = Ok rw ->
  exists q1 q2 q3 q4 q5 : float,
    int_truediv (freq_improvement g) 100 = Ok q1 /\
    int_truediv (wait_reduction g) 100 = Ok q2 /\
    int_truediv (coverage_improvement g) 100 = Ok q3 /\
    int_truediv (cost_reduction g) 100 = Ok q4 /\
    int_truediv (integration_improvement g) 100 = Ok q5 /\
    rw = {| raw_freq := q1 * 0.5; raw_wait := q2 * 0.8; raw_coverage := q3 * 0.3;
            raw_cost := q4 * 0.4; raw_integration := q5 * 0.6 |}.
Proof.
  rewrite raw_impacts_unfold. unfold raw_impacts_magnitudes.
  destruct (int_truediv (freq_improvement g) 100) as [q1|]; [|discriminate].
  destruct (int_truediv (wait_reduction g) 100) as [q2|]; [|discriminate].
  destruct (int_truediv (coverage_improvement g) 100) as [q3|]; [|discriminate].
  destruct (int_truediv (cost_reduction g) 100) as [q4|]; [|discriminate].
  destruct (int_truediv (integration_improvement g) 100) as [q5|]; [|discriminate].
  cbn [bind]. intros H. injection H as <-.
  exists q1, q2, q3, q4, q5. repeat split; reflexivity.
Qed.

(** C1: whenever the five raw impacts are returned, each is the binary64
    product of a quotient and the magnitude of its coefficient (0.5, 0.8,
    0.3, 0.4, 0.6), the quotient being a binary64 number nearest to the real
    [pct / 100]; with the sliders in range they are returned, the quotient
    is the primitive division of the converted integer by 100, and the wait
    and cost impacts grow strictly with their percentages; nothing but
    [OverflowError] can be raised. *)
Theorem raw_impacts_use_magnitudes :
  (forall g rw,
      raw_impacts g = Ok rw ->
      exists q1 q2 q3 q4 q5 : float,
        rounds (IZR (freq_improvement g) / 100) q1 /\
        rounds (IZR (wait_reduction g) / 100) q2 /\
        rounds (IZR (coverage_improvement g) / 100) q3 /\
        rounds (IZR (cost_reduction g) / 100) q4 /\
        rounds (IZR (integration_improvement g) / 100) q5 /\
        rw = {| raw_freq := q1 * 0.5; raw_wait := q2 * 0.8;
                raw_coverage := q3 * 0.3; raw_cost := q4 * 0.4;
                raw_integration := q5 * 0.6 |}) /\
  (forall g,
      sliders_in_range g ->
      raw_impacts g =
      Ok {| raw_freq := of_uint63 (Uint63.of_Z (freq_improvement g)) / 100 * 0.5;
            raw_wait := of_uint63 (Uint63.of_Z (wait_reduction g)) / 100 * 0.8;
            raw_coverage :=
              of_uint63 (Uint63.of_Z (coverage_improvement g)) / 100 * 0.3;
            raw_cost := of_uint63 (Uint63.of_Z (cost_reduction g)) / 100 * 0.4;
            raw_integration :=
              of_uint63 (Uint63.of_Z (integration_improvement g)) / 100 * 0.6 |}) /\
  (forall g e, raw_impacts g = Raise e -> e = OverflowError) /\
  (forall g g' r r',
      sliders_in_range g -> sliders_in_range g' ->
      raw_impacts g = Ok r -> raw_impacts g' = Ok r' ->
      (wait_reduction g < wait_reduction g' ->
       (raw_wait r <? raw_wait r')%float = true) /\
      (cost_reduction g < cost_reduction g' ->
       (raw_cost r <? raw_cost r')%float = true)).
Proof.
  split; [|split; [|split]].
  - intros g rw E.
    destruct (raw_impacts_quotients g rw E)
      as (q1 & q2 & q3 & q4 & q5 & E1 & E2 & E3 & E4 & E5 & ->).
    exists q1, q2, q3, q4, q5.
    repeat (split; [apply int_truediv_rounds; assumption|]). reflexivity.
  - intros g (A1 & A2 & A3 & A4 & A5).
    rewrite raw_impacts_unfold. unfold raw_impacts_magnitudes.
    rewrite !int_truediv_primitive by lia. reflexivity.
  - exact raw_impacts_raises.
  - intros g g' r r' Hg Hg' E E'.
    rewrite (raw_impacts_in_range g Hg) in E. injection E as <-.
    rewrite (raw_impacts_in_range g' Hg') in E'. injection E' as <-.
    destruct (slider_impacts_within g Hg) as (_ & H2 & _ & H4 & _).
    destruct (slider_impacts_within g' Hg') as (_ & H2' & _ & H4' & _).
    destruct Hg as (_ & A2 & _ & A4 & _). destruct Hg' as (_ & A2' & _ & A4' & _).
    split; intros L.
    + apply ltb_lt; [apply H2|apply H2'|].
      apply (proj2 (lever_table _ _ wait_table)); lia.
    + apply ltb_lt; [apply H4|apply H4'|].
      apply (proj2 (lever_table _ _ cost_table)); lia.
Qed.

Lemma raw_impacts_use_magnitudes_witness :
  sliders_in_range defaults /\
  raw_impacts defaults =
  Ok {| raw_freq := 0.25; raw_wait := 0.24; raw_coverage := 0.075;
        raw_cost := 0.06; raw_integration := 0.24 |} /\
  exists q1 q2 q3 q4 q5 : float,
    rounds (50 / 100) q1 /\ rounds (30 / 100) q2 /\ rounds (25 / 100) q3 /\
    rounds (15 / 100) q4 /\ rounds (40 / 100) q5 /\
    {| raw_freq := 0.25; raw_wait := 0.24; raw_coverage := 0.075;
       raw_cost := 0.06; raw_integration := 0.24 |} =
    {| raw_freq := q1 * 0.5; raw_wait := q2 * 0.8; raw_coverage := q3 * 0.3;
       raw_cost := q4 * 0.4; raw_integration := q5 * 0.6 |}.
Proof.
  assert (H : sliders_in_range defaults) by (vm_compute; intuition discriminate).
  pose proof (proj1 (proj2 raw_impacts_use_magnitudes) defaults H) as E.
  split; [exact H|]. split; [exact E|].
  exact (proj1 raw_impacts_use_magnitudes defaults _ E).
Defined.

(** * Idle sliders (C5) *)

(** C5, as amended: with the five improvement percentages at 0 and a
    ridership of either sign that converts to a float [c] (a binary64
    number nearest to it), the calculator returns five percentages of 0,
    [total_percentage = 0], [absolute_increase = 0] and [new_ridership]
    equal to the integer value of [c]; so [new_ridership] is the current
    ridership exactly when the ridership is a binary64 number, as every
    integer up to [2^53] in magnitude is.  If the conversion raises, so does
    the calculator. *)
Theorem idle_sliders_change_nothing (g : Inputs) :
  freq_improvement g = 0 -> wait_reduction g = 0 ->
  coverage_improvement g = 0 -> cost_reduction g = 0 ->
  integration_improvement g = 0 ->
  raw_impacts g = Ok no_impacts /\
  diminishing_returns (sum_impacts no_impacts) = 0%float /\
  (forall c,
      float_of_int (current_ridership g) = Ok c ->
      exists n,
        rounds (IZR (current_ridership g)) c /\ IZR n = B2R c /\
        calculate_ridership_impact g =
        Ok {| freq_impact := 0; wait_impact := 0; coverage_impact := 0;
              cost_impact := 0; integration_impact := 0; total_percentage := 0;
              new_ridership := n; absolute_increase := 0 |} /\
        (n = current_ridership g <-> B2R c = IZR (current_ridership g))) /\
  (forall e,
      float_of_int (current_ridership g) = Raise e ->
      calculate_ridership_impact g = Raise e) /\
  (Z.abs (current_ridership g) <= 2 ^ 53 ->
   calculate_ridership_impact g =
   Ok {| freq_impact := 0; wait_impact := 0; coverage_impact := 0;
         cost_impact := 0; integration_impact := 0; total_percentage := 0;
         new_ridership := current_ridership g; absolute_increase := 0 |}).
Proof.
  intros E1 E2 E3 E4 E5.
  assert (Hg : sliders_in_range g).
  { unfold sliders_in_range. rewrite E1, E2, E3, E4, E5. lia. }
  assert (Hs : slider_impacts g = no_impacts).
  { unfold slider_impacts. rewrite E1, E2, E3, E4, E5. vm_compute. reflexivity. }
  assert (Hraw : raw_impacts g = Ok no_impacts).
  { rewrite (raw_impacts_in_range g Hg), Hs. reflexivity. }
  assert (Hrun : forall c,
             float_of_int (current_ridership g) = Ok c ->
             exists n,
               rounds (IZR (current_ridership g)) c /\ IZR n = B2R c /\
               calculate_ridership_impact g =
               Ok {| freq_impact := 0; wait_impact := 0; coverage_impact := 0;
                     cost_impact := 0; integration_impact := 0;
                     total_percentage := 0;
                     new_ridership := n; absolute_increase := 0 |}).
  { intros c Ec. pose proof (float_of_int_ok _ _ Ec) as Rc.
    destruct (float_of_int_integer _ _ Ec) as (k & Ek).
    exists k. split; [exact Rc|]. split; [symmetry; exact Ek|].
    rewrite calculate_unfold, Hraw. cbn [bind]. rewrite Ec. cbn [bind].
    change (1 + diminishing_returns (sum_impacts no_impacts))%float with 1%float.
    rewrite (mul_one_r c (proj1 Rc)), (sub_self c (proj1 Rc)).
    rewrite (int_of_float_integer c k (proj1 Rc) Ek). cbn [bind].
    reflexivity. }
  split; [exact Hraw|]. split; [vm_compute; reflexivity|].
  split; [|split].
  - intros c Ec. destruct (Hrun c Ec) as (n & Rc & En & Ecalc).
    exists n. repeat (split; [assumption|]).
    rewrite <- En. split; [intros ->; reflexivity|apply eq_IZR].
  - intros e Ee. rewrite calculate_unfold, Hraw. cbn [bind]. rewrite Ee.
    reflexivity.
  - intros Hcr.
    destruct (float_of_int_exact _ Hcr) as (c & Ec & _ & Vc).
    destruct (Hrun c Ec) as (n & _ & En & Ecalc).
    rewrite Vc in En. apply eq_IZR in En. rewrite <- En. exact Ecalc.
Qed.

Lemma idle_sliders_change_nothing_witness :
  calculate_ridership_impact (Build_Inputs (2 ^ 80) 4 12 0 0 0 0 0) =
  Ok {| freq_impact := 0; wait_impact := 0; coverage_impact := 0;
        cost_impact := 0; integration_impact := 0; total_percentage := 0;
        new_ridership := 2 ^ 80; absolute_increase := 0 |} /\
  calculate_ridership_impact (Build_Inputs (- 100000) 4 12 0 0 0 0 0) =
  Ok {| freq_impact := 0; wait_impact := 0; coverage_impact := 0;
        cost_impact := 0; integration_impact := 0; total_percentage := 0;
        new_ridership := - 100000; absolute_increase := 0 |}.
Proof.
  split.
  - destruct (idle_sliders_change_nothing (Build_Inputs (2 ^ 80) 4 12 0 0 0 0 0)
                eq_refl eq_refl eq_refl eq_refl eq_refl)
      as (_ & _ & H & _).
    assert (Ec : float_of_int (2 ^ 80) = Ok 1208925819614629174706176%float)
      by (vm_compute; reflexivity).
    destruct (H _ Ec) as (n & _ & En & Ecalc & Hiff).
    assert (n = 2 ^ 80) as ->; [|exact Ecalc].
    apply Hiff. unfold B2R.
    change (Prim2SF 1208925819614629174706176)
      with (S754_finite false (2 ^ 52) 28).
    cbn [SF2R cond_Zopp current_ridership].
    rewrite <- F2R_int. change (Zpos (2 ^ 52)) with (1 * 2 ^ 52).
    rewrite F2R_shift by lia. change (2 ^ 80) with (1 * 2 ^ 80).
    rewrite F2R_shift by lia. reflexivity.
  - apply (idle_sliders_change_nothing (Build_Inputs (- 100000) 4 12 0 0 0 0 0));
      try reflexivity.
    simpl. lia.
Defined.

(** * Non-negativity (C10) *)

(** C10, as amended: with the sliders in range, every result that is
    returned has its five per-factor percentages and [total_percentage]
    non-negative, whatever the ridership; if the ridership is not negative,
    [absolute_increase] is not negative either and [new_ridership] is at
    least the value of [float(current_ridership)], hence at least the
    ridership itself whenever the conversion does not round it down, as for
    every binary64 number and so for every ridership up to [2^53].  A result
    is returned up to a ridership of [2^1019]. *)
Theorem in_range_results_nonnegative (g : Inputs) :
  sliders_in_range g ->
  (forall r,
      calculate_ridership_impact g = Ok r ->
      (0 <=? freq_impact r)%float = true /\
      (0 <=? wait_impact r)%float = true /\
      (0 <=? coverage_impact r)%float = true /\
      (0 <=? cost_impact r)%float = true /\
      (0 <=? integration_impact r)%float = true /\
      (0 <=? total_percentage r)%float = true /\
      (0 <= current_ridership g ->
       0 <= absolute_increase r /\
       exists c,
         float_of_int (current_ridership g) = Ok c /\
         rounds (IZR (current_ridership g)) c /\
         (B2R c <= IZR (new_ridership r))%R /\
         ((IZR (current_ridership g) <= B2R c)%R ->
          current_ridership g <= new_ridership r)) /\
      (0 <= current_ridership g <= 2 ^ 53 ->
       current_ridership g <= new_ridership r)) /\
  (Z.abs (current_ridership g) <= 2 ^ 1019 ->
   exists r, calculate_ridership_impact g = Ok r).
Proof.
  intros Hg. split.
  - intros r E.
    destruct (calculate_inv g r E) as (rw & c & Erw & Ec & En & Ea & ->).
    rewrite (raw_impacts_in_range g Hg) in Erw. injection Erw as <-.
    fold (total_impact g) in En, Ea |- *.
    destruct (slider_impacts_within g Hg) as (H1 & H2 & H3 & H4 & H5).
    pose proof (total_impact_within g Hg) as Ht.
    cbn [results_of freq_impact wait_impact coverage_impact cost_impact
         integration_impact total_percentage new_ridership absolute_increase].
    fold (total_impact g).
    repeat (split; [eapply leb_zero, percent_within; [eassumption|simpl; lia]|]).
    pose proof (float_of_int_ok _ _ Ec) as Rc.
    destruct (float_of_int_integer _ _ Ec) as (k & Ek).
    destruct (int_of_float_ok _ _ En) as (Fn & Tn).
    destruct (int_of_float_ok _ _ Ea) as (Fa & Ta).
    pose proof (mul_rounds_fin _ _ Fn) as R1.
    pose proof (sub_rounds_fin _ _ Fa) as R2.
    destruct (growth_within g Hg) as (FG & BG). simpl in BG.
    set (n := new_ridership _) in *. set (a := absolute_increase _) in *.
    assert (Hmain : 0 <= current_ridership g ->
              0 <= a /\ (B2R c <= IZR n)%R).
    { intros H0.
      assert (C0 : (0 <= B2R c)%R).
      { apply (rounds_ge_int _ _ 0 Rc); [simpl; lia|apply IZR_le; exact H0]. }
      assert (Lnr : (B2R c <= B2R (c * (1 + total_impact g)))%R).
      { apply (rounds_ge _ _ c R1 (proj1 Rc)). nra. }
      assert (Ld : (0 <= B2R (c * (1 + total_impact g) - c))%R).
      { apply (rounds_ge_int _ _ 0 R2); [simpl; lia|]. simpl. lra. }
      split.
      - apply (trunc_of_ge _ _ 0 Ta Ld Ld).
      - rewrite Ek. apply IZR_le. apply (trunc_of_ge _ _ _ Tn); rewrite <- ?Ek; lra. }
    split.
    + intros H0. destruct (Hmain H0) as (Ha & Hn).
      split; [exact Ha|]. exists c. repeat (split; [assumption|]).
      intros V. apply le_IZR. lra.
    + intros (H0 & H53). destruct (Hmain H0) as (_ & Hn).
      destruct (float_of_int_exact (current_ridership g) ltac:(lia))
        as (c' & Ec' & _ & Vc).
      rewrite Ec in Ec'. injection Ec' as <-.
      rewrite Vc in Hn. apply le_IZR. exact Hn.
  - intros Hcr. destruct (growth_within g Hg) as (FG & BG).
    destruct (projection_finite _ (1 + total_impact g) Hcr) as (c & n & a & Ec & En & Ea).
    { split; [exact FG|]. simpl in *. lra. }
    rewrite calculate_unfold, (raw_impacts_in_range g Hg). cbn [bind].
    rewrite Ec. cbn [bind]. fold (total_impact g). rewrite En. cbn [bind].
    rewrite Ea. eexists. reflexivity.
Qed.

Lemma in_range_results_nonnegative_witness :
  sliders_in_range defaults /\
  (0 <=? total_percentage (results_of (slider_impacts defaults) 175550 75550))%float
  = true /\
  0 <= absolute_increase (results_of (slider_impacts defaults) 175550 75550) /\
  current_ridership defaults <=
  new_ridership (results_of (slider_impacts defaults) 175550 75550).
Proof.
  assert (H : sliders_in_range defaults) by (vm_compute; intuition discriminate).
  assert (E : calculate_ridership_impact defaults =
              Ok (results_of (slider_impacts defaults) 175550 75550))
    by (vm_compute; reflexivity).
  destruct (proj1 (in_range_results_nonnegative defaults H) _ E)
    as (_ & _ & _ & _ & _ & Ht & Hpos & Hn).
  split; [exact H|]. split; [exact Ht|]. split.
  - apply Hpos. vm_compute. discriminate.
  - apply Hn. vm_compute. intuition discriminate.
Defined.

(** * The projection and the increase (C4) *)

Lemma opposite_value (x y : spec_float) : opposite x y -> SF2R y = (- SF2R x)%R.
Proof.
  intros [->|(s & s' & -> & ->)]; [apply SF2R_opp|]. cbn [SF2R]. ring.
Qed.

Lemma binary64_small (z : Z) : Z.abs z <= 2 ^ 53 -> binary64 z.
Proof. apply int_representable. Qed.

Lemma binary64_opp (z : Z) : binary64 z -> binary64 (- z).
Proof.
  intros (y & Fy & Ey). exists (- y)%float. unfold finite, B2R in *.
  rewrite opp_spec, SF2R_opp, Ey, opp_IZR. split; [|reflexivity].
  destruct (Prim2SF y); try discriminate Fy; reflexivity.
Qed.

(** What [int()] returns is a binary64 number. *)
Lemma trunc_binary64 (x : float) (n : Z) :
  finite x -> trunc_of (B2R x) n -> binary64 n.
Proof.
  intros Fx T.
  destruct (Rle_lt_dec (IZR (2 ^ 52)) (Rabs (B2R x))) as [B|S].
  - destruct (big_float_integer x Fx B) as (k & Ek).
    rewrite Ek in T. rewrite (trunc_of_unique _ _ _ T (trunc_of_int k)).
    exists x. split; assumption.
  - apply binary64_small.
    assert (H53 : (IZR (2 ^ 52) < IZR (2 ^ 53))%R) by (apply IZR_lt; simpl; lia).
    destruct T as (Tp & Tn).
    destruct (Rle_lt_dec 0 (B2R x)) as [P|N].
    + specialize (Tp P). rewrite Rabs_pos_eq in S by exact P.
      assert (n < 2 ^ 53) by (apply lt_IZR; lra).
      assert (-1 < n) by (apply lt_IZR; lra). lia.
    + specialize (Tn ltac:(lra)). rewrite Rabs_left in S by exact N.
      assert (- 2 ^ 53 < n) by (apply lt_IZR; rewrite opp_IZR; lra).
      assert (n < 1) by (apply lt_IZR; lra). lia.
Qed.

(** The float difference is exact, and truncates to the difference of the
    integers, when the ridership is a float, the projection does not fall
    below it and the difference is a float. *)
Lemma increase_exact_nonneg (g : Inputs) (r : Results) (c : float) :
  calculate_ridership_impact g = Ok r ->
  float_of_int (current_ridership g) = Ok c ->
  B2R c = IZR (current_ridership g) ->
  0 <= current_ridership g <= new_ridership r ->
  binary64 (new_ridership r - current_ridership g) ->
  absolute_increase r = new_ridership r - current_ridership g.
Proof.
  intros E Ec Vc (H0 & Hle) Hb.
  destruct (calculate_inv g r E) as (rw & c' & _ & Ec' & En & Ea & _).
  rewrite Ec in Ec'. injection Ec' as <-.
  set (nr := (c * (1 + diminishing_returns (sum_impacts rw)))%float) in *.
  set (n := new_ridership r) in *. set (a := absolute_increase r) in *.
  set (cr := current_ridership g) in *.
  destruct (int_of_float_ok _ _ En) as (Fn & Tn).
  destruct (int_of_float_ok _ _ Ea) as (Fa & Ta).
  pose proof (sub_rounds_fin _ _ Fa) as R2. rewrite Vc in R2.
  destruct (Z.eq_dec cr 0) as [Z0|NZ].
  { rewrite Z0 in *. simpl (IZR 0) in R2.
    assert (Ed : B2R (nr - c) = (B2R nr - 0)%R)
      by (apply (rounds_exact _ _ nr R2 Fn); ring).
    rewrite Ed, Rminus_0_r in Ta.
    rewrite (trunc_of_unique _ _ _ Ta Tn). lia. }
  assert (Hcp : (0 < IZR cr)%R) by (apply IZR_lt; lia).
  apply IZR_le in H0. apply IZR_le in Hle. simpl in H0.
  assert (Hnn : (0 <= B2R nr)%R).
  { destruct (Rle_lt_dec 0 (B2R nr)) as [P|N]; [exact P|exfalso].
    destruct Tn as (_ & Tn). specialize (Tn ltac:(lra)).
    assert (n < 1) by (apply lt_IZR; lra).
    assert (IZR n <= 0)%R by (apply IZR_le; lia). lra. }
  destruct Tn as (Tn & _). specialize (Tn Hnn).
  assert (Hy : exists y, finite y /\ B2R y = (B2R nr - IZR cr)%R).
  { destruct (Rlt_le_dec (B2R nr) (IZR (2 ^ 53))) as [S|B].
    - apply exact_difference; [exact Fn|apply le_IZR; exact H0|lra].
    - destruct (big_float_integer nr Fn) as (k & Ek).
      { assert (IZR (2 ^ 52) <= IZR (2 ^ 53))%R by (apply IZR_le; simpl; lia).
        rewrite Rabs_pos_eq; lra. }
      assert (k = n).
      { rewrite Ek in Tn. assert (n <= k) by (apply le_IZR; lra).
        assert (k < n + 1) by (apply lt_IZR; rewrite plus_IZR; lra). lia. }
      subst k. rewrite Ek, <- minus_IZR. exact Hb. }
  destruct Hy as (y & Fy & Ey).
  rewrite (rounds_exact _ _ y R2 Fy Ey) in Ta.
  apply (trunc_of_unique _ _ _ Ta).
  split; intros Hv; rewrite minus_IZR; lra.
Qed.

Lemma increase_exact (g : Inputs) (r : Results) (rw : Impacts) (c : float) :
  calculate_ridership_impact g = Ok r ->
  raw_impacts g = Ok rw ->
  float_of_int (current_ridership g) = Ok c ->
  B2R c = IZR (current_ridership g) ->
  0 <= current_ridership g <= new_ridership r \/
  new_ridership r <= current_ridership g <= 0 \/
  B2R (c * (1 + diminishing_returns (sum_impacts rw)))%float
  = IZR (new_ridership r) ->
  (absolute_increase r = new_ridership r - current_ridership g <->
   binary64 (new_ridership r - current_ridership g)).
Proof.
  intros E Erw Ec Vc Hd.
  destruct (calculate_inv g r E) as (rw' & c' & Erw' & Ec' & En & Ea & _).
  rewrite Ec in Ec'. injection Ec' as <-.
  rewrite Erw in Erw'. injection Erw' as <-.
  destruct (int_of_float_ok _ _ Ea) as (Fa & Ta).
  split.
  { intros <-. exact (trunc_binary64 _ _ Fa Ta). }
  intros Hb. destruct Hd as [Hd|[Hd|Hd]].
  - apply (increase_exact_nonneg g r c); assumption.
  - assert (E' : calculate_ridership_impact (mirrored_inputs g) =
                 Ok (mirrored_results r)).
    { rewrite calculate_mirrored, E. reflexivity. }
    pose proof (float_of_int_opposite (current_ridership g)) as H.
    rewrite Ec in H.
    destruct (float_of_int (- current_ridership g)) as [c'|] eqn:Ec';
      [|contradiction].
    assert (Vc' : B2R c' = IZR (- current_ridership g)).
    { unfold B2R in *. rewrite (opposite_value _ _ H), Vc, opp_IZR. reflexivity. }
    pose proof (increase_exact_nonneg (mirrored_inputs g) (mirrored_results r) c'
                  E' Ec' Vc') as K.
    cbn [mirrored_inputs mirrored_results current_ridership new_ridership
         absolute_increase] in K.
    specialize (K ltac:(lia)).
    replace (- new_ridership r - - current_ridership g)
      with (- (new_ridership r - current_ridership g)) in K by ring.
    specialize (K (binary64_opp _ Hb)). lia.
  - pose proof (sub_rounds_fin _ _ Fa) as R2.
    rewrite Hd, Vc, <- minus_IZR in R2.
    destruct Hb as (y & Fy & Ey).
    rewrite (rounds_exact _ _ y R2 Fy Ey) in Ta.
    exact (trunc_of_unique _ _ _ Ta (trunc_of_int _)).
Qed.

Lemma growth_at_most_4 (g : Inputs) :
  sliders_in_range g -> (B2R (1 + total_impact g) <= 4)%R.
Proof.
  intros Hg.
  assert (Hf : sliders_in_range (flat_out g)) by (vm_compute; intuition discriminate).
  assert (Hr : raised g (flat_out g)).
  { destruct Hg as (A1 & A2 & A3 & A4 & A5). unfold raised.
    cbn [flat_out current_ridership freq_improvement wait_reduction
         coverage_improvement cost_reduction integration_improvement]. lia. }
  destruct (B2R_of_int 4 4%float ltac:(reflexivity) ltac:(simpl; lia)) as (F4 & V4).
  apply Rle_trans with (B2R (1 + total_impact (flat_out g)));
    [exact (growth_mono g (flat_out g) Hg Hf Hr)|].
  rewrite <- V4. apply leb_le; [apply (growth_within _ Hf)|exact F4|].
  vm_compute. reflexivity.
Qed.

(** With the sliders in range the projection moves away from zero, by a
    factor of at most 4. *)
Lemma in_range_projection_nonneg (g : Inputs) :
  sliders_in_range g -> 0 <= current_ridership g <= 2 ^ 53 ->
  exists r, calculate_ridership_impact g = Ok r /\
            current_ridership g <= new_ridership r /\
            (current_ridership g <= 2 ^ 51 ->
             new_ridership r <= 4 * current_ridership g).
Proof.
  intros Hg Hcr.
  destruct (projection_runs g Hg ltac:(lia))
    as (c & n & a & Ec & Fc & Vc & R1 & R2 & Tn & Ta & E).
  exists (results_of (slider_impacts g) n a). split; [exact E|].
  cbn [results_of new_ridership].
  pose proof (projected_at_least g c Hg ltac:(lia) Fc Vc R1) as Lnr.
  pose proof (growth_at_most_4 g Hg) as G4.
  destruct (growth_within g Hg) as (_ & BG). simpl in BG.
  assert (H0 : (0 <= IZR (current_ridership g))%R) by (apply IZR_le; lia).
  split; [exact (trunc_of_ge _ _ _ Tn ltac:(lra) Lnr)|].
  intros H51.
  assert (U1 : (B2R (c * (1 + total_impact g)) <= IZR (4 * current_ridership g))%R).
  { apply (rounds_le_int _ _ _ R1); [lia|]. rewrite mult_IZR. nra. }
  destruct Tn as (Tn & _). specialize (Tn ltac:(lra)). apply le_IZR. lra.
Qed.

Lemma in_range_projection (g : Inputs) :
  sliders_in_range g -> Z.abs (current_ridership g) <= 2 ^ 53 ->
  exists r, calculate_ridership_impact g = Ok r /\
            (0 <= current_ridership g <= new_ridership r \/
             new_ridership r <= current_ridership g <= 0) /\
            (Z.abs (current_ridership g) <= 2 ^ 51 ->
             Z.abs (new_ridership r - current_ridership g) <= 2 ^ 53).
Proof.
  intros Hg Hcr.
  destruct (Z.le_gt_cases 0 (current_ridership g)) as [P|N].
  - destruct (in_range_projection_nonneg g Hg ltac:(lia)) as (r & E & L & U).
    exists r. split; [exact E|]. split; [left; lia|]. intros H51.
    specialize (U ltac:(lia)). lia.
  - destruct (in_range_projection_nonneg (mirrored_inputs g)) as (r' & E' & L & U).
    { exact Hg. }
    { cbn [mirrored_inputs current_ridership]. lia. }
    rewrite calculate_mirrored in E'.
    destruct (calculate_ridership_impact g) as [r|]; [|discriminate E'].
    cbn [bind] in E'. injection E' as <-.
    cbn [mirrored_inputs mirrored_results current_ridership new_ridership] in L, U.
    exists r. split; [reflexivity|]. split; [right; lia|]. intros H51.
    specialize (U ltac:(lia)). lia.
Qed.

(** C4, as amended: whenever a result is returned, for every parameter
    set, [new_ridership] is the binary64 product [float(current_ridership)
    * (1 + clamped total_impact)] truncated toward zero, and
    [absolute_increase] is the float difference of that product and
    [float(current_ridership)] truncated toward zero, each a rounding to
    nearest of the real operation.  When the ridership is a binary64 number
    and the projection does not move it toward zero, or the product is a
    whole number, [absolute_increase = new_ridership - current_ridership]
    holds exactly when that difference is a binary64 number, as every
    integer up to [2^53] in magnitude is.  With the sliders in range and a
    ridership of magnitude at most [2^53], of either sign, a result is
    returned and the equality holds exactly when the difference is a
    binary64 number; it always holds up to a ridership of [2^51]. *)
Theorem increase_is_difference :
  (forall g r,
      calculate_ridership_impact g = Ok r ->
      exists rw c,
        raw_impacts g = Ok rw /\
        float_of_int (current_ridership g) = Ok c /\
        rounds (IZR (current_ridership g)) c /\
        rounds (B2R c * B2R (1 + diminishing_returns (sum_impacts rw))%float)
               (c * (1 + diminishing_returns (sum_impacts rw)))%float /\
        rounds (B2R (c * (1 + diminishing_returns (sum_impacts rw)))%float - B2R c)
               (c * (1 + diminishing_returns (sum_impacts rw)) - c)%float /\
        trunc_of (B2R (c * (1 + diminishing_returns (sum_impacts rw)))%float)
                 (new_ridership r) /\
        trunc_of (B2R (c * (1 + diminishing_returns (sum_impacts rw)) - c)%float)
                 (absolute_increase r)) /\
  (forall g r rw c,
      calculate_ridership_impact g = Ok r ->
      raw_impacts g = Ok rw ->
      float_of_int (current_ridership g) = Ok c ->
      B2R c = IZR (current_ridership g) ->
      0 <= current_ridership g <= new_ridership r \/
      new_ridership r <= current_ridership g <= 0 \/
      B2R (c * (1 + diminishing_returns (sum_impacts rw)))%float
      = IZR (new_ridership r) ->
      (absolute_increase r = new_ridership r - current_ridership g <->
       binary64 (new_ridership r - current_ridership g))) /\
  (forall z, Z.abs z <= 2 ^ 53 -> binary64 z) /\
  (forall g,
      sliders_in_range g -> Z.abs (current_ridership g) <= 2 ^ 53 ->
      exists r,
        calculate_ridership_impact g = Ok r /\
        (absolute_increase r = new_ridership r - current_ridership g <->
         binary64 (new_ridership r - current_ridership g)) /\
        (Z.abs (current_ridership g) <= 2 ^ 51 ->
         absolute_increase r = new_ridership r - current_ridership g)).
Proof.
  split; [|split; [|split]].
  - intros g r E.
    destruct (calculate_inv g r E) as (rw & c & Erw & Ec & En & Ea & _).
    destruct (int_of_float_ok _ _ En) as (Fn & Tn).
    destruct (int_of_float_ok _ _ Ea) as (Fa & Ta).
    exists rw, c. split; [exact Erw|]. split; [exact Ec|].
    split; [exact (float_of_int_ok _ _ Ec)|].
    split; [exact (mul_rounds_fin _ _ Fn)|].
    split; [exact (sub_rounds_fin _ _ Fa)|].
    split; assumption.
  - exact increase_exact.
  - exact binary64_small.
  - intros g Hg Hcr.
    destruct (in_range_projection g Hg Hcr) as (r & E & Hd & Hb).
    destruct (calculate_inv g r E) as (rw & c & Erw & Ec & _).
    destruct (float_of_int_exact _ Hcr) as (c' & Ec' & _ & Vc).
    rewrite Ec in Ec'. injection Ec' as <-.
    assert (Hiff : absolute_increase r = new_ridership r - current_ridership g <->
                   binary64 (new_ridership r - current_ridership g)).
    { apply (increase_exact g r rw c E Erw Ec Vc). tauto. }
    exists r. split; [exact E|]. split; [exact Hiff|].
    intros H51. apply Hiff, binary64_small, Hb, H51.
Qed.

Lemma increase_is_difference_witness :
  (exists r, calculate_ridership_impact defaults = Ok r /\
             absolute_increase r = new_ridership r - current_ridership defaults) /\
  (exists r, calculate_ridership_impact (mirrored_inputs defaults) = Ok r /\
             absolute_increase r =
             new_ridership r - current_ridership (mirrored_inputs defaults)).
Proof.
  split.
  - destruct (proj2 (proj2 (proj2 increase_is_difference)) defaults
                ltac:(vm_compute; intuition discriminate)
                ltac:(vm_compute; discriminate)) as (r & E & _ & H).
    exists r. split; [exact E|]. apply H. vm_compute. discriminate.
  - destruct (proj2 (proj2 (proj2 increase_is_difference)) (mirrored_inputs defaults)
                ltac:(vm_compute; intuition discriminate)
                ltac:(vm_compute; discriminate)) as (r & E & _ & H).
    exists r. split; [exact E|]. apply H. vm_compute. discriminate.
Defined.

(** Each condition is needed.  With every slider at its maximum and an
    increase of [2^53 + 1], which is not a binary64 number, the float
    difference is rounded to [2^53]. *)
Lemma increase_differs_just_beyond :
  sliders_in_range just_beyond /\
  exists r c, calculate_ridership_impact just_beyond = Ok r /\
              float_of_int (current_ridership just_beyond) = Ok c /\
              B2R c = IZR (current_ridership just_beyond) /\
              0 <= current_ridership just_beyond <= new_ridership r /\
              new_ridership r - current_ridership just_beyond = 2 ^ 53 + 1 /\
              absolute_increase r = 2 ^ 53.
Proof.
  split; [vm_compute; intuition discriminate|].
  destruct (float_of_int_exact (current_ridership just_beyond)
              ltac:(vm_compute; discriminate)) as (c & Ec & _ & Vc).
  eexists _, c. split; [vm_compute; reflexivity|].
  split; [exact Ec|]. split; [exact Vc|].
  vm_compute. intuition discriminate.
Qed.

(** A ridership that is not a binary64 number is replaced by its float
    before the difference is taken. *)
Lemma increase_differs_when_inexact :
  sliders_in_range inexact_ridership /\
  exists r, calculate_ridership_impact inexact_ridership = Ok r /\
            0 <= current_ridership inexact_ridership <= new_ridership r /\
            new_ridership r - current_ridership inexact_ridership <= 2 ^ 53 /\
            absolute_increase r <>
            new_ridership r - current_ridership inexact_ridership.
Proof.
  split; [vm_compute; intuition discriminate|].
  eexists. split; [vm_compute; reflexivity|].
  vm_compute. intuition discriminate.
Qed.

(** * The scenario table (C7, C8) *)

Lemma simplified_row_inv (cr : Z) (name : string) (P : float) (w : Row) :
  simplified_row cr name P = Ok w ->
  exists c n,
    float_of_int cr = Ok c /\
    rounds (B2R c * B2R (1 + P * 0.004)%float) (c * (1 + P * 0.004))%float /\
    trunc_of (B2R (c * (1 + P * 0.004))%float) n /\
    w = {| Scenario := name; Ridership := n; Pct_Increase := Float (P * 0.4)%float |}.
Proof.
  unfold simplified_row.
  destruct (float_of_int cr) as [c|]; [|discriminate]. cbn [bind].
  destruct (int_of_float (c * (1 + P * 0.004))%float) as [n|] eqn:En; [|discriminate].
  cbn [bind]. intros H. injection H as <-.
  destruct (int_of_float_ok _ _ En) as (Fn & Tn).
  exists c, n. split; [reflexivity|].
  split; [exact (mul_rounds_fin _ _ Fn)|]. split; [exact Tn|reflexivity].
Qed.

Lemma scenario_results_inv (g : Inputs) (rows : list Row) :
  scenario_results g = Ok rows ->
  exists r b m c,
    calculate_ridership_impact g = Ok r /\
    simplified_row (current_ridership g) "Basic Improvement" 15 = Ok b /\
    simplified_row (current_ridership g) "Moderate Improvement" 35 = Ok m /\
    simplified_row (current_ridership g) "Comprehensive Improvement" 60 = Ok c /\
    rows = [current_row (current_ridership g); b; m; c].
Proof.
  rewrite scenario_results_unfold.
  destruct (calculate_ridership_impact g) as [r|]; [|discriminate]. cbn [bind].
  destruct (simplified_row _ "Basic Improvement" _) as [b|]; [|discriminate].
  cbn [bind].
  destruct (simplified_row _ "Moderate Improvement" _) as [m|]; [|discriminate].
  cbn [bind].
  destruct (simplified_row _ "Comprehensive Improvement" _) as [c|]; [|discriminate].
  cbn [bind]. intros H. injection H as <-.
  exists r, b, m, c. repeat split; reflexivity.
Qed.

Lemma scenario_results_returns (g : Inputs) :
  sliders_in_range g -> Z.abs (current_ridership g) <= 2 ^ 1019 ->
  exists rows, scenario_results g = Ok rows.
Proof.
  intros Hg Hcr.
  assert (Hc : exists r, calculate_ridership_impact g = Ok r).
  { destruct (growth_within g Hg) as (FG & BG).
    destruct (projection_finite _ (1 + total_impact g) Hcr) as (c & n & a & Ec & En & Ea).
    { split; [exact FG|]. simpl in *. lra. }
    rewrite calculate_unfold, (raw_impacts_in_range g Hg). cbn [bind].
    rewrite Ec. cbn [bind]. fold (total_impact g). rewrite En. cbn [bind].
    rewrite Ea. eexists. reflexivity. }
  destruct Hc as (r & Er).
  rewrite scenario_results_unfold, Er. cbn [bind].
  destruct preset_growth_within as (G1 & G2 & G3).
  assert (W : forall x, within 0 2 x -> within 0 7 x).
  { intros x (F & B). split; [exact F|]. simpl in *. lra. }
  unfold simplified_row.
  destruct (projection_finite _ _ Hcr (W _ G1)) as (c & n1 & _ & Ec & E1 & _).
  destruct (projection_finite _ _ Hcr (W _ G2)) as (c2 & n2 & _ & Ec2 & E2 & _).
  destruct (projection_finite _ _ Hcr (W _ G3)) as (c3 & n3 & _ & Ec3 & E3 & _).
  rewrite Ec in Ec2, Ec3 |- *. injection Ec2 as <-. injection Ec3 as <-.
  cbn [bind]. rewrite E1. cbn [bind]. rewrite E2. cbn [bind]. rewrite E3.
  eexists. reflexivity.
Qed.

(** The growth factor of a preset is the binary64 number next to
    [1 + pct * 0.004]. *)
Lemma growth_constant_close (x : float) (m : positive) (num : Z) :
  Prim2SF x = S754_finite false m (-52) ->
  Z.abs (1000 * Zpos m - num * 2 ^ 52) <= 1000 ->
  (Rabs (B2R x - IZR num / 1000) <= bpow (-52))%R.
Proof.
  intros E Hd. unfold B2R. rewrite E. cbn [SF2R cond_Zopp]. unfold F2R.
  assert (Hb : (IZR (2 ^ 52) * bpow (-52) = 1)%R).
  { rewrite <- (bpow_IZR 52), <- bpow_add by lia. reflexivity. }
  pose proof (bpow_pos (-52)) as Bp.
  apply Z.abs_le in Hd. destruct Hd as (Hd1 & Hd2).
  apply IZR_le in Hd1, Hd2.
  rewrite opp_IZR in Hd1. rewrite minus_IZR, !mult_IZR in Hd1, Hd2.
  set (b := bpow (-52)) in *. set (M := IZR (Zpos m)) in *.
  set (Q := IZR num) in *. set (K := IZR (2 ^ 52)) in *.
  set (D := (1000 * M - Q * K)%R) in *.
  replace (M * b - Q / 1000)%R with (b * D / 1000)%R.
  - apply Rabs_le.
    assert (0 <= b * (1000 - D))%R by (apply Rmult_le_pos; lra).
    assert (0 <= b * (D + 1000))%R by (apply Rmult_le_pos; lra).
    split; lra.
  - unfold D. replace (Q / 1000)%R with ((Q / 1000) * (K * b))%R
      by (rewrite Hb; ring). field.
Qed.

(** C7: every table the scenario loop returns, for any ridership, is the
    Current row followed by the three presets in order, each with
    [percentage = float(pct) * 0.4] (exactly 6, 14 and 24) and [ridership]
    the truncation toward zero of the binary64 product
    [float(current_ridership) * (1 + float(pct) * 0.004)], the growth factor
    being within [2^-52] of 1.06, 1.14 and 1.24; the table is returned for
    in-range sliders up to a ridership of [2^1019]; at 100000 it is Current
    100000, Basic 6.0 and 106000, Moderate 14.0 and 114000, Comprehensive
    24.0 and 124000. *)
Theorem scenario_presets_use_simplified_formula :
  (forall g rows,
      scenario_results g = Ok rows ->
      exists c n1 n2 n3,
        float_of_int (current_ridership g) = Ok c /\
        rounds (IZR (current_ridership g)) c /\
        rounds (B2R c * B2R (1 + 15 * 0.004)%float) (c * (1 + 15 * 0.004))%float /\
        rounds (B2R c * B2R (1 + 35 * 0.004)%float) (c * (1 + 35 * 0.004))%float /\
        rounds (B2R c * B2R (1 + 60 * 0.004)%float) (c * (1 + 60 * 0.004))%float /\
        trunc_of (B2R (c * (1 + 15 * 0.004))%float) n1 /\
        trunc_of (B2R (c * (1 + 35 * 0.004))%float) n2 /\
        trunc_of (B2R (c * (1 + 60 * 0.004))%float) n3 /\
        rows =
        [current_row (current_ridership g);
         {| Scenario := "Basic Improvement"; Ridership := n1;
            Pct_Increase := Float (15 * 0.4)%float |};
         {| Scenario := "Moderate Improvement"; Ridership := n2;
            Pct_Increase := Float (35 * 0.4)%float |};
         {| Scenario := "Comprehensive Improvement"; Ridership := n3;
            Pct_Increase := Float (60 * 0.4)%float |}]) /\
  (B2R (15 * 0.4)%float = 6%R /\ B2R (35 * 0.4)%float = 14%R /\
   B2R (60 * 0.4)%float = 24%R /\
   (Rabs (B2R (1 + 15 * 0.004)%float - 1060 / 1000) <= bpow (-52))%R /\
   (Rabs (B2R (1 + 35 * 0.004)%float - 1140 / 1000) <= bpow (-52))%R /\
   (Rabs (B2R (1 + 60 * 0.004)%float - 1240 / 1000) <= bpow (-52))%R) /\
  (forall g,
      sliders_in_range g -> Z.abs (current_ridership g) <= 2 ^ 1019 ->
      exists rows, scenario_results g = Ok rows) /\
  (forall g name pct,
      In (name, pct) scenarios -> name <> "Current"%string ->
      exists P, float_of_int pct = Ok P /\ B2R P = IZR pct /\
                scenario_row g (name, pct) =
                simplified_row (current_ridership g) name P) /\
  (forall g,
      sliders_in_range g -> current_ridership g = 100000 ->
      scenario_results g = Ok table_100000).
Proof.
  split; [|split; [|split; [|split]]].
  - intros g rows E.
    destruct (scenario_results_inv g rows E) as (r & b & m & c & _ & Eb & Em & Ec & ->).
    destruct (simplified_row_inv _ _ _ _ Eb) as (c1 & n1 & Ec1 & R1 & T1 & ->).
    destruct (simplified_row_inv _ _ _ _ Em) as (c2 & n2 & Ec2 & R2 & T2 & ->).
    destruct (simplified_row_inv _ _ _ _ Ec) as (c3 & n3 & Ec3 & R3 & T3 & ->).
    rewrite Ec1 in Ec2, Ec3. injection Ec2 as <-. injection Ec3 as <-.
    exists c1, n1, n2, n3. split; [exact Ec1|].
    split; [exact (float_of_int_ok _ _ Ec1)|].
    repeat (split; [assumption|]). reflexivity.
  - assert (V : forall z x, float_of_int z = Ok x -> Z.abs z <= 2 ^ 53 ->
                            B2R x = IZR z).
    { intros z x Ex Hz. exact (proj2 (B2R_of_int z x Ex Hz)). }
    split; [exact (V 6 (15 * 0.4)%float eq_refl ltac:(simpl; lia))|].
    split; [exact (V 14 (35 * 0.4)%float eq_refl ltac:(simpl; lia))|].
    split; [exact (V 24 (60 * 0.4)%float eq_refl ltac:(simpl; lia))|].
    split; [|split].
    + apply (growth_constant_close _ 4773815605012726 1060); [reflexivity|lia].
    + apply (growth_constant_close _ 5134103575202366 1140); [reflexivity|lia].
    + apply (growth_constant_close _ 5584463537939415 1240); [reflexivity|lia].
  - exact scenario_results_returns.
  - intros g name pct Hin Hne.
    unfold scenarios in Hin. cbn [In] in Hin.
    destruct Hin as [E|[E|[E|[E|[]]]]]; injection E as <- <-.
    + exfalso. apply Hne. reflexivity.
    + exists 15%float. split; [reflexivity|].
      split; [apply (B2R_of_int 15 15%float float_of_int_15); simpl; lia|].
      apply scenario_row_preset; reflexivity.
    + exists 35%float. split; [reflexivity|].
      split; [apply (B2R_of_int 35 35%float float_of_int_35); simpl; lia|].
      apply scenario_row_preset; reflexivity.
    + exists 60%float. split; [reflexivity|].
      split; [apply (B2R_of_int 60 60%float float_of_int_60); simpl; lia|].
      apply scenario_row_preset; reflexivity.
  - intros g Hg Ecr. rewrite scenario_results_unfold.
    destruct (projection_runs g Hg ltac:(rewrite Ecr; simpl; lia))
      as (c & n & a & _ & _ & _ & _ & _ & _ & _ & ->).
    rewrite Ecr. vm_compute. reflexivity.
Qed.

Lemma scenario_presets_use_simplified_formula_witness :
  sliders_in_range crowded /\
  exists rows c n1 n2 n3,
    scenario_results crowded = Ok rows /\
    float_of_int (current_ridership crowded) = Ok c /\
    trunc_of (B2R (c * (1 + 15 * 0.004))%float) n1 /\
    trunc_of (B2R (c * (1 + 35 * 0.004))%float) n2 /\
    trunc_of (B2R (c * (1 + 60 * 0.004))%float) n3 /\
    rows =
    [current_row (current_ridership crowded);
     {| Scenario := "Basic Improvement"; Ridership := n1;
        Pct_Increase := Float (15 * 0.4)%float |};
     {| Scenario := "Moderate Improvement"; Ridership := n2;
        Pct_Increase := Float (35 * 0.4)%float |};
     {| Scenario := "Comprehensive Improvement"; Ridership := n3;
        Pct_Increase := Float (60 * 0.4)%float |}].
Proof.
  assert (H : sliders_in_range crowded) by (vm_compute; intuition discriminate).
  split; [exact H|].
  destruct (proj1 (proj2 (proj2 scenario_presets_use_simplified_formula)) crowded H
              ltac:(vm_compute; discriminate)) as (rows & E).
  destruct (proj1 scenario_presets_use_simplified_formula crowded rows E)
    as (c & n1 & n2 & n3 & Ec & _ & _ & _ & _ & T1 & T2 & T3 & Er).
  exists rows, c, n1, n2, n3. repeat (split; [assumption|]). exact Er.
Defined.

(** C8, as amended: whenever the table is returned its first row is
    Current with the ridership taken verbatim and an increase of 0, and two
    runs with the same ridership that both return a table return the same
    table; but the Current pass calls the calculator, so a run in which the
    calculator raises returns no table at all.  With the sliders in range
    the table is returned up to a ridership of [2^1019]. *)
Theorem current_row_ignores_sliders :
  (forall g rows,
      scenario_results g = Ok rows ->
      hd_error rows = Some (current_row (current_ridership g))) /\
  (forall g1 g2 rows1 rows2,
      current_ridership g1 = current_ridership g2 ->
      scenario_results g1 = Ok rows1 -> scenario_results g2 = Ok rows2 ->
      rows1 = rows2) /\
  (forall g e,
      calculate_ridership_impact g = Raise e -> scenario_results g = Raise e) /\
  (forall g,
      sliders_in_range g -> Z.abs (current_ridership g) <= 2 ^ 1019 ->
      exists rows, scenario_results g = Ok rows /\
                   hd_error rows = Some (current_row (current_ridership g))).
Proof.
  assert (Hhd : forall g rows,
             scenario_results g = Ok rows ->
             hd_error rows = Some (current_row (current_ridership g))).
  { intros g rows E.
    destruct (scenario_results_inv g rows E) as (r & b & m & c & _ & _ & _ & _ & ->).
    reflexivity. }
  split; [exact Hhd|]. split; [|split].
  - intros g1 g2 rows1 rows2 Ecr E1 E2.
    destruct (scenario_results_inv g1 rows1 E1)
      as (r1 & b1 & m1 & c1 & _ & Eb1 & Em1 & Ec1 & ->).
    destruct (scenario_results_inv g2 rows2 E2)
      as (r2 & b2 & m2 & c2 & _ & Eb2 & Em2 & Ec2 & ->).
    rewrite Ecr in *. rewrite Eb1 in Eb2. rewrite Em1 in Em2. rewrite Ec1 in Ec2.
    injection Eb2 as <-. injection Em2 as <-. injection Ec2 as <-. reflexivity.
  - intros g e E. rewrite scenario_results_unfold, E. reflexivity.
  - intros g Hg Hcr. destruct (scenario_results_returns g Hg Hcr) as (rows & E).
    exists rows. split; [exact E|exact (Hhd g rows E)].
Qed.

Lemma current_row_ignores_sliders_witness :
  sliders_in_range idle_beyond_2p53 /\
  Z.abs (current_ridership idle_beyond_2p53) <= 2 ^ 1019 /\
  exists rows, scenario_results idle_beyond_2p53 = Ok rows /\
               hd_error rows = Some (current_row (current_ridership idle_beyond_2p53)).
Proof.
  assert (H1 : sliders_in_range idle_beyond_2p53) by (vm_compute; intuition discriminate).
  assert (H2 : Z.abs (current_ridership idle_beyond_2p53) <= 2 ^ 1019)
    by (vm_compute; discriminate).
  split; [exact H1|]. split; [exact H2|].
  exact (proj2 (proj2 (proj2 current_row_ignores_sliders)) idle_beyond_2p53 H1 H2).
Defined.

(** C8 as stated fails: whether there is a Current row depends on the live
    sliders.  At a ridership of [2^1023], with every slider in range, the
    idle run returns the table and the run with every slider at its maximum
    raises [OverflowError] in the Current pass. *)
Lemma current_row_needs_the_live_run :
  sliders_in_range idle_at_2p1023 /\ sliders_in_range flat_out_at_2p1023 /\
  current_ridership idle_at_2p1023 = current_ridership flat_out_at_2p1023 /\
  (exists rows, scenario_results idle_at_2p1023 = Ok rows /\
                hd_error rows = Some (current_row (2 ^ 1023))) /\
  calculate_ridership_impact flat_out_at_2p1023 = Raise OverflowError /\
  scenario_results flat_out_at_2p1023 = Raise OverflowError.
Proof.
  split; [vm_compute; intuition discriminate|].
  split; [vm_compute; intuition discriminate|].
  split; [reflexivity|]. split; [|split; vm_compute; reflexivity].
  eexists. split; [vm_compute; reflexivity|]. reflexivity.
Qed.
